(** * CyberRoomba: scheduler, normalizers and CVE correlator

    A shallow embedding of the TypeScript sources

    - [src/vuln/parse.ts]      (Finding Normalizer),
    - [nvd matcher]            (CVE Correlator: enrich / suggest),
    - [recon normalizer]       (Result Normalizer: [normalizeRecon]),
    - [cli/recon.ts], [cli/attacks] (the worker pools [runParallelRecon]
      and [runParallelAttacks], the jobs they run and the limits [main]
      gives them),
    - [cli/vuln.ts]            (the scanner job [runVulnJob]),

    together with the properties the specification states about them and
    further properties of the same code.

    Conventions of the embedding.
    - A JavaScript [string] is a Rocq [string], each character standing
      for the code unit of the same number (U+0000 to U+00FF, the Latin-1
      range); template literals are [+:+].
    - An optional field [x?: T] is an [option T]; the truthiness test
      [if (x)] on an optional string is [truthy].
    - A JavaScript [number] is a [number] below (a rational in lowest
      terms, an infinity or NaN: every IEEE double is one of these), also
      where the number is a port or an HTTP status code: the schemas of the
      tool outputs ask for [z.number()] only.  Counters of the code's own
      ([completed], [array.length]) are integers ([nat], [Z]).
    - A JavaScript [Set] or [Map] iterates in insertion order.  Where the
      code turns one into an array the model is a duplicate-free list in
      insertion order ([jsset_add], [jsmap_set]); where it only asks for
      membership or looks a key up it is a [gset] or [gmap].
    - [new Date().toISOString()] is a reading of a clock the caller passes
      in: [clock k] is the k-th reading of one call. *)

From Stdlib Require Import Ascii String QArith Qcanon.
From stdpp Require Import base option list gmap strings pretty.

Local Open Scope string_scope.
Local Open Scope list_scope.

(** ** JavaScript values *)

(** [if (s)] for [s : string | undefined]: defined and not empty. *)
Definition truthy (s : option string) : bool :=
  match s with
  | Some s => negb (bool_decide (s = ""))
  | None => false
  end.

(** [x] where the code stores it only [if (x)]. *)
Definition truthy_or_none (s : option string) : option string :=
  if truthy s then s else None.

(** A JavaScript [number].  A finite number is a rational in lowest terms,
    so that two numbers are equal exactly when JavaScript finds them the
    same value ([SameValueZero], the test of [Map] keys; 0 and -0 are one
    number). *)
Inductive number : Type :=
| Num (q : Qc)
| PosInfinity
| NegInfinity
| NaN.

#[global] Instance number_eq_dec : EqDecision number.
Proof. solve_decision. Defined.

(** The number written as the fraction [q]; an integer literal [n] is
    [num n]. *)
Definition num (q : Q) : number := Num (Q2Qc q).

(** [x >= k] for a finite constant [k]. *)
Definition number_ge (x : number) (k : Q) : bool :=
  match x with
  | Num q => Qle_bool k q
  | PosInfinity => true
  | NegInfinity | NaN => false
  end.

(** [x > k] for a finite constant [k]. *)
Definition number_gt (x : number) (k : Q) : bool :=
  match x with
  | Num q => negb (Qle_bool q k)
  | PosInfinity => true
  | NegInfinity | NaN => false
  end.

(** [x < k] for a finite constant [k]. *)
Definition number_lt (x : number) (k : Q) : bool :=
  match x with
  | Num q => negb (Qle_bool k q)
  | NegInfinity => true
  | PosInfinity | NaN => false
  end.

(** [Number.isInteger(x) && lo <= x && x <= hi]: what zod's
    [z.number().int().min(lo).max(hi)] accepts. *)
Definition integerBetween (lo hi : Z) (x : number) : bool :=
  match x with
  | Num q => (Qden q =? 1)%positive && (lo <=? Qnum q)%Z && (Qnum q <=? hi)%Z
  | PosInfinity | NegInfinity | NaN => false
  end.

(** [String(x)], as a template literal computes it.  An integer below 2^53
    in magnitude prints as its decimal digits, with a minus sign when it is
    negative.  Every other finite number prints as the shortest digits that
    read back as the same double, in plain or exponent notation; these are
    left to [digits]. *)
Definition numberToString (digits : Qc -> string) (x : number) : string :=
  match x with
  | Num q =>
      if (Qden q =? 1)%positive && (Z.abs (Qnum q) <? 2 ^ 53)%Z
      then pretty (Qnum q)
      else digits q
  | PosInfinity => "Infinity"
  | NegInfinity => "-Infinity"
  | NaN => "NaN"
  end.

(** [Array.from(set)] of a [Set<T>] filled by [set.add]: insertion order,
    no duplicates. *)
Definition jsset_add `{EqDecision A} (s : list A) (x : A) : list A :=
  if decide (x ∈ s) then s else s ++ [x].

Definition jsset_add_all `{EqDecision A} (s : list A) (xs : list A) : list A :=
  foldl jsset_add s xs.

(** A [Map<K, V>] whose entries are iterated: [get] and [set], the latter
    keeping the position of a key that is already present. *)
Fixpoint jsmap_get `{EqDecision K} {V} (m : list (K * V)) (k : K) : option V :=
  match m with
  | [] => None
  | (k', v) :: m' => if decide (k = k') then Some v else jsmap_get m' k
  end.

Fixpoint jsmap_set `{EqDecision K} {V} (m : list (K * V)) (k : K) (v : V)
  : list (K * V) :=
  match m with
  | [] => [(k, v)]
  | (k', v') :: m' =>
      if decide (k = k') then (k, v) :: m' else (k', v') :: jsmap_set m' k v
  end.

(** [s.toLowerCase()].  Of the code units U+0000 to U+00FF, those with a
    lower case are the letters A to Z (U+0041 to U+005A) and the letters
    U+00C0 to U+00DE without the multiplication sign U+00D7; the lower case
    of each lies 32 places up and within the range.  The remaining code
    units, the sharp s (U+00DF) and the micro sign (U+00B5) among them, are
    their own lower case, and none of the context rules of the Unicode
    conversion applies in this range. *)
Definition hasLowerCase (c : ascii) : bool :=
  let n := N_of_ascii c in
  ((65 <=? n) && (n <=? 90) ||
   (192 <=? n) && (n <=? 222) && negb (n =? 215))%N.

Definition toLowerChar (c : ascii) : ascii :=
  if hasLowerCase c then ascii_of_N (N_of_ascii c + 32) else c.

Fixpoint toLowerCase (s : string) : string :=
  match s with
  | EmptyString => EmptyString
  | String c s' => String (toLowerChar c) (toLowerCase s')
  end.

(** [s.includes(sub)]. *)
Fixpoint includes (s sub : string) : bool :=
  String.prefix sub s ||
  match s with
  | EmptyString => false
  | String _ s' => includes s' sub
  end.

(** [s.split(sep)] for a one-character separator. *)
Fixpoint split (sep : ascii) (s : string) : list string :=
  match s with
  | EmptyString => [EmptyString]
  | String c s' =>
      if decide (c = sep) then EmptyString :: split sep s'
      else match split sep s' with
           | [] => [String c EmptyString]
           | p :: ps => String c p :: ps
           end
  end.

(** ** Schemas ([src/schemas/index.ts]) *)

Inductive Severity := critical | high | medium | low | info.
Inductive Confidence := confirmed | suspected | needs_review.
Inductive VulnStatus := status_open | status_triaged | status_mitigated | status_closed.

(** [cveSchema]. *)
Record Cvss := {
  baseScore : number;
  vector : option string;
  version : option string;
}.

Record CveRef := {
  cve_id : string;
  cvss : option Cvss;
}.

(** A value of an evidence bag ([Record<string, unknown>]). *)
Inductive EvidenceValue :=
| EvString (s : string)
| EvNumber (n : number)
| EvStrings (l : list string).

(** [vulnerabilitySchema] merged with [baseDocumentSchema]. *)
Record Vulnerability := {
  _id : option string;
  reconId : string;
  source : string;
  scannerFindingId : option string;
  title : string;
  severity : Severity;
  confidence : Confidence;
  category : option string;
  description : option string;
  evidence : option (list (string * EvidenceValue));
  cves : list CveRef;
  remediation : option string;
  status : VulnStatus;
  reportedAt : option string;
  resolvedAt : option string;
  createdAt : string;
  updatedAt : string;
  tags : list string;
}.

(** ** Finding Normalizer ([src/vuln/parse.ts]) *)

Module Parse.

(** An element of [nucleiSchema], after [safeParse]. *)
Record NucleiInfo := {
  ni_name : string;
  ni_severity : option string;
  ni_description : option string;
  ni_reference : option (list string);
  ni_cve : option string;
  ni_tags : option (list string);
  ni_cvss_score : option number;
}.

Record NucleiFinding := {
  nf_templateID : string;
  nf_info : NucleiInfo;
  nf_host : string;
  nf_matched_at : option string;
  nf_request : option string;
  nf_response : option string;
  nf_timestamp : option string;
}.

(** [nmapSchema], after [safeParse]. *)
Record NmapVulner := {
  nv_id : string;
  nv_cvss : option number;
  nv_description : option string;
}.

Record NmapPort := {
  np_port : number;
  np_service : option string;
  np_product : option string;
  np_version : option string;
  np_vulners : option (list NmapVulner);   (* [script?.vulners] *)
}.

Record NmapHost := {
  nh_host : string;
  nh_ports : list NmapPort;
}.

(** The options of both parsers; [raw] is the outcome of [safeParse]:
    [None] when the payload does not validate. *)
Record ParseOptions (Raw : Type) := {
  opt_reconId : string;
  opt_jobId : string;
  opt_raw : option Raw;
}.
Arguments opt_reconId {Raw}.
Arguments opt_jobId {Raw}.
Arguments opt_raw {Raw}.

Record BaseParams := {
  p_reconId : string;
  p_source : string;
  p_title : string;
  p_severity : Severity;
  p_confidence : Confidence;
  p_description : option string;
  p_evidence : option (list (string * EvidenceValue));
  p_cves : option (list CveRef);
  p_category : option string;
  p_remediation : option string;
}.

(** [normalizeSeverity(raw?: string)]. *)
Definition normalizeSeverity (raw : option string) : Severity :=
  let normalized := toLowerCase (default "medium" raw) in
  if decide (normalized = "critical") then critical
  else if decide (normalized = "high") then high
  else if decide (normalized = "medium") then medium
  else if decide (normalized = "low") then low
  else if decide (normalized = "info") then info
  else medium.

(** [severityFromCvss(score?: number)]. *)
Definition severityFromCvss (score : option number) : Severity :=
  match score with
  | None => medium
  | Some score =>
      if number_ge score 9 then critical
      else if number_ge score 7 then high
      else if number_ge score 4 then medium
      else if number_gt score 0 then low
      else info
  end.

(** [pruneEmpty(obj)]: the keys whose value is [undefined], [null] or the
    empty string are deleted. *)
Definition pruneEmpty (obj : list (string * option EvidenceValue))
  : list (string * EvidenceValue) :=
  omap (fun kv : string * option EvidenceValue =>
          match kv.2 with
          | None => None
          | Some (EvString EmptyString) => None
          | Some v => Some (kv.1, v)
          end) obj.

(** [baseVulnerability(params)]; [now] is the clock reading taken by
    [stampMetadata].  [vulnerabilitySchema.parse] accepts every record
    built here and fills the default [cves = []]. *)
Definition baseVulnerability (now : string) (params : BaseParams) : Vulnerability :=
  {| _id := None;
     reconId := p_reconId params;
     source := p_source params;
     scannerFindingId := None;
     title := p_title params;
     severity := p_severity params;
     confidence := p_confidence params;
     category := truthy_or_none (p_category params);
     description := truthy_or_none (p_description params);
     evidence :=
       match p_evidence params with
       | Some ((_ :: _) as ev) => Some ev
       | _ => None
       end;
     cves := default [] (p_cves params);
     remediation := truthy_or_none (p_remediation params);
     status := status_open;
     reportedAt := None;
     resolvedAt := None;
     createdAt := now;
     updatedAt := now;
     tags := [] |}.

Definition cveRecord (id : string) (score : option number) : CveRef :=
  {| cve_id := id;
     cvss := (fun s => {| baseScore := s; vector := None;
                          version := Some "3.x" |}) <$> score |}.

Definition nucleiFinding (now : string) (reconId jobId : string) (finding : NucleiFinding)
  : Vulnerability :=
  let severity := normalizeSeverity (ni_severity (nf_info finding)) in
  let confidence :=
    if truthy (ni_cve (nf_info finding)) then confirmed else needs_review in
  let cves :=
    if truthy (ni_cve (nf_info finding))
    then [cveRecord (default "" (ni_cve (nf_info finding)))
                    (ni_cvss_score (nf_info finding))]
    else [] in
  let evidence := pruneEmpty
    [ ("host", Some (EvString (nf_host finding)));
      ("matchedAt", EvString <$> nf_matched_at finding);
      ("request", EvString <$> nf_request finding);
      ("response", EvString <$> nf_response finding);
      ("templateId", Some (EvString (nf_templateID finding)));
      ("timestamp", EvString <$> nf_timestamp finding);
      ("references", EvStrings <$> ni_reference (nf_info finding));
      ("jobId", Some (EvString jobId)) ] in
  baseVulnerability now
    {| p_reconId := reconId;
       p_source := "nuclei";
       p_title := ni_name (nf_info finding);
       p_severity := severity;
       p_confidence := confidence;
       p_description := truthy_or_none (ni_description (nf_info finding));
       p_evidence := Some evidence;
       p_cves := Some cves;
       p_category :=
         match ni_tags (nf_info finding) with
         | Some ((_ :: _) as tags) => Some (String.concat ", " tags)
         | _ => None
         end;
       p_remediation := None |}.

(** [parseNucleiResults(options)]. *)
Definition parseNucleiResults (clock : nat -> string)
    (options : ParseOptions (list NucleiFinding)) : list Vulnerability :=
  match opt_raw options with
  | None => []
  | Some data =>
      imap (fun i finding =>
              nucleiFinding (clock i) (opt_reconId options) (opt_jobId options) finding)
           data
  end.

Section Nmap.
(** The digits of a port that is not an integer below 2^53, as the template
    literal of the title prints them ([numberToString]). *)
Variable digits : Qc -> string.

Definition nmapFinding (now : string) (reconId jobId host : string)
    (port : NmapPort) (entry : NmapVulner) : Vulnerability :=
  let severity := severityFromCvss (nv_cvss entry) in
  let evidence := pruneEmpty
    [ ("host", Some (EvString host));
      ("port", Some (EvNumber (np_port port)));
      ("service", EvString <$> np_service port);
      ("product", EvString <$> np_product port);
      ("version", EvString <$> np_version port);
      ("jobId", Some (EvString jobId)) ] in
  let category :=
    match np_service port with
    | Some s => Some s
    | None => np_product port
    end in
  baseVulnerability now
    {| p_reconId := reconId;
       p_source := "nmap";
       p_title := nv_id entry +:+ " on port " +:+
                  numberToString digits (np_port port);
       p_severity := severity;
       p_confidence := suspected;
       p_description := truthy_or_none (nv_description entry);
       p_evidence := Some evidence;
       p_cves := Some [cveRecord (nv_id entry) (nv_cvss entry)];
       p_category := truthy_or_none category;
       p_remediation := None |}.

(** [parseNmapVulnerabilities(options)]: one finding per [vulners] entry of
    every port, in order. *)
Definition parseNmapVulnerabilities (clock : nat -> string)
    (options : ParseOptions NmapHost) : list Vulnerability :=
  match opt_raw options with
  | None => []
  | Some data =>
      imap (fun i pe =>
              nmapFinding (clock i) (opt_reconId options) (opt_jobId options)
                (nh_host data) pe.1 pe.2)
           (mbind (fun port =>
                     (fun entry => (port, entry)) <$> default [] (np_vulners port))
                  (nh_ports data))
  end.

End Nmap.

(** The dedup key of [mergeFindings]. *)
Definition findingKey (finding : Vulnerability) : string :=
  reconId finding +:+ ":" +:+ source finding +:+ ":" +:+ title finding.

(** [mergeFindings(...lists)]. *)
Definition mergeFindings (lists : list (list Vulnerability)) : list Vulnerability :=
  (foldl (fun (acc : gset string * list Vulnerability) finding =>
            let key := findingKey finding in
            if decide (key ∈ acc.1) then acc
            else ({[ key ]} ∪ acc.1, acc.2 ++ [finding]))
         (∅, []) (concat lists)).2.

End Parse.

(** ** CVE Correlator (the NVD matcher) *)

Module CveMatcher.

Record CveDetail := {
  detail_id : string;
  detail_baseScore : option number;
  detail_vector : option string;
  cpes : list string;
}.

(** [Map<string, CveDetail>]: looked up by [enrichVulnerabilitiesWithNvd],
    iterated in insertion order by [suggestCvesFromTech]. *)
Definition CveIndex := list (string * CveDetail).

(** [cveItemSchema] and [nvdFeedSchema], after [safeParse]. *)
Record CpeMatch := {
  vulnerable : option bool;
  cpe23Uri : string;
  versionStartIncluding : option string;
  versionEndIncluding : option string;
}.

Record ConfigNode := {
  cpe_match : option (list CpeMatch);
}.

Record Configurations := {
  nodes : option (list ConfigNode);
}.

Record CvssV3 := {
  v3_baseScore : option number;
  vectorString : option string;
}.

Record BaseMetricV3 := {
  cvssV3 : option CvssV3;
}.

Record Impact := {
  baseMetricV3 : option BaseMetricV3;
}.

Record CveItem := {
  item_ID : string;                              (* [cve.CVE_data_meta.ID] *)
  item_description : option (list string);       (* [cve.description] *)
  configurations : option Configurations;
  impact : option Impact;
}.

Record NvdFeed := {
  CVE_Items : list CveItem;
}.

(** The [cpes] array [buildCveIndex] fills for one item: the two nested
    [forEach] loops push the URI of every match flagged [vulnerable]. *)
Definition itemCpes (item : CveItem) : list string :=
  node ← default [] (configurations item ≫= nodes);
  cpe ← default [] (cpe_match node);
  if bool_decide (vulnerable cpe = Some true) then [cpe23Uri cpe] else [].

(** The [detail] object [buildCveIndex] stores for one item. *)
Definition itemDetail (item : CveItem) : CveDetail :=
  let metric := (impact item ≫= baseMetricV3) ≫= cvssV3 in
  {| detail_id := item_ID item;
     detail_baseScore := metric ≫= v3_baseScore;
     detail_vector := truthy_or_none (metric ≫= vectorString);
     cpes := itemCpes item |}.

(** [buildCveIndex(feed)]; [feed] is the answer of [parseNvdFeed]: [None]
    ([null]) when the raw feed does not validate. *)
Definition buildCveIndex (feed : option NvdFeed) : CveIndex :=
  match feed with
  | None => []
  | Some feed =>
      foldl (fun map item => jsmap_set map (item_ID item) (itemDetail item))
            [] (CVE_Items feed)
  end.

(** The callback of [finding.cves.map] in [enrichVulnerabilitiesWithNvd]. *)
Definition enrichEntry (index : CveIndex) (entry : CveRef) : CveRef :=
  match jsmap_get index (cve_id entry) with
  | None => entry
  | Some detail =>
      let baseScore' :=
        match detail_baseScore detail with
        | Some s => Some s
        | None => baseScore <$> cvss entry
        end in
      match baseScore' with
      | None => entry
      | Some s =>
          {| cve_id := cve_id entry;
             cvss := Some
               {| baseScore := s;
                  vector :=
                    match detail_vector detail with
                    | Some v => Some v
                    | None => cvss entry ≫= vector
                    end;
                  version := Some (default "3.x" (cvss entry ≫= version)) |} |}
      end
  end.

Definition enrichFinding (index : CveIndex) (finding : Vulnerability) : Vulnerability :=
  match cves finding with
  | [] => finding
  | _ :: _ =>
      {| _id := _id finding;
         reconId := reconId finding;
         source := source finding;
         scannerFindingId := scannerFindingId finding;
         title := title finding;
         severity := severity finding;
         confidence := confidence finding;
         category := category finding;
         description := description finding;
         evidence := evidence finding;
         cves := enrichEntry index <$> cves finding;
         remediation := remediation finding;
         status := status finding;
         reportedAt := reportedAt finding;
         resolvedAt := resolvedAt finding;
         createdAt := createdAt finding;
         updatedAt := updatedAt finding;
         tags := tags finding |}
  end.

(** [enrichVulnerabilitiesWithNvd(vulns, index)]. *)
Definition enrichVulnerabilitiesWithNvd (vulns : list Vulnerability) (index : CveIndex)
  : list Vulnerability :=
  enrichFinding index <$> vulns.

(** [parseCpe(cpe)]: the vendor and product fields of a formatted CPE
    string; [None] is the [null] answer. *)
Record ParsedCpe := {
  vendor : option string;
  product : option string;
}.

Definition parseCpe (cpe : string) : option ParsedCpe :=
  let parts := split ":" cpe in
  if decide (length parts < 5) then None
  else Some {| vendor := truthy_or_none (parts !! 3);
               product := truthy_or_none (parts !! 4) |}.

Record TechFingerprint := {
  name : string;
  tech_version : option string;
}.

(** [suggestCvesFromTech(tech, index)]: the three nested [forEach] loops
    push their pairs in iteration order. *)
Definition suggestCvesFromTech (tech : list TechFingerprint) (index : CveIndex)
  : list (TechFingerprint * CveDetail) :=
  fingerprint ← tech;
  let normalizedName := toLowerCase (name fingerprint) in
  detail ← index.*2;
  cpe ← cpes detail;
  match parseCpe cpe ≫= product with
  | None => []
  | Some product =>
      if includes normalizedName (toLowerCase product)
      then [(fingerprint, detail)] else []
  end.

End CveMatcher.

(** ** Result Normalizer (the recon normalizer, [normalizeRecon]) *)

Module Recon.

(** The four source payloads, after [safeParse]. *)
Record SubfinderEntry := {
  sf_host : string;
  sf_source : option string;
  sf_ip : option string;      (* optional and nullable *)
}.

Record AmassNode := {
  am_name : string;
  am_addresses : list string; (* the [ip] of each address *)
  am_sources : list string;
  am_tag : option string;
}.

Record HttpxEntry := {
  hx_input : string;
  hx_host : string;
  hx_port : number;
  hx_scheme : string;
  hx_status_code : number;
  hx_title : option string;
  hx_webserver : option string;
  hx_tech : option (list string);
  hx_a : option (list string);
  hx_tls_issuer_dn : option string;
}.

Record StPort := {
  sp_port : number;
  sp_protocol : option string;
  sp_service : option string;
}.

Record StRecord := {
  st_hostname : string;
  st_lastSeen : option string;
  st_asn : option number;
  st_organization : option string;
  st_country : option string;
  st_ports : list StPort;
}.

(** [ReconInputs].  A source field is [Some data] when the raw payload is
    present (truthy) and validates against its schema, [None] otherwise:
    in both other cases the source contributes nothing. *)
Record ReconInputs := {
  targetId : string;
  primaryTarget : string;
  jobId : string;
  subfinder : option (list SubfinderEntry);
  amass : option (list AmassNode);
  httpx : option (list HttpxEntry);
  securitytrails : option (list StRecord);
}.

Record PortInfo := {
  protocol : option string;
  service : option string;
}.

(** [HostEntry]: the accumulator of one host. *)
Record HostEntry := {
  host : string;
  ips : list string;
  ports : list (number * PortInfo);
  tech : list string;
  sources : list string;
  titles : list string;
  webservers : list string;
  liveness : bool;
}.

Definition emptyHost (host : string) : HostEntry :=
  {| host := host; ips := []; ports := []; tech := []; sources := [];
     titles := []; webservers := []; liveness := false |}.

(** [upsertHost(map, host)]: the map, with a fresh record for [host] when
    it had none, and the record of [host]. *)
Definition upsertHost (map : list (string * HostEntry)) (host : string)
  : list (string * HostEntry) * HostEntry :=
  match jsmap_get map host with
  | Some record => (map, record)
  | None => (jsmap_set map host (emptyHost host), emptyHost host)
  end.

(** The record [upsertHost] returns is the object stored in the map: what
    a [forEach] callback does to it is done to the map's entry. *)
Definition withHost (map : list (string * HostEntry)) (host : string)
    (mutate : HostEntry -> HostEntry) : list (string * HostEntry) :=
  let (map', record) := upsertHost map host in
  jsmap_set map' host (mutate record).

(** [ensureArray(value)], used where the schema leaves the array optional
    (it is the identity on the arrays the schema defaults to [[]]). *)
Definition ensureArray {T} (value : option (list T)) : list T := default [] value.

(** [s.add(x)] under [if (x)]. *)
Definition addIfTruthy (s : list string) (prefix : string) (x : option string)
  : list string :=
  match x with
  | Some v => if truthy x then jsset_add s (prefix +:+ v) else s
  | None => s
  end.

(** The body of the subfinder [forEach], on the record of [entry.host]. *)
Definition onSubfinder (entry : SubfinderEntry) (r : HostEntry) : HostEntry :=
  {| host := host r;
     ips := addIfTruthy (ips r) "" (sf_ip entry);
     ports := ports r;
     tech := tech r;
     sources := addIfTruthy (sources r) "subfinder:" (sf_source entry);
     titles := titles r;
     webservers := webservers r;
     liveness := liveness r |}.

(** The body of the amass [forEach]. *)
Definition onAmass (node : AmassNode) (r : HostEntry) : HostEntry :=
  {| host := host r;
     ips := jsset_add_all (ips r) (am_addresses node);
     ports := ports r;
     tech := tech r;
     sources := jsset_add_all (sources r)
                  ((fun src => "amass:" +:+ src) <$> am_sources node);
     titles := titles r;
     webservers := webservers r;
     liveness := liveness r |}.

(** The body of the httpx [forEach]. *)
Definition onHttpx (entry : HttpxEntry) (r : HostEntry) : HostEntry :=
  let portInfo := default {| protocol := None; service := None |}
                          (jsmap_get (ports r) (hx_port entry)) in
  let portInfo :=
    {| protocol := Some (default "tcp" (protocol portInfo));
       service := Some (default (hx_scheme entry) (service portInfo)) |} in
  {| host := host r;
     ips := jsset_add_all (ips r) (ensureArray (hx_a entry));
     ports := jsmap_set (ports r) (hx_port entry) portInfo;
     tech := jsset_add_all (tech r) (ensureArray (hx_tech entry));
     sources := sources r;
     titles := addIfTruthy (titles r) "" (hx_title entry);
     webservers := addIfTruthy (webservers r) "" (hx_webserver entry);
     liveness := liveness r || number_lt (hx_status_code entry) 500 |}.

(** The body of the inner [forEach] over the ports of a securitytrails
    record. *)
Definition onStPort (ports : list (number * PortInfo)) (p : StPort)
  : list (number * PortInfo) :=
  let info := default {| protocol := None; service := None |}
                      (jsmap_get ports (sp_port p)) in
  let info :=
    if truthy (sp_protocol p)
    then {| protocol := match protocol info with
                        | Some x => Some x
                        | None => sp_protocol p
                        end;
            service := service info |}
    else info in
  let info :=
    if truthy (sp_service p)
    then {| protocol := protocol info;
            service := match service info with
                       | Some x => Some x
                       | None => sp_service p
                       end |}
    else info in
  jsmap_set ports (sp_port p) info.

(** What the securitytrails [forEach] does to the record of
    [record.hostname]. *)
Definition onSecuritytrails (record : StRecord) (r : HostEntry) : HostEntry :=
  {| host := host r;
     ips := ips r;
     ports := foldl onStPort (ports r) (st_ports record);
     tech := tech r;
     sources := addIfTruthy (sources r) "securitytrails:" (st_organization record);
     titles := titles r;
     webservers := webservers r;
     liveness := liveness r |}.

(** The local state of [normalizeRecon] while the sources are read. *)
Record Acc := {
  hostMap : list (string * HostEntry);
  sourcesMeta : list string;
  countryByHost : gmap string string;
}.

(** One [if (inputs.x) { ... }] block: nothing when the source is absent or
    invalid; otherwise its name goes to [sourcesMeta] and every entry is
    processed. *)
Definition readSource {T} (name : string) (data : option (list T))
    (process : Acc -> T -> Acc) (acc : Acc) : Acc :=
  match data with
  | None => acc
  | Some data =>
      foldl process
        {| hostMap := hostMap acc;
           sourcesMeta := sourcesMeta acc ++ [name];
           countryByHost := countryByHost acc |}
        data
  end.

Definition onHost {T} (key : T -> string) (mutate : T -> HostEntry -> HostEntry)
    (acc : Acc) (x : T) : Acc :=
  {| hostMap := withHost (hostMap acc) (key x) (mutate x);
     sourcesMeta := sourcesMeta acc;
     countryByHost := countryByHost acc |}.

Definition processSecuritytrails (acc : Acc) (record : StRecord) : Acc :=
  {| hostMap := withHost (hostMap acc) (st_hostname record) (onSecuritytrails record);
     sourcesMeta := sourcesMeta acc;
     countryByHost :=
       match st_country record with
       | Some country =>
           if truthy (st_country record)
           then <[ st_hostname record := country ]> (countryByHost acc)
           else countryByHost acc
       | None => countryByHost acc
       end |}.

(** The first half of [normalizeRecon]: the four sources, in order. *)
Definition accumulate (inputs : ReconInputs) : Acc :=
  readSource "securitytrails" (securitytrails inputs) processSecuritytrails
    (readSource "httpx" (httpx inputs) (onHost hx_host onHttpx)
       (readSource "amass" (amass inputs) (onHost am_name onAmass)
          (readSource "subfinder" (subfinder inputs) (onHost sf_host onSubfinder)
             {| hostMap := []; sourcesMeta := []; countryByHost := ∅ |}))).

(** [reconResultSchema] without [_id], merged with [baseDocumentSchema]. *)
Record Port := {
  port : number;
  port_protocol : string;
  port_service : option string;
}.

Record Fingerprints := {
  fp_titles : list string;
  fp_webservers : list string;
  fp_country : option string;
}.

Record Source := {
  tool : string;
  runId : string;
  contributors : list string;   (* [details.contributors] *)
  pipeline : list string;       (* [details.pipeline] *)
}.

Record ReconResult := {
  rr_targetId : string;
  subdomain : option string;
  ip : option string;
  rr_ports : list Port;
  rr_tech : list string;         (* the [name] of each technology *)
  fingerprints : Fingerprints;
  rr_sources : list Source;
  isAlive : bool;
  lastChecked : string;
  createdAt : string;
  updatedAt : string;
  tags : list string;
}.

(** [portSchema]: an integer port in 1..65535 and a protocol of
    [serviceProtocols]. *)
Definition validPort (p : Port) : bool :=
  integerBetween 1 65535 (port p) &&
  (bool_decide (port_protocol p = "tcp") || bool_decide (port_protocol p = "udp")).

(** The body of [hostMap.forEach]: the record of one host.  [now] is the
    reading taken at the start of [normalizeRecon], [stamp] the one taken by
    [stampMetadata]; [None] when [reconResultBase.parse] throws. *)
Definition emit (inputs : ReconInputs) (acc : Acc) (now stamp : string)
    (entry : HostEntry) : option ReconResult :=
  let ports :=
    (fun pd : number * PortInfo =>
       {| port := pd.1;
          port_protocol := default "tcp" (protocol pd.2);
          port_service := service pd.2 |}) <$> ports entry in
  if forallb validPort ports then
    Some {| rr_targetId := targetId inputs;
            subdomain := Some (host entry);
            ip := head (ips entry);
            rr_ports := ports;
            rr_tech := tech entry;
            fingerprints :=
              {| fp_titles := titles entry;
                 fp_webservers := webservers entry;
                 fp_country := truthy_or_none (countryByHost acc !! host entry) |};
            rr_sources :=
              [{| tool := "recon-normalize";
                  runId := jobId inputs;
                  contributors := sources entry;
                  pipeline := sourcesMeta acc |}];
            isAlive := liveness entry;
            lastChecked := now;
            createdAt := stamp;
            updatedAt := stamp;
            tags := [] |}
  else None.

(** [normalizeRecon(inputs)]: [None] when it throws. *)
Definition normalizeRecon (clock : nat -> string) (inputs : ReconInputs)
  : option (list ReconResult) :=
  let acc := accumulate inputs in
  let now := clock 0 in
  mapM id (imap (fun i kv => emit inputs acc now (clock (S i)) kv.2) (hostMap acc)).

End Recon.

(** ** Task Scheduler ([runParallelAttacks], [runParallelRecon])

    Both worker pools are the same code up to the job they run
    ([runAttackJob], [runReconJob]), the stagger (100 ms, 200 ms) and the
    name of the progress counter ([successful], [totalHosts]).  JavaScript
    runs them on one thread: between two [await]s nothing else runs.  The
    model is the transition system whose transitions are the three kinds of
    callbacks the event loop can run next:

    - [Timer i]: the [setTimeout] of the i-th initial worker fires and its
      job starts (timers fire in the order of their delays [i * stagger]);
    - [Settle i]: the job of worker [i] settles and the [.then]/[.catch]
      handler of the worker runs;
    - [Race i]: [Promise.race] has resolved with the index [i] of a settled
      worker and the [while] loop body replaces that entry of [workers] by a
      worker for the next item.

    [Promise.race] answers with a settled worker; which one, when several
    are settled, is left open here.  An item handed to the pool is an
    object, hence truthy: the [if (!target) continue] of [runParallelRecon]
    never fires. *)

Module Scheduler.

Section Pool.
Context {Item : Type}.
(** How the job of an item settles: [Some r] fulfils with [r], [None]
    rejects. *)
Variable operation : Item -> option Z.
(** [reconDocs] / [targets]. *)
Variable items : list Item.
Variable maxConcurrent : Z.

(** An entry of the [workers] array. *)
Inductive worker :=
| Sleeping (item : Item)   (* waiting for its stagger delay *)
| Running (item : Item)    (* the job is in flight *)
| Settled (value : Z).     (* the worker promise is fulfilled with [value] *)

Record state := {
  workers : list worker;
  currentIndex : nat;
  completed : nat;
  successful : Z;
}.

Inductive event := Timer (i : nat) | Settle (i : nat) | Race (i : nat).

Definition is_sleeping (w : worker) : bool :=
  match w with Sleeping _ => true | _ => false end.
Definition is_running (w : worker) : bool :=
  match w with Running _ => true | _ => false end.
Definition is_settled (w : worker) : bool :=
  match w with Settled _ => true | _ => false end.

(** The state after the [for] loop that starts the initial batch. *)
Definition initial : state :=
  let n := Z.to_nat (Z.min maxConcurrent (Z.of_nat (length items))) in
  {| workers := Sleeping <$> take n items;
     currentIndex := n;
     completed := 0;
     successful := 0 |}.

(** The [.then(result => ...)] and [.catch(error => ...)] handlers. *)
Definition settle (s : state) (i : nat) (item : Item) : state :=
  match operation item with
  | Some result =>
      {| workers := <[i := Settled result]> (workers s);
         currentIndex := currentIndex s;
         completed := S (completed s);
         successful := successful s + result |}
  | None =>
      {| workers := <[i := Settled 0]> (workers s);
         currentIndex := currentIndex s;
         completed := S (completed s);
         successful := successful s |}
  end.

Definition step (s : state) (e : event) : option state :=
  match e with
  | Timer i =>
      match workers s !! i with
      | Some (Sleeping item) =>
          if forallb (fun w => negb (is_sleeping w)) (take i (workers s))
          then Some {| workers := <[i := Running item]> (workers s);
                       currentIndex := currentIndex s;
                       completed := completed s;
                       successful := successful s |}
          else None
      | _ => None
      end
  | Settle i =>
      match workers s !! i with
      | Some (Running item) => Some (settle s i item)
      | _ => None
      end
  | Race i =>
      match workers s !! i, items !! currentIndex s with
      | Some (Settled _), Some item =>
          Some {| workers := <[i := Running item]> (workers s);
                  currentIndex := S (currentIndex s);
                  completed := completed s;
                  successful := successful s |}
      | _, _ => None
      end
  end.

(** A run of the event loop from state [s]. *)
Fixpoint exec (s : state) (evs : list event) : option state :=
  match evs with
  | [] => Some s
  | e :: evs => step s e ≫= fun s' => exec s' evs
  end.

(** The value the pool returns: the [while] loop has ended,
    [Promise.allSettled(workers)] has resolved, and the values of the
    entries of [workers] are summed. *)
Definition finalResult (s : state) : option Z :=
  if decide (currentIndex s < length items) then None
  else if forallb is_settled (workers s)
       then Some (foldl (fun sum w =>
                           sum + match w with Settled v => v | _ => 0 end)
                        0 (workers s))%Z
       else None.

(** The number of jobs in flight. *)
Definition inFlight (s : state) : nat :=
  length (filter (fun w => is_running w = true) (workers s)).

(** The sum of what the jobs of all items produce, a rejected job
    counting as zero. *)
Definition totalOfAll : Z :=
  foldr Z.add 0%Z ((fun item => default 0%Z (operation item)) <$> items).

(** Callbacks still to run: two for an item that has not started, one
    for a job in flight. *)
Definition weight (w : worker) : nat :=
  match w with Sleeping _ => 2 | Running _ => 1 | Settled _ => 0 end.
Definition pending (w : worker) : nat :=
  match w with Settled _ => 0 | _ => 1 end.
Definition potential (s : state) : nat :=
  2 * (length items - currentIndex s) + sum_list (weight <$> workers s).

(** What every reachable state satisfies: the [workers] array keeps its
    length, and every item handed out so far has either settled (and
    was counted) or still occupies an entry. *)
Definition pool_inv (s : state) : Prop :=
  length (workers s) = Z.to_nat (Z.min maxConcurrent (Z.of_nat (length items))) /\
  currentIndex s <= length items /\
  completed s + sum_list (pending <$> workers s) = currentIndex s.

(** A worker that is dealing with [item], or has settled with what the
    job of [item] produces. *)
Definition runs_item (w : worker) (item : Item) : Prop :=
  w = Sleeping item \/ w = Running item \/
  w = Settled (default 0%Z (operation item)).
End Pool.

End Scheduler.

(** ** The recon command line ([src/cli/recon.ts]) *)

Module ReconCli.

(** [value.replace(re, by)] for a global regular expression [re] that is a
    character class: every character of the class is replaced. *)
Fixpoint replaceChars (class : ascii -> bool) (by_ : ascii) (value : string) : string :=
  match value with
  | EmptyString => EmptyString
  | String c rest =>
      String (if class c then by_ else c) (replaceChars class by_ rest)
  end.

(** The class of the first expression of [sanitizeFilename]: star, question
    mark, double quote, angle brackets and bar. *)
Definition reservedChar (c : ascii) : bool :=
  bool_decide (c ∈ ["*"; "?"; "034"; "<"; ">"; "|"]%char).

(** The class of the second expression: slash and backslash. *)
Definition separatorChar (c : ascii) : bool :=
  bool_decide (c ∈ ["/"; "092"]%char).

(** [sanitizeFilename(value)] of [runReconJob]. *)
Definition sanitizeFilename (value : string) : string :=
  replaceChars separatorChar "_" (replaceChars reservedChar "_" value).

(** The white space [trim()] removes, among the characters of an 8-bit
    alphabet: tab, line feed, vertical tab, form feed, carriage return,
    space and no-break space. *)
Definition isWhiteSpace (c : ascii) : bool :=
  bool_decide (N_of_ascii c ∈ [9; 10; 11; 12; 13; 32; 160]%N).

(** [line.trim()] as a condition: some character is not white space. *)
Definition nonBlank (line : string) : bool :=
  existsb (fun c => negb (isWhiteSpace c)) (list_ascii_of_string line).

(** The [stdout] handler of [runSubfinder] and [runAmass] on one chunk of
    output: the lines of the chunk that are not blank. *)
Definition chunkLines (data : string) : list string :=
  filter (fun line => nonBlank line = true) (split "010" data).

(** The array [subdomains] when the process closes, after the handler has
    run on each chunk in turn. *)
Definition collectLines (chunks : list string) : list string :=
  chunks ≫= chunkLines.

(** [maxConcurrent] as [main] computes it from the number of CPU cores. *)
Definition maxConcurrent (cpuCores : Z) : Z := Z.min 15 (Z.max 3 cpuCores).

(** [TargetDoc]. *)
Record TargetDoc := {
  td_id : string;
  td_program : string;
  td_assetType : string;
  td_assetValue : string;
  td_status : string;
}.

Section ReconJob.
(** A result line of httpx, parsed, and a document of
    [normalizedResults]. *)
Context {Host Doc : Type}.
(** [join(config.reconRawDir, jobId)]. *)
Variable rawDirOf : string -> string.
(** [runTechDetection] followed by [aliveHosts.map(...)]: the documents to
    store, one per host, or [None] when [new URL(host.url)] throws. *)
Variable normalizedResults : TargetDoc -> string -> list Host -> option (list Doc).

(** What [runReconJob] does to the outside world. *)
Inductive Effect :=
| EnsureDir (dir : string)
| SpawnSubfinder (domain outputDir safeName : string)
| SpawnHttpx (subdomains : list string) (outputDir safeName : string)
| InsertMany (docs : list Doc)
| UpdateTarget (id : string).


End ReconJob.

End ReconCli.

(** ** The attack command line *)

Module Attacks.

(** The severity [performNucleiAttacks] gives a result line: the [switch]
    on [result.info?.severity?.toLowerCase()]. *)
Definition attackSeverity (raw : option string) : Severity :=
  match raw with
  | None => info
  | Some raw =>
      let label := toLowerCase raw in
      if decide (label = "critical") then critical
      else if decide (label = "high") then high
      else if decide (label = "medium") then medium
      else if decide (label = "low") then low
      else info
  end.

(** Its confidence, from [result.info?.classification?.cvss_score]. *)
Definition attackConfidence (score : option number) : Confidence :=
  match score with
  | None => suspected
  | Some score =>
      if number_ge score 7 then confirmed
      else if number_ge score 4 then suspected
      else suspected
  end.

(** [maxConcurrent] as [main] computes it from the number of CPU cores. *)
Definition maxConcurrent (cpuCores : Z) : Z := Z.min 20 (Z.max 5 (cpuCores * 2)).

(** The six attack phases, in the order in which [runAttackJob] starts
    them. *)
Inductive Phase := General | Xss | PathDiscovery | AuthBypass | Ssrf | Injection.

Definition phases : list Phase :=
  [General; Xss; PathDiscovery; AuthBypass; Ssrf; Injection].

(** How a job ends: its promise is fulfilled with a number, or rejected. *)
Inductive Outcome := Resolved (n : Z) | Rejected.

Section Documents.
(** The identifiers of the database. *)
Context {ObjectId : Type}.

(** A value the jobs hand to [new ObjectId(...)].  [recon.targetId] is
    what [runReconJob] stored of [target._id] ([ObjectId | string]): an
    identifier or a string. *)
Inductive IdValue := IdObject (id : ObjectId) | IdString (s : string).

(** What the jobs read of a [recon_results] document and of a [targets]
    document. *)
Record ReconDoc := {
  rd_subdomain : option string;
  rd_ip : option string;
  rd_targetId : IdValue;
}.

Record TargetDoc := {
  td_program : option string;
  td_assetValue : option string;
}.

(** [s.startsWith(prefix)]. *)
Definition startsWith (s prefix : string) : bool := String.prefix prefix s.

(** The guard of [runAttackJob] and [runVulnJob], negated: the target
    exists and its program is one of a bug bounty platform. *)
Definition eligible (target : option TargetDoc) : bool :=
  match target with
  | None => false
  | Some target =>
      match td_program target with
      | None => false
      | Some program =>
          truthy (Some program) &&
          (startsWith program "bugcrowd:" || startsWith program "hackerone:" ||
           startsWith program "intigriti:")
      end
  end.

(** [recon?.subdomain || recon?.ip || 'unknown']. *)
Definition reconHost (recon : option ReconDoc) : string :=
  match truthy_or_none (recon ≫= rd_subdomain) with
  | Some subdomain => subdomain
  | None => default "unknown" (truthy_or_none (recon ≫= rd_ip))
  end.

(** [new ObjectId(s)] for a string [s], a constructor of the database
    driver: [None] when it throws, which it does unless [s] is the text of
    an identifier. *)
Variable newObjectId : string -> option ObjectId.

(** [new ObjectId(v)]: an identifier is taken as it is. *)
Definition objectIdOf (v : IdValue) : option ObjectId :=
  match v with
  | IdObject id => Some id
  | IdString s => newObjectId s
  end.

(** The head of [runAttackJob] and of [runVulnJob], which stands outside
    their [try]: [ensureDir], then the [findOne] of the recon document
    under [new ObjectId(reconId)], then, when there is such a document, the
    [findOne] of its target under [new ObjectId(recon.targetId)].  The
    answer is the pair of [recon] and [target] ([None] for [null]), or
    [None] when one of these steps throws or rejects, and the job with it.
    [dirOk] tells whether the directory can be made; a [findOne] answers
    [None] when it rejects and [Some None] when it finds nothing. *)
Definition lookup (dirOk : bool)
    (reconOf : ObjectId -> option (option ReconDoc))
    (targetOf : ObjectId -> option (option TargetDoc))
    (reconId : string) : option (option ReconDoc * option TargetDoc) :=
  if dirOk then
    id ← newObjectId reconId;
    recon ← reconOf id;
    target ← match recon with
             | Some doc => objectIdOf (rd_targetId doc) ≫= targetOf
             | None => Some None
             end;
    Some (recon, target)
  else None.

End Documents.

Arguments IdValue : clear implicits.
Arguments ReconDoc : clear implicits.

Section AttackJob.
(** An [AttackResult], as a phase produces it. *)
Context {AttackResult ObjectId : Type}.
(** [join(config.vulnRawDir, jobId)]. *)
Variable rawDirOf : string -> string.
Variable newObjectId : string -> option ObjectId.

(** A document of [enrichedAttacks]. *)
Record StoredAttack := {
  sa_attack : AttackResult;          (* [...attack] *)
  sa_cves : list CveRef;
  sa_createdAt : string;
  sa_updatedAt : string;
  sa_status : VulnStatus;
  sa_tags : list string;
}.

(** What [runAttackJob] does to the outside world. *)
Inductive Effect :=
| EnsureDir (dir : string)
| SpawnNuclei (phase : Phase) (target outputDir reconId jobId : string)
| InsertMany (docs : list StoredAttack)
| Notify (doc : StoredAttack) (host : string).

(** [allAttacks.map(attack => ({ ...attack, cves: [], ... }))]; the clock
    is read twice per document. *)
Definition enrichAttacks (clock : nat -> string) (allAttacks : list AttackResult)
  : list StoredAttack :=
  imap (fun i attack =>
          {| sa_attack := attack;
             sa_cves := [];
             sa_createdAt := clock (2 * i);
             sa_updatedAt := clock (2 * i + 1);
             sa_status := status_open;
             sa_tags := ["attack-phase"] |}) allAttacks.

(** [runAttackJob(db, jobId, reconId)]: how it ends and what it did, in
    order.  The database is read through [reconOf] and [targetOf] (the two
    [findOne], see [lookup]); [found] is what the nuclei run of each phase
    reports (a phase never rejects); [insertOk] tells whether [insertMany]
    succeeds.  From the [try] on nothing rejects the job. *)
Definition runAttackJob (clock : nat -> string) (dirOk : bool)
    (reconOf : ObjectId -> option (option (ReconDoc ObjectId)))
    (targetOf : ObjectId -> option (option TargetDoc))
    (found : Phase -> list AttackResult) (insertOk : bool)
    (jobId reconId : string) : Outcome * list Effect :=
  let rawDir := rawDirOf jobId in
  match lookup newObjectId dirOk reconOf targetOf reconId with
  | None => (Rejected, [EnsureDir rawDir])
  | Some (recon, target) =>
      if negb (eligible target) then (Resolved 0, [EnsureDir rawDir])
      else
        let targetUrl := "http://" +:+ reconHost recon in
        let spawned :=
          (fun phase => SpawnNuclei phase targetUrl rawDir reconId jobId) <$> phases in
        let allAttacks := phases ≫= found in
        let totalAttacks := Z.of_nat (length allAttacks) in
        match allAttacks with
        | [] => (Resolved totalAttacks, EnsureDir rawDir :: spawned)
        | _ :: _ =>
            let enrichedAttacks := enrichAttacks clock allAttacks in
            (Resolved totalAttacks,
             EnsureDir rawDir :: spawned ++ [InsertMany enrichedAttacks] ++
             (if insertOk
              then (fun attack => Notify attack (reconHost recon)) <$> enrichedAttacks
              else []))
        end
  end.

End AttackJob.

End Attacks.

(** ** The vulnerability scanner command line ([src/cli/vuln.ts]) *)

Module VulnCli.

Section VulnJob.
(** A result line of nuclei, parsed. *)
Context {Finding ObjectId : Type}.
(** [join(config.vulnRawDir, jobId)]. *)
Variable rawDirOf : string -> string.
Variable newObjectId : string -> option ObjectId.

(** A document of [enrichedFindings]. *)
Record StoredFinding := {
  sf_finding : Finding;              (* [...finding] *)
  sf_reconId : string;
  sf_jobId : string;
  sf_createdAt : string;
  sf_updatedAt : string;
  sf_status : VulnStatus;
  sf_tags : list string;
}.

Inductive Effect :=
| EnsureDir (dir : string)
| SpawnNuclei (target outputDir reconId : string)
| InsertMany (docs : list StoredFinding)
| Notify (doc : StoredFinding) (host : string).

(** [allFindings.map(finding => ({ ...finding, reconId, jobId, ... }))]. *)
Definition enrichFindings (clock : nat -> string) (jobId reconId : string)
    (allFindings : list Finding) : list StoredFinding :=
  imap (fun i finding =>
          {| sf_finding := finding;
             sf_reconId := reconId;
             sf_jobId := jobId;
             sf_createdAt := clock (2 * i);
             sf_updatedAt := clock (2 * i + 1);
             sf_status := status_open;
             sf_tags := [] |}) allFindings.

(** [runVulnJob(db, jobId, reconId)]; its head is that of [runAttackJob]
    ([Attacks.lookup]) and [found] is what [runNuclei] resolves with. *)
Definition runVulnJob (clock : nat -> string) (dirOk : bool)
    (reconOf : ObjectId -> option (option (Attacks.ReconDoc ObjectId)))
    (targetOf : ObjectId -> option (option Attacks.TargetDoc))
    (found : list Finding) (insertOk : bool)
    (jobId reconId : string) : Attacks.Outcome * list Effect :=
  let rawDir := rawDirOf jobId in
  match Attacks.lookup newObjectId dirOk reconOf targetOf reconId with
  | None => (Attacks.Rejected, [EnsureDir rawDir])
  | Some (recon, target) =>
      if negb (Attacks.eligible target) then (Attacks.Resolved 0, [EnsureDir rawDir])
      else
        let reconHost := Attacks.reconHost recon in
        let vulnerabilities := Z.of_nat (length found) in
        let spawned := [EnsureDir rawDir; SpawnNuclei reconHost rawDir reconId] in
        match found with
        | [] => (Attacks.Resolved vulnerabilities, spawned)
        | _ :: _ =>
            let enrichedFindings := enrichFindings clock jobId reconId found in
            (Attacks.Resolved vulnerabilities,
             spawned ++ [InsertMany enrichedFindings] ++
             (if insertOk
              then (fun finding => Notify finding reconHost) <$> enrichedFindings
              else []))
        end
  end.

End VulnJob.

End VulnCli.

(** A batch of two hosts whose attack jobs find 5 and 7 results, run by a
    pool of one worker. *)
Definition twoHosts : list string := ["h1"; "h2"].
Definition twoHostsJob (host : string) : option Z :=
  if decide (host = "h1") then Some 5%Z else Some 7%Z.

(** The states that pool goes through. *)
Definition twoHostsTrace : list (@Scheduler.state string) :=
  [ {| Scheduler.workers := [Scheduler.Sleeping "h1"];
       Scheduler.currentIndex := 1; Scheduler.completed := 0;
       Scheduler.successful := 0 |};
    {| Scheduler.workers := [Scheduler.Running "h1"];
       Scheduler.currentIndex := 1; Scheduler.completed := 0;
       Scheduler.successful := 0 |};
    {| Scheduler.workers := [Scheduler.Settled 5];
       Scheduler.currentIndex := 1; Scheduler.completed := 1;
       Scheduler.successful := 5 |};
    {| Scheduler.workers := [Scheduler.Running "h2"];
       Scheduler.currentIndex := 2; Scheduler.completed := 1;
       Scheduler.successful := 5 |};
    {| Scheduler.workers := [Scheduler.Settled 7];
       Scheduler.currentIndex := 2; Scheduler.completed := 2;
       Scheduler.successful := 12 |} ].

(** A batch of three targets, the second of which makes its job throw, run
    by a pool of two workers. *)
Definition threeTargets : list string := ["t1"; "t2"; "t3"].
Definition flakyJob (target : string) : option Z :=
  if decide (target = "t2") then None
  else if decide (target = "t1") then Some 4%Z else Some 6%Z.

(** ** Auxiliary definitions used to state the properties *)

(** The number [x] lies below the rational [k]: a finite number below it,
    or minus infinity. *)
Definition isBelow (x : number) (k : Q) : Prop :=
  match x with
  | Num q => (q < k)%Q
  | NegInfinity => True
  | PosInfinity | NaN => False
  end.

(** What [mergeFindings] keeps of a list, given the keys already seen. *)
Fixpoint keepFirst (seen : gset string) (l : list Vulnerability) : list Vulnerability :=
  match l with
  | [] => []
  | finding :: l' =>
      if decide (Parse.findingKey finding ∈ seen) then keepFirst seen l'
      else finding :: keepFirst ({[ Parse.findingKey finding ]} ∪ seen) l'
  end.

(** Two findings that agree on every field but [cves]. *)
Definition sameFrame (f g : Vulnerability) : Prop :=
  _id f = _id g /\ reconId f = reconId g /\ source f = source g /\
  scannerFindingId f = scannerFindingId g /\ title f = title g /\
  severity f = severity g /\ confidence f = confidence g /\
  category f = category g /\ description f = description g /\
  evidence f = evidence g /\ remediation f = remediation g /\
  status f = status g /\ reportedAt f = reportedAt g /\
  resolvedAt f = resolvedAt g /\ createdAt f = createdAt g /\
  updatedAt f = updatedAt g /\ tags f = tags g.

(** A finding with the given dedup fields and CVE references, everything
    else as [baseVulnerability] leaves it. *)
Definition sampleFinding (r s t : string) (refs : list CveRef) : Vulnerability :=
  Parse.baseVulnerability "2026-01-01T00:00:00.000Z"
    {| Parse.p_reconId := r; Parse.p_source := s; Parse.p_title := t;
       Parse.p_severity := high; Parse.p_confidence := suspected;
       Parse.p_description := None; Parse.p_evidence := None;
       Parse.p_cves := Some refs; Parse.p_category := None;
       Parse.p_remediation := None |}.

(** The reference and the index entry of the counterexample to C5: the
    index knows the identifier, carries a vector, and has no base score. *)
Definition scoredRef : CveRef :=
  {| cve_id := "CVE-2024-0002";
     cvss := Some {| baseScore := num 5; vector := None; version := None |} |}.

Definition vectorOnlyIndex : CveMatcher.CveIndex :=
  [("CVE-2024-0002",
    {| CveMatcher.detail_id := "CVE-2024-0002";
       CveMatcher.detail_baseScore := None;
       CveMatcher.detail_vector := Some "CVSS:3.1/AV:N/AC:L";
       CveMatcher.cpes := [] |})].

(** An nmap report of one port with one [vulners] entry that names a CVE. *)
Definition nmapCveReport : Parse.ParseOptions Parse.NmapHost :=
  {| Parse.opt_reconId := "r1";
     Parse.opt_jobId := "job-1";
     Parse.opt_raw := Some
       {| Parse.nh_host := "foo.bar";
          Parse.nh_ports :=
            [{| Parse.np_port := num 443;
                Parse.np_service := Some "https";
                Parse.np_product := None;
                Parse.np_version := None;
                Parse.np_vulners := Some
                  [{| Parse.nv_id := "CVE-2021-41773";
                      Parse.nv_cvss := Some (num (75 # 10));
                      Parse.nv_description := None |}] |}] |} |}.

(** The nuclei payload of the vulnerability fixture check, cut down to one
    record. *)
Definition nucleiReport : Parse.ParseOptions (list Parse.NucleiFinding) :=
  {| Parse.opt_reconId := "r1";
     Parse.opt_jobId := "job-1";
     Parse.opt_raw := Some
       [{| Parse.nf_templateID := "example-rce";
           Parse.nf_info :=
             {| Parse.ni_name := "Example RCE";
                Parse.ni_severity := Some "critical";
                Parse.ni_description := None;
                Parse.ni_reference := None;
                Parse.ni_cve := Some "CVE-2024-0001";
                Parse.ni_tags := None;
                Parse.ni_cvss_score := Some (num (98 # 10)) |};
           Parse.nf_host := "foo.bar";
           Parse.nf_matched_at := None;
           Parse.nf_request := None;
           Parse.nf_response := None;
           Parse.nf_timestamp := None |}] |}.


(** The product token [suggestCvesFromTech] reads from a CPE string:
    [parseCpe(cpe)?.product]. *)
Definition productToken (cpe : string) : option string :=
  CveMatcher.parseCpe cpe ≫= CveMatcher.product.

(** Case-insensitive comparison, in terms of the code units alone.  [u] is
    an upper-case letter of the Latin-1 range (A to Z, or U+00C0 to U+00DE
    other than U+00D7) and [l] the lower-case letter that goes with it. *)
Definition upperCaseOf (u l : ascii) : Prop :=
  let n := N_of_ascii u in
  ((65 <= n <= 90) \/ (192 <= n <= 214) \/ (216 <= n <= 222))%N /\
  N_of_ascii l = (n + 32)%N.

(** The same character, or the two cases of one letter. *)
Definition sameLetter (c d : ascii) : Prop :=
  c = d \/ upperCaseOf c d \/ upperCaseOf d c.

(** Two strings that are equal up to the case of their letters. *)
Fixpoint equalIgnoringCase (s t : string) : Prop :=
  match s, t with
  | EmptyString, EmptyString => True
  | String c s', String d t' => sameLetter c d /\ equalIgnoringCase s' t'
  | _, _ => False
  end.

(** [sub] is a case-insensitive substring of [s]: some stretch of [s]
    equals [sub] up to case. *)
Definition containsIgnoringCase (s sub : string) : Prop :=
  exists a m b, s = a +:+ m +:+ b /\ equalIgnoringCase m sub.

(** The name [CAFE Server] and the product token [cafe], both with the
    letter e acute (U+00C9 in upper case, U+00E9 in lower case) for their
    fourth letter. *)
Definition cafeServer : string := "CAF" +:+ String "201" " Server".
Definition cafeToken : string := "caf" +:+ String "233" "".

(** The items of a parsed feed, none for [null]. *)
Definition feedItems (feed : option CveMatcher.NvdFeed) : list CveMatcher.CveItem :=
  default [] (CveMatcher.CVE_Items <$> feed).

(** The items of a feed that carry the identifier [id], in feed order. *)
Definition itemsWithId (id : string) (feed : option CveMatcher.NvdFeed)
  : list CveMatcher.CveItem :=
  filter (fun item => CveMatcher.item_ID item = id) (feedItems feed).

(** A match of [item] that is flagged vulnerable. *)
Definition vulnerableMatch (item : CveMatcher.CveItem) (m : CveMatcher.CpeMatch) : Prop :=
  exists cfg ns node ms,
    CveMatcher.configurations item = Some cfg /\ CveMatcher.nodes cfg = Some ns /\
    node ∈ ns /\ CveMatcher.cpe_match node = Some ms /\ m ∈ ms /\
    CveMatcher.vulnerable m = Some true.

(** The data of a source, empty when the source is absent or invalid. *)
Definition subfinderData (inputs : Recon.ReconInputs) : list Recon.SubfinderEntry :=
  default [] (Recon.subfinder inputs).
Definition amassData (inputs : Recon.ReconInputs) : list Recon.AmassNode :=
  default [] (Recon.amass inputs).
Definition httpxData (inputs : Recon.ReconInputs) : list Recon.HttpxEntry :=
  default [] (Recon.httpx inputs).
Definition securitytrailsData (inputs : Recon.ReconInputs) : list Recon.StRecord :=
  default [] (Recon.securitytrails inputs).

(** The non-empty countries securitytrails reports for host [h], in the
    order of its records. *)
Definition countriesFor (h : string) (records : list Recon.StRecord) : list string :=
  omap (fun r => if decide (Recon.st_hostname r = h)
                 then truthy_or_none (Recon.st_country r) else None) records.

(** The record of [h] in the host map, a fresh one when it has none. *)
Definition entryOf (m : list (string * Recon.HostEntry)) (h : string) : Recon.HostEntry :=
  default (Recon.emptyHost h) (jsmap_get m h).

(** The fields of a host record that are merged as sets or by OR. *)
Record MergeView := {
  v_host : string;
  v_ips : list string;
  v_tech : list string;
  v_sources : list string;
  v_titles : list string;
  v_webservers : list string;
  v_liveness : bool;
}.

Definition viewOf (r : Recon.HostEntry) : MergeView :=
  {| v_host := Recon.host r; v_ips := Recon.ips r; v_tech := Recon.tech r;
     v_sources := Recon.sources r; v_titles := Recon.titles r;
     v_webservers := Recon.webservers r; v_liveness := Recon.liveness r |}.

(** What one entry of a source reports about its host. *)
Record Contribution := {
  c_ips : list string;
  c_tech : list string;
  c_sources : list string;
  c_titles : list string;
  c_webservers : list string;
  c_alive : bool;
}.

Definition mergeContribution (v : MergeView) (c : Contribution) : MergeView :=
  {| v_host := v_host v;
     v_ips := jsset_add_all (v_ips v) (c_ips c);
     v_tech := jsset_add_all (v_tech v) (c_tech c);
     v_sources := jsset_add_all (v_sources v) (c_sources c);
     v_titles := jsset_add_all (v_titles v) (c_titles c);
     v_webservers := jsset_add_all (v_webservers v) (c_webservers c);
     v_liveness := v_liveness v || c_alive c |}.

(** The value of an optional string, prefixed, when it is truthy. *)
Definition truthyList (prefix : string) (x : option string) : list string :=
  match x with
  | Some v => if truthy x then [prefix +:+ v] else []
  | None => []
  end.

Definition contribSubfinder (x : Recon.SubfinderEntry) : Contribution :=
  {| c_ips := truthyList "" (Recon.sf_ip x); c_tech := [];
     c_sources := truthyList "subfinder:" (Recon.sf_source x);
     c_titles := []; c_webservers := []; c_alive := false |}.

Definition contribAmass (n : Recon.AmassNode) : Contribution :=
  {| c_ips := Recon.am_addresses n; c_tech := [];
     c_sources := (fun src => "amass:" +:+ src) <$> Recon.am_sources n;
     c_titles := []; c_webservers := []; c_alive := false |}.

Definition contribHttpx (x : Recon.HttpxEntry) : Contribution :=
  {| c_ips := Recon.ensureArray (Recon.hx_a x);
     c_tech := Recon.ensureArray (Recon.hx_tech x);
     c_sources := [];
     c_titles := truthyList "" (Recon.hx_title x);
     c_webservers := truthyList "" (Recon.hx_webserver x);
     c_alive := number_lt (Recon.hx_status_code x) 500 |}.

Definition contribSecuritytrails (r : Recon.StRecord) : Contribution :=
  {| c_ips := []; c_tech := [];
     c_sources := truthyList "securitytrails:" (Recon.st_organization r);
     c_titles := []; c_webservers := []; c_alive := false |}.

(** Everything the sources report about host [h], in processing order. *)
Definition contributionsFor (h : string) (inputs : Recon.ReconInputs)
  : list Contribution :=
  (contribSubfinder <$> filter (fun x => Recon.sf_host x = h) (subfinderData inputs)) ++
  (contribAmass <$> filter (fun n => Recon.am_name n = h) (amassData inputs)) ++
  (contribHttpx <$> filter (fun x => Recon.hx_host x = h) (httpxData inputs)) ++
  (contribSecuritytrails <$>
     filter (fun r => Recon.st_hostname r = h) (securitytrailsData inputs)).

(** Two canonical host records that agree on everything but the three
    timestamps. *)
Definition sameRecord (r1 r2 : Recon.ReconResult) : Prop :=
  Recon.rr_targetId r1 = Recon.rr_targetId r2 /\
  Recon.subdomain r1 = Recon.subdomain r2 /\
  Recon.ip r1 = Recon.ip r2 /\
  Recon.rr_ports r1 = Recon.rr_ports r2 /\
  Recon.rr_tech r1 = Recon.rr_tech r2 /\
  Recon.isAlive r1 = Recon.isAlive r2 /\
  Recon.fingerprints r1 = Recon.fingerprints r2 /\
  Recon.rr_sources r1 = Recon.rr_sources r2 /\
  Recon.tags r1 = Recon.tags r2.

(** The merge example of the specification: one source reports [foo.bar]
    with the address 1.2.3.4, another reports it alive with the technology
    nginx. *)
Definition mergeExample : Recon.ReconInputs :=
  {| Recon.targetId := "target-1";
     Recon.primaryTarget := "bar";
     Recon.jobId := "job-1";
     Recon.subfinder := Some
       [{| Recon.sf_host := "foo.bar"; Recon.sf_source := Some "crtsh";
           Recon.sf_ip := Some "1.2.3.4" |}];
     Recon.amass := None;
     Recon.httpx := Some
       [{| Recon.hx_input := "foo.bar"; Recon.hx_host := "foo.bar";
           Recon.hx_port := num 443; Recon.hx_scheme := "https";
           Recon.hx_status_code := num 200; Recon.hx_title := None;
           Recon.hx_webserver := None; Recon.hx_tech := Some ["nginx"];
           Recon.hx_a := None; Recon.hx_tls_issuer_dn := None |}];
     Recon.securitytrails := None |}.

Definition httpxProbe (title webserver : string) : Recon.HttpxEntry :=
  {| Recon.hx_input := "foo.bar"; Recon.hx_host := "foo.bar";
     Recon.hx_port := num 443; Recon.hx_scheme := "https";
     Recon.hx_status_code := num 200; Recon.hx_title := Some title;
     Recon.hx_webserver := Some webserver; Recon.hx_tech := None;
     Recon.hx_a := None; Recon.hx_tls_issuer_dn := None |}.

Definition stRecord (country : string) : Recon.StRecord :=
  {| Recon.st_hostname := "foo.bar"; Recon.st_lastSeen := None;
     Recon.st_asn := None; Recon.st_organization := None;
     Recon.st_country := Some country; Recon.st_ports := [] |}.

(** Three sources report [foo.bar]; httpx probes it twice and
    securitytrails lists it twice, with different titles, web servers and
    countries. *)
Definition conflictingReports : Recon.ReconInputs :=
  {| Recon.targetId := "target-1";
     Recon.primaryTarget := "bar";
     Recon.jobId := "job-1";
     Recon.subfinder := Some
       [{| Recon.sf_host := "foo.bar"; Recon.sf_source := None;
           Recon.sf_ip := None |}];
     Recon.amass := None;
     Recon.httpx := Some [httpxProbe "Welcome" "nginx"; httpxProbe "Login" "apache"];
     Recon.securitytrails := Some [stRecord "US"; stRecord "DE"] |}.

(** The accumulator of [foo.bar] after the merge example. *)
Definition mergedFooBar : Recon.HostEntry :=
  {| Recon.host := "foo.bar";
     Recon.ips := ["1.2.3.4"];
     Recon.ports :=
       [(num 443, {| Recon.protocol := Some "tcp"; Recon.service := Some "https" |})];
     Recon.tech := ["nginx"];
     Recon.sources := ["subfinder:crtsh"];
     Recon.titles := [];
     Recon.webservers := [];
     Recon.liveness := true |}.

(** The host strings the sources report, in processing order. *)
Definition reportedHosts (inputs : Recon.ReconInputs) : list string :=
  (Recon.sf_host <$> subfinderData inputs) ++
  (Recon.am_name <$> amassData inputs) ++
  (Recon.hx_host <$> httpxData inputs) ++
  (Recon.st_hostname <$> securitytrailsData inputs).

(** What a source says about one port of a host: an httpx probe, or a
    port listed in a securitytrails record. *)
Inductive PortReport :=
| FromHttpx (x : Recon.HttpxEntry)
| FromSecuritytrails (p : Recon.StPort).

Definition reportedPort (r : PortReport) : number :=
  match r with
  | FromHttpx x => Recon.hx_port x
  | FromSecuritytrails p => Recon.sp_port p
  end.

(** The protocol and the service a report proposes for its port: httpx
    always proposes [tcp] and its scheme, securitytrails what it lists, when
    that is not empty. *)
Definition offeredProtocol (r : PortReport) : option string :=
  match r with
  | FromHttpx _ => Some "tcp"
  | FromSecuritytrails p => truthy_or_none (Recon.sp_protocol p)
  end.

Definition offeredService (r : PortReport) : option string :=
  match r with
  | FromHttpx x => Some (Recon.hx_scheme x)
  | FromSecuritytrails p => truthy_or_none (Recon.sp_service p)
  end.

(** The port reports about host [h], in processing order. *)
Definition portReportsFor (h : string) (inputs : Recon.ReconInputs) : list PortReport :=
  (FromHttpx <$> filter (fun x => Recon.hx_host x = h) (httpxData inputs)) ++
  (filter (fun r => Recon.st_hostname r = h) (securitytrailsData inputs)
     ≫= fun r => FromSecuritytrails <$> Recon.st_ports r).

(** The first proposal made for port [n]. *)
Definition firstOffer (offer : PortReport -> option string) (n : number)
    (reports : list PortReport) : option string :=
  head (omap offer (filter (fun r => reportedPort r = n) reports)).

(** The port numbers reported, without repetition, in order of first
    report. *)
Definition reportedPorts (reports : list PortReport) : list number :=
  jsset_add_all [] (reportedPort <$> reports).

(** The canonical entry of port [n] given the reports about its host. *)
Definition mergedPort (reports : list PortReport) (n : number) : Recon.Port :=
  {| Recon.port := n;
     Recon.port_protocol := default "tcp" (firstOffer offeredProtocol n reports);
     Recon.port_service := firstOffer offeredService n reports |}.

(** One report applied to the port map of a host, and to the entry of its
    port. *)
Definition mergeOffer (info : Recon.PortInfo) (r : PortReport) : Recon.PortInfo :=
  {| Recon.protocol := match Recon.protocol info with
                       | Some x => Some x
                       | None => offeredProtocol r
                       end;
     Recon.service := match Recon.service info with
                      | Some x => Some x
                      | None => offeredService r
                      end |}.

Definition portStep (ports : list (number * Recon.PortInfo)) (r : PortReport)
  : list (number * Recon.PortInfo) :=
  jsmap_set ports (reportedPort r)
    (mergeOffer (default {| Recon.protocol := None; Recon.service := None |}
                         (jsmap_get ports (reportedPort r))) r).

(** A port number the schema accepts, and a protocol label it accepts. *)
Definition portInRange (n : number) : Prop :=
  exists k : Z, n = num (inject_Z k) /\ (1 <= k <= 65535)%Z.
Definition knownProtocol (proto : string) : Prop := proto = "tcp" \/ proto = "udp".

(** The names of the sources that were present and valid, in processing
    order. *)
Definition pipelineOf (inputs : Recon.ReconInputs) : list string :=
  (if Recon.subfinder inputs is Some _ then ["subfinder"] else []) ++
  (if Recon.amass inputs is Some _ then ["amass"] else []) ++
  (if Recon.httpx inputs is Some _ then ["httpx"] else []) ++
  (if Recon.securitytrails inputs is Some _ then ["securitytrails"] else []).

(** An httpx probe of [host] on [port], and a securitytrails record that
    lists [port] of [host] with a protocol label. *)
Definition probeOn (host : string) (port : number) : Recon.HttpxEntry :=
  {| Recon.hx_input := host; Recon.hx_host := host;
     Recon.hx_port := port; Recon.hx_scheme := "https";
     Recon.hx_status_code := num 200; Recon.hx_title := None;
     Recon.hx_webserver := None; Recon.hx_tech := None;
     Recon.hx_a := None; Recon.hx_tls_issuer_dn := None |}.

Definition listedPort (host : string) (port : number) (proto : string)
  : Recon.StRecord :=
  {| Recon.st_hostname := host; Recon.st_lastSeen := None;
     Recon.st_asn := None; Recon.st_organization := None;
     Recon.st_country := None;
     Recon.st_ports := [{| Recon.sp_port := port; Recon.sp_protocol := Some proto;
                           Recon.sp_service := Some "domain" |}] |}.

(** Inputs with the given httpx and securitytrails payloads only. *)
Definition probesAndRecords (probes : list Recon.HttpxEntry)
    (records : list Recon.StRecord) : Recon.ReconInputs :=
  {| Recon.targetId := "target-1";
     Recon.primaryTarget := "bar";
     Recon.jobId := "job-1";
     Recon.subfinder := None;
     Recon.amass := None;
     Recon.httpx := Some probes;
     Recon.securitytrails := Some records |}.

(** The program prefixes of the bug bounty platforms. *)
Definition bountyPrefixes : list string := ["bugcrowd:"; "hackerone:"; "intigriti:"].

(** The phase a nuclei process was started for, and the documents an
    effect stores or announces. *)
Definition spawnedPhase {A} (e : @Attacks.Effect A) : option Attacks.Phase :=
  match e with
  | Attacks.SpawnNuclei phase _ _ _ _ => Some phase
  | _ => None
  end.

Definition storedAttacks {A} (e : @Attacks.Effect A) : list (@Attacks.StoredAttack A) :=
  match e with
  | Attacks.InsertMany docs => docs
  | _ => []
  end.

Definition announcedAttack {A} (e : @Attacks.Effect A)
  : option (@Attacks.StoredAttack A * string) :=
  match e with
  | Attacks.Notify doc host => Some (doc, host)
  | _ => None
  end.

(** The host a scanner process was started against, and the documents an
    effect of the scanner job stores. *)
Definition scannedHost {A} (e : @VulnCli.Effect A) : option string :=
  match e with
  | VulnCli.SpawnNuclei target _ _ => Some target
  | _ => None
  end.

Definition storedFindings {A} (e : @VulnCli.Effect A)
  : list (@VulnCli.StoredFinding A) :=
  match e with
  | VulnCli.InsertMany docs => docs
  | _ => []
  end.

(** The file-name stem a tool of the recon job was started with. *)
Definition safeNameOf {D} (e : @ReconCli.Effect D) : option string :=
  match e with
  | ReconCli.SpawnSubfinder _ _ safeName => Some safeName
  | ReconCli.SpawnHttpx _ _ safeName => Some safeName
  | _ => None
  end.

(** A target entered by hand, with a URL as value. *)
Definition urlTarget : ReconCli.TargetDoc :=
  {| ReconCli.td_id := "t1"; ReconCli.td_program := "manual";
     ReconCli.td_assetType := "url"; ReconCli.td_assetValue := "https://foo.bar/a?b";
     ReconCli.td_status := "active" |}.

(** The identifiers of the database written as their 24 hexadecimal
    digits, in lower case, and the constructor [new ObjectId(s)] of the
    driver on them: [s] is the text of an identifier when it consists of 24
    hexadecimal digits, in either case. *)
Definition isHexDigit (c : ascii) : bool :=
  let n := N_of_ascii c in
  ((48 <=? n) && (n <=? 57) || (65 <=? n) && (n <=? 70) ||
   (97 <=? n) && (n <=? 102))%N.

Definition hexObjectId (s : string) : option string :=
  if (String.length s =? 24)%nat && forallb isHexDigit (list_ascii_of_string s)
  then Some (toLowerCase s) else None.

Definition reconKey : string := "65a1b2c3d4e5f60718293a4b".
Definition targetKey : string := "65a1b2c3d4e5f60718293a4c".

(** A recon document of [foo.bar] and the target documents of a bug
    bounty program and of a target entered by hand. *)
Definition fooBarRecon (targetId : Attacks.IdValue string) : Attacks.ReconDoc string :=
  {| Attacks.rd_subdomain := Some "foo.bar"; Attacks.rd_ip := None;
     Attacks.rd_targetId := targetId |}.

Definition bountyTarget : Attacks.TargetDoc :=
  {| Attacks.td_program := Some "hackerone:acme";
     Attacks.td_assetValue := Some "bar" |}.

Definition manualTarget : Attacks.TargetDoc :=
  {| Attacks.td_program := Some "manual";
     Attacks.td_assetValue := Some "bar" |}.

(** A database that answers every query and holds one recon document,
    under [reconKey], whose target, stored under [targetKey], is [target];
    the recon document names its target by a string. *)
Definition oneRecon (id : string) : option (option (Attacks.ReconDoc string)) :=
  Some (if decide (id = reconKey)
        then Some (fooBarRecon (Attacks.IdString targetKey)) else None).

Definition oneTarget (target : Attacks.TargetDoc) (id : string)
  : option (option Attacks.TargetDoc) :=
  Some (if decide (id = targetKey) then Some target else None).

(** The head of an attack or scanner job goes through and has read [recon]
    and [target]: the output directory could be made, [reconId] is the text
    of an identifier under which [findOne] answered [recon], and either
    there is no such document and no target, or the document names an
    identifier under which [findOne] answered [target]. *)
Definition headReads {ObjectId} (newObjectId : string -> option ObjectId)
    (dirOk : bool) (reconOf : ObjectId -> option (option (Attacks.ReconDoc ObjectId)))
    (targetOf : ObjectId -> option (option Attacks.TargetDoc)) (reconId : string)
    (recon : option (Attacks.ReconDoc ObjectId)) (target : option Attacks.TargetDoc)
  : Prop :=
  dirOk = true /\
  exists id,
    newObjectId reconId = Some id /\ reconOf id = Some recon /\
    match recon with
    | None => target = None
    | Some doc =>
        exists tid,
          Attacks.objectIdOf newObjectId (Attacks.rd_targetId doc) = Some tid /\
          targetOf tid = Some target
    end.

(** The head of a job fails: the directory cannot be made, [reconId] is not
    the text of an identifier, the first [findOne] rejects, or it finds a
    document whose target is named by a string that is not the text of an
    identifier, or whose target the second [findOne] fails to look up. *)
Definition headFails {ObjectId} (newObjectId : string -> option ObjectId)
    (dirOk : bool) (reconOf : ObjectId -> option (option (Attacks.ReconDoc ObjectId)))
    (targetOf : ObjectId -> option (option Attacks.TargetDoc)) (reconId : string)
  : Prop :=
  dirOk = false \/ newObjectId reconId = None \/
  exists id,
    newObjectId reconId = Some id /\
    (reconOf id = None \/
     exists doc,
       reconOf id = Some (Some doc) /\
       (Attacks.objectIdOf newObjectId (Attacks.rd_targetId doc) = None \/
        exists tid,
          Attacks.objectIdOf newObjectId (Attacks.rd_targetId doc) = Some tid /\
          targetOf tid = None)).

(** Two phases report results, named by their titles. *)
Definition twoPhasesFind (phase : Attacks.Phase) : list string :=
  match phase with
  | Attacks.Xss => ["reflected xss"]
  | Attacks.Injection => ["sql injection"; "command injection"]
  | _ => []
  end.

(** The name of a canonical severity level. *)
Definition severityName (s : Severity) : string :=
  match s with
  | critical => "critical"
  | high => "high"
  | medium => "medium"
  | low => "low"
  | info => "info"
  end.

(** The double nearest to the decimal literal [0.1]. *)
Definition double_0_1 : Q := 3602879701896397 # 36028797018963968.

(** ** Runs of the worker pool, seen from outside *)

Section PoolRuns.
Context {Item : Type}.
Variable operation : Item -> option Z.
Variable items : list Item.
Variable maxConcurrent : Z.

Definition isTimer (e : Scheduler.event) : bool :=
  match e with Scheduler.Timer _ => true | _ => false end.
Definition isSettle (e : Scheduler.event) : bool :=
  match e with Scheduler.Settle _ => true | _ => false end.
Definition isRace (e : Scheduler.event) : bool :=
  match e with Scheduler.Race _ => true | _ => false end.
Definition anyEvent (e : Scheduler.event) : bool := true.

(** The item whose job the callback [e] starts in state [s]: the timer of
    a sleeping worker starts the job of the worker's item, the loop body
    starts the job of the next item of the list, and the handlers of a
    settling job start nothing. *)
Definition startedBy (s : @Scheduler.state Item) (e : Scheduler.event) : option Item :=
  match e with
  | Scheduler.Timer i =>
      match Scheduler.workers s !! i with
      | Some (Scheduler.Sleeping item) => Some item
      | _ => None
      end
  | Scheduler.Race _ => items !! Scheduler.currentIndex s
  | Scheduler.Settle _ => None
  end.

(** The items whose jobs are started while the callbacks [evs] run from
    state [s], in the order in which their jobs start; only the callbacks
    selected by [which] are looked at. *)
Fixpoint jobsStarted (which : Scheduler.event -> bool) (s : @Scheduler.state Item)
    (evs : list Scheduler.event) : list Item :=
  match evs with
  | [] => []
  | e :: evs =>
      match Scheduler.step operation items s e with
      | Some s' =>
          (if which e then option_list (startedBy s e) else []) ++
          jobsStarted which s' evs
      | None => []
      end
  end.

(** The number of callbacks of one kind among [evs]; for [isSettle], the
    number of jobs that settle. *)
Definition callbacks (which : Scheduler.event -> bool) (evs : list Scheduler.event)
  : nat :=
  length (filter (fun e => which e = true) evs).

(** The size of the initial batch. *)
Definition batchSize : nat :=
  Z.to_nat (Z.min maxConcurrent (Z.of_nat (length items))).

(** The workers of the initial batch after [k] timers have fired and the
    loop has handed out [m] further items: the first [k] workers have been
    started, the others still sleep on the items of their own positions. *)
Definition batch_inv (s : @Scheduler.state Item) (k m : nat) : Prop :=
  length (Scheduler.workers s) = batchSize /\ k <= batchSize /\
  batchSize <= length items /\
  Scheduler.currentIndex s = batchSize + m /\
  (forall i w, i < k -> Scheduler.workers s !! i = Some w ->
               Scheduler.is_sleeping w = false) /\
  (forall i, k <= i < batchSize ->
     exists item, items !! i = Some item /\
                  Scheduler.workers s !! i = Some (Scheduler.Sleeping item)).

(** One for a job in flight. *)
Definition running (w : @Scheduler.worker Item) : nat :=
  if Scheduler.is_running w then 1 else 0.

End PoolRuns.

(** * Properties *)

(** ** Strings *)

Lemma append_cons (c : ascii) (a b : string) : String c a +:+ b = String c (a +:+ b).
Proof. reflexivity. Qed.

Lemma append_nil (b : string) : "" +:+ b = b.
Proof. reflexivity. Qed.

Lemma prefix_spec (sub s : string) :
  String.prefix sub s = true <-> exists b, s = sub +:+ b.
Proof.
  revert sub. induction s as [|c' s IH]; intros [|c sub]; cbn [String.prefix];
    rewrite ?append_cons, ?append_nil.
  - split; [by exists EmptyString | done].
  - split; [done | intros [b Hb]; discriminate].
  - split; [by exists (String c' s) | done].
  - destruct (Ascii.ascii_dec c c') as [->|Hne].
    + rewrite IH. split; intros [b Hb]; exists b;
        rewrite ?append_cons in *; congruence.
    + split; [done | intros [b Hb]; rewrite append_cons in Hb; congruence].
Qed.

Lemma includes_spec (s sub : string) :
  includes s sub = true <-> exists a b, s = a +:+ sub +:+ b.
Proof.
  induction s as [|c s IH]; cbn [includes].
  - rewrite orb_false_r, prefix_spec. split.
    + intros [b Hb]. by exists EmptyString, b.
    + intros [a [b Hab]]. destruct a; [by exists b | discriminate].
  - rewrite orb_true_iff, prefix_spec, IH. split.
    + intros [[b Hb] | [a [b Hab]]].
      * by exists EmptyString, b.
      * exists (String c a), b. by rewrite append_cons, Hab.
    + intros [a [b Hab]]. destruct a as [|c' a];
        rewrite ?append_cons, ?append_nil in Hab.
      * left. by exists b.
      * right. exists a, b. congruence.
Qed.

(** A separator cannot be moved across a field that does not contain it. *)
Lemma colon_field_inj (r1 r2 t1 t2 : string) :
  includes r1 ":" = false -> includes r2 ":" = false ->
  r1 +:+ ":" +:+ t1 = r2 +:+ ":" +:+ t2 -> r1 = r2 /\ t1 = t2.
Proof.
  revert r2. induction r1 as [|c r1 IH]; intros [|c2 r2] H1 H2 Heq;
    rewrite ?append_cons, ?append_nil in Heq.
  - injection Heq as ->. done.
  - injection Heq as <- _. exfalso. cbn in H2. by destruct r2.
  - injection Heq as -> _. exfalso. cbn in H1. by destruct r1.
  - injection Heq as -> Heq. cbn [includes] in H1, H2.
    apply orb_false_iff in H1 as [_ H1]. apply orb_false_iff in H2 as [_ H2].
    destruct (IH r2 H1 H2 Heq) as [-> ->]. done.
Qed.

(** ** C4: severity derivation from a numeric score *)

(** C4, as the specification states it, fails for an absent score: the code
    answers [medium] where the claim says [info]. *)
Lemma severityFromCvss_absent_not_info :
  Parse.severityFromCvss None = medium /\ Parse.severityFromCvss None <> info.
Proof. split; [reflexivity | discriminate]. Qed.

(** C4 (amended): a score [>= 9] is critical, [>= 7] high, [>= 4] medium,
    [> 0] low, and any other number (zero, negative, NaN) is info; an
    absent score is medium.  In particular 9.5, 7.0, 4.0, 0.1 and 0. *)
Theorem severityFromCvss_thresholds :
  (forall q : Q,
      (9 <= q -> Parse.severityFromCvss (Some (num q)) = critical) /\
      (7 <= q < 9 -> Parse.severityFromCvss (Some (num q)) = high) /\
      (4 <= q < 7 -> Parse.severityFromCvss (Some (num q)) = medium) /\
      (0 < q < 4 -> Parse.severityFromCvss (Some (num q)) = low) /\
      (q <= 0 -> Parse.severityFromCvss (Some (num q)) = info))%Q /\
  Parse.severityFromCvss (Some PosInfinity) = critical /\
  Parse.severityFromCvss (Some NegInfinity) = info /\
  Parse.severityFromCvss (Some NaN) = info /\
  Parse.severityFromCvss None = medium /\
  Parse.severityFromCvss (Some (num (95 # 10))) = critical /\
  Parse.severityFromCvss (Some (num 7)) = high /\
  Parse.severityFromCvss (Some (num 4)) = medium /\
  Parse.severityFromCvss (Some (num double_0_1)) = low /\
  Parse.severityFromCvss (Some (num (1 # 10))) = low /\
  Parse.severityFromCvss (Some (num 0)) = info.
Proof.
  split; [| repeat split; reflexivity].
  intros q. unfold Parse.severityFromCvss, number_ge, number_gt, num.
  assert (Hq : (Q2Qc q == q)%Q) by apply Qred_correct.
  assert (Hle : forall a : Q, (a <= q)%Q -> Qle_bool a (Q2Qc q) = true).
  { intros a H. apply Qle_bool_iff. by rewrite Hq. }
  assert (Hgt : forall a : Q, (q < a)%Q -> Qle_bool a (Q2Qc q) = false).
  { intros a Hlt. destruct (Qle_bool a (Q2Qc q)) eqn:E; [|reflexivity].
    apply Qle_bool_iff in E. rewrite Hq in E. exfalso. eapply Qlt_not_le; eauto. }
  assert (Hle0 : (q <= 0)%Q -> Qle_bool (Q2Qc q) 0 = true).
  { intros H. apply Qle_bool_iff. by rewrite Hq. }
  assert (Hgt0 : (0 < q)%Q -> Qle_bool (Q2Qc q) 0 = false).
  { intros Hlt. destruct (Qle_bool (Q2Qc q) 0) eqn:E; [|reflexivity].
    apply Qle_bool_iff in E. rewrite Hq in E. exfalso. eapply Qlt_not_le; eauto. }
  repeat split.
  - intros H. now rewrite (Hle _ H).
  - intros [H1 H2]. now rewrite (Hgt _ H2), (Hle _ H1).
  - intros [H1 H2].
    rewrite (Hgt 9%Q), (Hgt _ H2), (Hle _ H1); [done|].
    eapply Qlt_trans; [exact H2 | reflexivity].
  - intros [H1 H2].
    rewrite (Hgt 9%Q), (Hgt 7%Q), (Hgt _ H2), (Hgt0 H1); [done| |].
    + eapply Qlt_trans; [exact H2 | reflexivity].
    + eapply Qlt_trans; [exact H2 | reflexivity].
  - intros H.
    rewrite (Hgt 9%Q), (Hgt 7%Q), (Hgt 4%Q), (Hle0 H); [done| | |].
    all: eapply Qle_lt_trans; [exact H | reflexivity].
Qed.

(** ** C6: deduplication of findings *)

Lemma mergeFindings_foldl (l : list Vulnerability) (seen : gset string)
    (merged : list Vulnerability) :
  snd (foldl (fun (acc : gset string * list Vulnerability) finding =>
                let key := Parse.findingKey finding in
                if decide (key ∈ acc.1) then acc
                else ({[ key ]} ∪ acc.1, acc.2 ++ [finding]))
             (seen, merged) l) = merged ++ keepFirst seen l.
Proof.
  revert seen merged. induction l as [|f l IH]; intros seen merged; simpl.
  - by rewrite app_nil_r.
  - destruct (decide (Parse.findingKey f ∈ seen)); simpl.
    + apply IH.
    + rewrite IH, <- app_assoc. done.
Qed.

Lemma mergeFindings_keepFirst (lists : list (list Vulnerability)) :
  Parse.mergeFindings lists = keepFirst ∅ (concat lists).
Proof. unfold Parse.mergeFindings. by rewrite mergeFindings_foldl. Qed.

Lemma keepFirst_fresh (seen : gset string) (l : list Vulnerability) (g : Vulnerability) :
  g ∈ keepFirst seen l ->
  (Parse.findingKey g ∉ seen) /\
  (exists l1 l2, l = l1 ++ g :: l2 /\
     forall f, f ∈ l1 -> Parse.findingKey f <> Parse.findingKey g).
Proof.
  revert seen. induction l as [|f l IH]; intros seen Hg; simpl in Hg.
  - by apply elem_of_nil in Hg.
  - destruct (decide (Parse.findingKey f ∈ seen)) as [Hin|Hnin].
    + pose proof (IH _ Hg) as [Hk (l1 & l2 & Hl & Hl1)]. split; [done|].
      exists (f :: l1), l2. split; [by rewrite Hl|].
      intros f' [->|Hf']%elem_of_cons; [congruence | by apply Hl1].
    + apply elem_of_cons in Hg as [->|Hg].
      * split; [done|]. exists [], l. split; [done|].
        intros f' Hf'. by apply elem_of_nil in Hf'.
      * pose proof (IH _ Hg) as [Hk (l1 & l2 & Hl & Hl1)].
        split; [intros ?; apply Hk, elem_of_union; by right|].
        exists (f :: l1), l2. split; [by rewrite Hl|].
        intros f' [->|Hf']%elem_of_cons; [|by apply Hl1].
        intros Heq. apply Hk, elem_of_union. left. by apply elem_of_singleton.
Qed.

Lemma keepFirst_NoDup (seen : gset string) (l : list Vulnerability) :
  NoDup (Parse.findingKey <$> keepFirst seen l).
Proof.
  revert seen. induction l as [|f l IH]; intros seen; simpl.
  - constructor.
  - destruct (decide (Parse.findingKey f ∈ seen)); [apply IH|].
    rewrite fmap_cons. constructor; [|apply IH].
    intros (g & Hkey & Hg)%list_elem_of_fmap.
    apply keepFirst_fresh in Hg as [Hg _].
    apply Hg, elem_of_union. left. by apply elem_of_singleton.
Qed.

Lemma keepFirst_covers (seen : gset string) (l : list Vulnerability) (f : Vulnerability) :
  f ∈ l -> Parse.findingKey f ∉ seen ->
  exists g, g ∈ keepFirst seen l /\ Parse.findingKey g = Parse.findingKey f.
Proof.
  revert seen. induction l as [|f0 l IH]; intros seen Hf Hk.
  - by apply elem_of_nil in Hf.
  - simpl. destruct (decide (Parse.findingKey f0 ∈ seen)) as [Hin|Hnin].
    + apply elem_of_cons in Hf as [->|Hf]; [done|]. by apply IH.
    + destruct (decide (Parse.findingKey f = Parse.findingKey f0)) as [Heq|Hne].
      * exists f0. split; [by left | done].
      * apply elem_of_cons in Hf as [->|Hf]; [done|].
        assert (Hfresh : Parse.findingKey f ∉ {[Parse.findingKey f0]} ∪ seen).
        { intros [Hin%elem_of_singleton|Hin]%elem_of_union; done. }
        pose proof (IH _ Hf Hfresh) as (g & Hg & Hgk).
        exists g. split; [by right | done].
Qed.

Lemma keepFirst_sublist (seen : gset string) (l : list Vulnerability) :
  sublist (keepFirst seen l) l.
Proof.
  revert seen. induction l as [|f l IH]; intros seen; simpl; [constructor|].
  destruct (decide (Parse.findingKey f ∈ seen)).
  - by apply sublist_cons.
  - by apply sublist_skip.
Qed.

(** C6, as the specification states it, fails: two findings whose
    [(reconId, source, title)] triples differ are merged into one when the
    joined key strings coincide. *)
Lemma mergeFindings_joined_key_collision :
  (reconId (sampleFinding "r" "nmap:x" "t" []),
   source (sampleFinding "r" "nmap:x" "t" []),
   title (sampleFinding "r" "nmap:x" "t" []))
  <> (reconId (sampleFinding "r" "nmap" "x:t" []),
      source (sampleFinding "r" "nmap" "x:t" []),
      title (sampleFinding "r" "nmap" "x:t" [])) /\
  Parse.mergeFindings
    [[sampleFinding "r" "nmap:x" "t" []]; [sampleFinding "r" "nmap" "x:t" []]]
  = [sampleFinding "r" "nmap:x" "t" []].
Proof. split; [discriminate | by vm_compute]. Qed.

(** C6 (amended): [mergeFindings] keeps exactly one finding per distinct key
    string [reconId:source:title], the first one in concatenation order, and
    preserves the order of what it keeps; it is total.  The key string
    determines the triple whenever [reconId] and [source] hold no colon. *)
Theorem mergeFindings_first_per_key (lists : list (list Vulnerability)) :
  NoDup (Parse.findingKey <$> Parse.mergeFindings lists) /\
  (forall f, f ∈ concat lists ->
     exists g, g ∈ Parse.mergeFindings lists /\
               Parse.findingKey g = Parse.findingKey f) /\
  (forall g, g ∈ Parse.mergeFindings lists ->
     exists l1 l2, concat lists = l1 ++ g :: l2 /\
       forall f, f ∈ l1 -> Parse.findingKey f <> Parse.findingKey g) /\
  sublist (Parse.mergeFindings lists) (concat lists) /\
  (forall f g : Vulnerability,
     includes (reconId f) ":" = false -> includes (source f) ":" = false ->
     includes (reconId g) ":" = false -> includes (source g) ":" = false ->
     Parse.findingKey f = Parse.findingKey g ->
     reconId f = reconId g /\ source f = source g /\ title f = title g).
Proof.
  rewrite mergeFindings_keepFirst. repeat split.
  - apply keepFirst_NoDup.
  - intros f Hf. apply keepFirst_covers; [done | apply not_elem_of_empty].
  - intros g Hg. by apply keepFirst_fresh in Hg as [_ ?].
  - apply keepFirst_sublist.
  - unfold Parse.findingKey in *.
    match goal with H : _ +:+ _ = _ +:+ _ |- _ =>
      apply colon_field_inj in H as [? H]; [|done..] end.
    done.
  - unfold Parse.findingKey in *.
    match goal with H : _ +:+ _ = _ +:+ _ |- _ =>
      apply colon_field_inj in H as [? H]; [|done..];
      apply colon_field_inj in H as [? H]; [|done..] end.
    done.
  - unfold Parse.findingKey in *.
    match goal with H : _ +:+ _ = _ +:+ _ |- _ =>
      apply colon_field_inj in H as [? H]; [|done..];
      apply colon_field_inj in H as [? H]; [|done..] end.
    done.
Qed.

(** ** C10: enrichment only touches [cves] *)

Lemma enrichFinding_sameFrame (index : CveMatcher.CveIndex) (f : Vulnerability) :
  sameFrame f (CveMatcher.enrichFinding index f).
Proof.
  unfold CveMatcher.enrichFinding.
  destruct (cves f); repeat split.
Qed.

(** C10: [enrichVulnerabilitiesWithNvd] returns as many findings as it was
    given, in the same order, and the finding at each position agrees with
    its input on every field other than [cves]. *)
Theorem enrich_preserves_frame (vulns : list Vulnerability)
    (index : CveMatcher.CveIndex) :
  length (CveMatcher.enrichVulnerabilitiesWithNvd vulns index) = length vulns /\
  Forall2 sameFrame vulns (CveMatcher.enrichVulnerabilitiesWithNvd vulns index).
Proof.
  unfold CveMatcher.enrichVulnerabilitiesWithNvd. split.
  - apply length_fmap.
  - induction vulns as [|f vulns IH]; constructor.
    + apply enrichFinding_sameFrame.
    + exact IH.
Qed.

(** ** C5: backfilling CVSS data *)

Lemma enrichFinding_cves (index : CveMatcher.CveIndex) (f : Vulnerability) :
  cves (CveMatcher.enrichFinding index f) = CveMatcher.enrichEntry index <$> cves f.
Proof. unfold CveMatcher.enrichFinding. by destruct (cves f) eqn:E. Qed.

Lemma enrichEntry_unindexed (index : CveMatcher.CveIndex) (entry : CveRef) :
  jsmap_get index (cve_id entry) = None -> CveMatcher.enrichEntry index entry = entry.
Proof. unfold CveMatcher.enrichEntry. by intros ->. Qed.

Lemma enrichFinding_unindexed (index : CveMatcher.CveIndex) (f : Vulnerability) :
  (forall e, e ∈ cves f -> jsmap_get index (cve_id e) = None) ->
  CveMatcher.enrichFinding index f = f.
Proof.
  intros Hnone. unfold CveMatcher.enrichFinding.
  destruct f as [i r s sf t sv c cat d ev refs rem st ra rs ca ua tg]; simpl in *.
  destruct refs as [|e refs]; [done|]. f_equal.
  induction (e :: refs) as [|e' l IH]; [done|].
  rewrite fmap_cons, enrichEntry_unindexed by (apply Hnone; by left).
  f_equal. apply IH. intros e'' He''. apply Hnone. by right.
Qed.

(** C5, as the specification states it, fails: a reference is rewritten
    (its vector and version are filled in) although the matching index
    entry supplies no numeric base score. *)
Lemma enrich_backfills_without_index_score :
  (CveMatcher.detail_baseScore <$> jsmap_get vectorOnlyIndex "CVE-2024-0002")
    = Some None /\
  CveMatcher.enrichVulnerabilitiesWithNvd
    [sampleFinding "r" "nmap" "t" [scoredRef]] vectorOnlyIndex
  = [sampleFinding "r" "nmap" "t"
       [{| cve_id := "CVE-2024-0002";
           cvss := Some {| baseScore := num 5;
                           vector := Some "CVSS:3.1/AV:N/AC:L";
                           version := Some "3.x" |} |}]] /\
  CveMatcher.enrichVulnerabilitiesWithNvd
    [sampleFinding "r" "nmap" "t" [scoredRef]] vectorOnlyIndex
  <> [sampleFinding "r" "nmap" "t" [scoredRef]].
Proof.
  split; [by vm_compute|]. split; [by vm_compute|].
  intros H. vm_compute in H. discriminate H.
Qed.

(** C5 (amended): a reference whose id is in the index is rewritten exactly
    when a numeric base score is available, from the index entry or, failing
    that, from the reference itself; the index's score and vector take
    precedence and the reference's own fill the gaps, so a populated score or
    vector is never replaced by an absent one.  A reference whose id is not
    in the index, or for which neither side has a score, stays as it is; a
    finding with no reference, or with no indexed reference, is returned
    unchanged.  A finding whose first reference is CVE-2024-0001, indexed
    with base score 9.8, ends with that score on [cves[0].cvss]. *)
Theorem enrich_backfill (index : CveMatcher.CveIndex) :
  (forall entry detail s,
     jsmap_get index (cve_id entry) = Some detail ->
     CveMatcher.detail_baseScore detail = Some s ->
     CveMatcher.enrichEntry index entry =
       {| cve_id := cve_id entry;
          cvss := Some
            {| baseScore := s;
               vector := match CveMatcher.detail_vector detail with
                         | Some v => Some v
                         | None => cvss entry ≫= vector
                         end;
               version := Some (default "3.x" (cvss entry ≫= version)) |} |}) /\
  (forall entry detail c,
     jsmap_get index (cve_id entry) = Some detail ->
     CveMatcher.detail_baseScore detail = None ->
     cvss entry = Some c ->
     CveMatcher.enrichEntry index entry =
       {| cve_id := cve_id entry;
          cvss := Some
            {| baseScore := baseScore c;
               vector := match CveMatcher.detail_vector detail with
                         | Some v => Some v
                         | None => vector c
                         end;
               version := Some (default "3.x" (version c)) |} |}) /\
  (forall entry detail,
     jsmap_get index (cve_id entry) = Some detail ->
     CveMatcher.detail_baseScore detail = None ->
     cvss entry = None ->
     CveMatcher.enrichEntry index entry = entry) /\
  (forall entry,
     jsmap_get index (cve_id entry) = None ->
     CveMatcher.enrichEntry index entry = entry) /\
  (forall entry c,
     cvss entry = Some c ->
     exists c', cvss (CveMatcher.enrichEntry index entry) = Some c' /\
                (is_Some (vector c) -> is_Some (vector c'))) /\
  (forall vulns i f,
     vulns !! i = Some f ->
     exists f', CveMatcher.enrichVulnerabilitiesWithNvd vulns index !! i = Some f' /\
                cves f' = CveMatcher.enrichEntry index <$> cves f) /\
  (forall vulns i f,
     vulns !! i = Some f ->
     (forall e, e ∈ cves f -> jsmap_get index (cve_id e) = None) ->
     CveMatcher.enrichVulnerabilitiesWithNvd vulns index !! i = Some f) /\
  (forall f c refs detail,
     cves f = {| cve_id := "CVE-2024-0001"; cvss := c |} :: refs ->
     jsmap_get index "CVE-2024-0001" = Some detail ->
     CveMatcher.detail_baseScore detail = Some (num (98 # 10)) ->
     exists f', CveMatcher.enrichVulnerabilitiesWithNvd [f] index = [f'] /\
       baseScore <$> (cves f' !! 0 ≫= cvss) = Some (num (98 # 10))).
Proof.
  unfold CveMatcher.enrichVulnerabilitiesWithNvd. repeat split.
  - intros entry detail s Hget Hs. unfold CveMatcher.enrichEntry.
    by rewrite Hget, Hs.
  - intros entry detail c Hget Hs Hc. unfold CveMatcher.enrichEntry.
    by rewrite Hget, Hs, Hc.
  - intros entry detail Hget Hs Hc. unfold CveMatcher.enrichEntry.
    by rewrite Hget, Hs, Hc.
  - apply enrichEntry_unindexed.
  - intros entry c Hc. unfold CveMatcher.enrichEntry. rewrite Hc. simpl.
    destruct (jsmap_get index (cve_id entry)) as [detail|]; [|by exists c].
    destruct (CveMatcher.detail_baseScore detail); simpl;
      (eexists; split; [reflexivity|]; simpl;
       destruct (CveMatcher.detail_vector detail); [by eexists | done]).
  - intros vulns i f Hf. exists (CveMatcher.enrichFinding index f).
    rewrite list_lookup_fmap, Hf. split; [done | apply enrichFinding_cves].
  - intros vulns i f Hf Hnone.
    rewrite list_lookup_fmap, Hf. simpl. f_equal.
    by apply enrichFinding_unindexed.
  - intros f c refs detail Hc Hget Hs.
    exists (CveMatcher.enrichFinding index f). split; [done|].
    rewrite enrichFinding_cves, Hc. simpl.
    unfold CveMatcher.enrichEntry. simpl. by rewrite Hget, Hs.
Qed.

(** ** C7: confidence *)



Lemma parseNucleiResults_elem (clock : nat -> string)
    (options : Parse.ParseOptions (list Parse.NucleiFinding)) (v : Vulnerability) :
  v ∈ Parse.parseNucleiResults clock options ->
  exists i f, v = Parse.nucleiFinding (clock i) (Parse.opt_reconId options)
                    (Parse.opt_jobId options) f.
Proof.
  unfold Parse.parseNucleiResults.
  destruct (Parse.opt_raw options) as [data|]; [|by intros ?%elem_of_nil].
  intros (i & f & -> & _)%elem_of_lookup_imap_1. by exists i, f.
Qed.

Lemma parseNmapVulnerabilities_elem (digits : Qc -> string) (clock : nat -> string)
    (options : Parse.ParseOptions Parse.NmapHost) (v : Vulnerability) :
  v ∈ Parse.parseNmapVulnerabilities digits clock options ->
  exists now host port entry,
    v = Parse.nmapFinding digits now (Parse.opt_reconId options)
          (Parse.opt_jobId options) host port entry.
Proof.
  unfold Parse.parseNmapVulnerabilities.
  destruct (Parse.opt_raw options) as [data|]; [|by intros ?%elem_of_nil].
  intros (i & f & -> & _)%elem_of_lookup_imap_1. by eexists _, _, _, _.
Qed.


(** ** C8: CVE suggestions from technology fingerprints *)

Lemma truthy_or_none_Some (o : option string) (x : string) :
  truthy_or_none o = Some x <-> o = Some x /\ x <> "".
Proof.
  unfold truthy_or_none, truthy. destruct o as [y|]; simpl.
  - destruct (decide (y = "")) as [->|Hne].
    + rewrite bool_decide_eq_true_2 by done. simpl.
      split; [done | by intros [[= <-] ?]].
    + rewrite bool_decide_eq_false_2 by done. simpl.
      split; [by intros [= <-] | by intros [? _]].
  - split; [done | by intros [? _]].
Qed.

(** The product token is the fifth colon-separated field, when there is one
    and it is not empty. *)
Lemma productToken_spec (cpe prod : string) :
  productToken cpe = Some prod <-> split ":" cpe !! 4 = Some prod /\ prod <> "".
Proof.
  unfold productToken, CveMatcher.parseCpe.
  destruct (decide (length (split ":" cpe) < 5)) as [Hlt|Hge]; simpl.
  - split; [done|]. intros [Hl _]. apply lookup_lt_Some in Hl. lia.
  - apply truthy_or_none_Some.
Qed.

Lemma suggestCvesFromTech_elem (tech : list CveMatcher.TechFingerprint)
    (index : CveMatcher.CveIndex) (fp : CveMatcher.TechFingerprint)
    (d : CveMatcher.CveDetail) :
  (fp, d) ∈ CveMatcher.suggestCvesFromTech tech index <->
  fp ∈ tech /\
  exists id cpe prod,
    (id, d) ∈ index /\ cpe ∈ CveMatcher.cpes d /\ productToken cpe = Some prod /\
    includes (toLowerCase (CveMatcher.name fp)) (toLowerCase prod) = true.
Proof.
  unfold CveMatcher.suggestCvesFromTech. rewrite list_elem_of_bind. split.
  - intros (fp' & Hin & Hfp).
    apply list_elem_of_bind in Hin as (d' & Hin & Hd).
    apply list_elem_of_bind in Hin as (cpe & Hin & Hcpe).
    apply list_elem_of_fmap in Hd as ([id d''] & -> & Hd). simpl in *.
    fold (productToken cpe) in Hin.
    destruct (productToken cpe) as [prod|] eqn:Hprod; [|by apply elem_of_nil in Hin].
    destruct (includes _ _) eqn:Hinc; [|by apply elem_of_nil in Hin].
    apply list_elem_of_singleton in Hin. injection Hin as -> ->.
    split; [done|]. by exists id, cpe, prod.
  - intros (Hfp & id & cpe & prod & Hd & Hcpe & Hprod & Hinc).
    exists fp. split; [|done].
    apply list_elem_of_bind. exists d. split.
    + apply list_elem_of_bind. exists cpe. split; [|done].
      fold (productToken cpe). rewrite Hprod, Hinc. by apply list_elem_of_singleton.
    + apply list_elem_of_fmap. by exists (id, d).
Qed.

Lemma hasLowerCase_spec (c : ascii) :
  hasLowerCase c = true <->
  ((65 <= N_of_ascii c <= 90) \/
   (192 <= N_of_ascii c <= 222 /\ N_of_ascii c <> 215))%N.
Proof.
  unfold hasLowerCase.
  rewrite orb_true_iff, !andb_true_iff, negb_true_iff, !N.leb_le, N.eqb_neq. tauto.
Qed.

Lemma N_of_toLowerChar (c : ascii) :
  N_of_ascii (toLowerChar c) =
    if hasLowerCase c then (N_of_ascii c + 32)%N else N_of_ascii c.
Proof.
  unfold toLowerChar. destruct (hasLowerCase c) eqn:Hc; [|done].
  apply N_ascii_embedding. apply hasLowerCase_spec in Hc. lia.
Qed.

Lemma toLowerChar_sameLetter (c d : ascii) :
  toLowerChar c = toLowerChar d <-> sameLetter c d.
Proof.
  assert (Hinj : forall a b : ascii, a = b <-> N_of_ascii a = N_of_ascii b).
  { intros a b. split; [by intros ->|]. intros H.
    by rewrite <- (ascii_N_embedding a), <- (ascii_N_embedding b), H. }
  unfold sameLetter, upperCaseOf. rewrite (Hinj (toLowerChar c)), (Hinj c d).
  rewrite !N_of_toLowerChar.
  pose proof (hasLowerCase_spec c) as Hc. pose proof (hasLowerCase_spec d) as Hd.
  destruct (hasLowerCase c), (hasLowerCase d); lia.
Qed.

Lemma toLowerCase_app (s t : string) :
  toLowerCase (s +:+ t) = toLowerCase s +:+ toLowerCase t.
Proof. induction s as [|c s IH]; simpl; [done | by rewrite IH]. Qed.

Lemma toLowerCase_split (s x y : string) :
  toLowerCase s = x +:+ y ->
  exists s1 s2, s = s1 +:+ s2 /\ toLowerCase s1 = x /\ toLowerCase s2 = y.
Proof.
  revert s. induction x as [|c x IH]; intros s Hs.
  - by exists "", s.
  - destruct s as [|c' s]; [done|]. simpl in Hs. injection Hs as Hc Hs.
    destruct (IH s Hs) as (s1 & s2 & -> & H1 & H2).
    exists (String c' s1), s2. simpl. by rewrite H1, Hc.
Qed.

Lemma toLowerCase_equalIgnoringCase (s t : string) :
  toLowerCase s = toLowerCase t <-> equalIgnoringCase s t.
Proof.
  revert t. induction s as [|c s IH]; intros [|d t]; simpl; try done.
  rewrite <- IH, <- toLowerChar_sameLetter. split.
  - by intros [= ? ?].
  - by intros [-> ->].
Qed.

Lemma includes_toLowerCase (s sub : string) :
  includes (toLowerCase s) (toLowerCase sub) = true <-> containsIgnoringCase s sub.
Proof.
  rewrite includes_spec. unfold containsIgnoringCase. split.
  - intros (a' & b' & Hs).
    apply toLowerCase_split in Hs as (a & mb & -> & Ha & Hmb).
    apply toLowerCase_split in Hmb as (m & b & -> & Hm & Hb).
    exists a, m, b. split; [done|]. by apply toLowerCase_equalIgnoringCase.
  - intros (a & m & b & -> & Hm). apply toLowerCase_equalIgnoringCase in Hm.
    exists (toLowerCase a), (toLowerCase b). by rewrite !toLowerCase_app, Hm.
Qed.

(** C8: [suggestCvesFromTech] yields the pair (fingerprint, index entry)
    exactly for the combinations of a fingerprint, an index entry and one of
    its platform identifiers whose product token is a case-insensitive
    substring of the fingerprint name: some stretch of the name equals the
    token up to the case of its letters.  The token is the fifth
    colon-separated field of the identifier, when it is not empty.  A
    fingerprint named "OpenSSH" therefore pairs with every index entry that
    lists an identifier whose product token is [openssh], and so do a name
    and a token that differ in the case of an accented letter. *)
Theorem suggest_matches_product_token (tech : list CveMatcher.TechFingerprint)
    (index : CveMatcher.CveIndex) :
  (forall fp d,
     (fp, d) ∈ CveMatcher.suggestCvesFromTech tech index <->
     fp ∈ tech /\
     exists id cpe prod,
       (id, d) ∈ index /\ cpe ∈ CveMatcher.cpes d /\
       (split ":" cpe !! 4 = Some prod /\ prod <> "") /\
       containsIgnoringCase (CveMatcher.name fp) prod) /\
  (forall fp id d cpe,
     fp ∈ tech -> CveMatcher.name fp = "OpenSSH" ->
     (id, d) ∈ index -> cpe ∈ CveMatcher.cpes d ->
     productToken cpe = Some "openssh" ->
     (fp, d) ∈ CveMatcher.suggestCvesFromTech tech index) /\
  (forall fp id d cpe,
     fp ∈ tech -> CveMatcher.name fp = cafeServer ->
     (id, d) ∈ index -> cpe ∈ CveMatcher.cpes d ->
     productToken cpe = Some cafeToken ->
     (fp, d) ∈ CveMatcher.suggestCvesFromTech tech index) /\
  productToken "cpe:2.3:a:openbsd:openssh:7.4:*:*:*:*:*:*:*" = Some "openssh".
Proof.
  split; [|split; [|split]].
  - intros fp d. rewrite suggestCvesFromTech_elem.
    split; intros (Hfp & id & cpe & prod & Hd & Hcpe & Hprod & Hinc);
      (split; [done|]); exists id, cpe, prod; repeat split; try done.
    + by apply productToken_spec in Hprod as [? ?].
    + by apply productToken_spec in Hprod as [? ?].
    + by apply includes_toLowerCase.
    + by apply productToken_spec.
    + by apply includes_toLowerCase.
  - intros fp id d cpe Hfp Hname Hd Hcpe Hprod.
    apply suggestCvesFromTech_elem. split; [done|].
    exists id, cpe, "openssh". rewrite Hname. repeat split; done.
  - intros fp id d cpe Hfp Hname Hd Hcpe Hprod.
    apply suggestCvesFromTech_elem. split; [done|].
    exists id, cpe, cafeToken. rewrite Hname. repeat split; done.
  - by vm_compute.
Qed.

(** ** Severity labels and pruning of empty fields *)

(** A source-native severity label is lower-cased and matched against the
    five canonical levels; a label that matches none, or no label at all,
    is medium. *)
Theorem normalizeSeverity_levels :
  (forall raw sev,
     toLowerCase raw = severityName sev ->
     Parse.normalizeSeverity (Some raw) = sev) /\
  (forall raw,
     (forall sev, toLowerCase raw <> severityName sev) ->
     Parse.normalizeSeverity (Some raw) = medium) /\
  Parse.normalizeSeverity None = medium /\
  Parse.normalizeSeverity (Some "HIGH") = high /\
  Parse.normalizeSeverity (Some "unknown") = medium.
Proof.
  split; [|split; [|by vm_compute]].
  - intros raw sev Hraw. unfold Parse.normalizeSeverity. simpl. rewrite Hraw.
    by destruct sev.
  - intros raw Hraw. unfold Parse.normalizeSeverity. simpl.
    destruct (decide (toLowerCase raw = "critical")) as [H|_];
      [by destruct (Hraw critical)|].
    destruct (decide (toLowerCase raw = "high")) as [H|_];
      [by destruct (Hraw high)|].
    destruct (decide (toLowerCase raw = "medium")) as [H|_]; [done|].
    destruct (decide (toLowerCase raw = "low")) as [H|_];
      [by destruct (Hraw low)|].
    destruct (decide (toLowerCase raw = "info")) as [H|_];
      [by destruct (Hraw info)|].
    done.
Qed.

Lemma truthy_or_none_nonempty (o : option string) : truthy_or_none o <> Some "".
Proof. by intros [_ ?]%truthy_or_none_Some. Qed.

(** A canonical finding never carries an empty description, category,
    remediation or evidence bag, and [pruneEmpty] keeps exactly the keys
    whose value is defined and is not the empty string. *)
Theorem baseVulnerability_prunes_empty (now : string) (params : Parse.BaseParams) :
  description (Parse.baseVulnerability now params) <> Some "" /\
  category (Parse.baseVulnerability now params) <> Some "" /\
  remediation (Parse.baseVulnerability now params) <> Some "" /\
  evidence (Parse.baseVulnerability now params) <> Some [] /\
  (forall obj k x,
     (k, x) ∈ Parse.pruneEmpty obj <-> (k, Some x) ∈ obj /\ x <> EvString "").
Proof.
  split; [apply truthy_or_none_nonempty|].
  split; [apply truthy_or_none_nonempty|].
  split; [apply truthy_or_none_nonempty|].
  split.
  - unfold Parse.baseVulnerability, evidence.
    destruct (Parse.p_evidence params) as [[|kv ev]|]; discriminate.
  - intros obj k x. unfold Parse.pruneEmpty. rewrite list_elem_of_omap. split.
    + intros ([k' [x'|]] & Hin & Hx); simpl in Hx; [|done].
      destruct x' as [[|? ?]| |]; by simplify_eq.
    + intros [Hin Hne]. exists (k, Some x).
      split; [done|]. simpl. by destruct x as [[|? ?]| |].
Qed.

(** ** The Result Normalizer *)

Lemma jsset_add_all_app `{EqDecision A} (s l k : list A) :
  jsset_add_all s (l ++ k) = jsset_add_all (jsset_add_all s l) k.
Proof. apply foldl_app. Qed.

Lemma elem_of_jsset_add `{EqDecision A} (s : list A) (x y : A) :
  y ∈ jsset_add s x <-> y ∈ s \/ y = x.
Proof.
  unfold jsset_add. destruct (decide (x ∈ s)) as [Hin|Hnin].
  - split; [by left | intros [?| ->]; done].
  - rewrite elem_of_app, list_elem_of_singleton. done.
Qed.

Lemma elem_of_jsset_add_all `{EqDecision A} (s l : list A) (y : A) :
  y ∈ jsset_add_all s l <-> y ∈ s \/ y ∈ l.
Proof.
  unfold jsset_add_all. revert s. induction l as [|x l IH]; intros s; simpl.
  - rewrite elem_of_nil. tauto.
  - rewrite IH, elem_of_jsset_add, elem_of_cons. tauto.
Qed.

Lemma NoDup_jsset_add `{EqDecision A} (s : list A) (x : A) :
  NoDup s -> NoDup (jsset_add s x).
Proof.
  intros Hs. unfold jsset_add. destruct (decide (x ∈ s)) as [Hin|Hnin]; [done|].
  apply NoDup_app. repeat split; [done | | apply NoDup_singleton].
  intros y Hy ->%list_elem_of_singleton. done.
Qed.

Lemma NoDup_jsset_add_all `{EqDecision A} (s l : list A) :
  NoDup s -> NoDup (jsset_add_all s l).
Proof.
  unfold jsset_add_all. revert s. induction l as [|x l IH]; intros s Hs; simpl; [done|].
  apply IH. by apply NoDup_jsset_add.
Qed.

Lemma jsmap_get_set `{EqDecision K} {V} (m : list (K * V)) (k k' : K) (v : V) :
  jsmap_get (jsmap_set m k v) k' = if decide (k' = k) then Some v else jsmap_get m k'.
Proof.
  induction m as [|[k0 v0] m IH]; simpl.
  - by destruct (decide (k' = k)).
  - destruct (decide (k = k0)) as [->|Hne]; simpl.
    + by destruct (decide (k' = k0)).
    + rewrite IH. destruct (decide (k' = k0)) as [->|?]; [|done].
      by destruct (decide (k0 = k)).
Qed.

Lemma jsmap_get_elem_of `{EqDecision K} {V} (m : list (K * V)) (k : K) (v : V) :
  jsmap_get m k = Some v -> (k, v) ∈ m.
Proof.
  induction m as [|[k0 v0] m IH]; simpl; [done|].
  destruct (decide (k = k0)) as [->|Hne].
  - intros [= ->]. by left.
  - intros Hget. right. by apply IH.
Qed.

Lemma withHost_get (m : list (string * Recon.HostEntry)) (h h' : string)
    (mutate : Recon.HostEntry -> Recon.HostEntry) :
  jsmap_get (Recon.withHost m h mutate) h' =
    if decide (h' = h) then Some (mutate (entryOf m h)) else jsmap_get m h'.
Proof.
  unfold Recon.withHost, Recon.upsertHost, entryOf.
  destruct (jsmap_get m h) as [r|] eqn:Hget; simpl.
  - by rewrite jsmap_get_set.
  - rewrite !jsmap_get_set. by destruct (decide (h' = h)).
Qed.

Lemma entryOf_withHost (m : list (string * Recon.HostEntry)) (h h' : string)
    (mutate : Recon.HostEntry -> Recon.HostEntry) :
  entryOf (Recon.withHost m h mutate) h' =
    if decide (h' = h) then mutate (entryOf m h) else entryOf m h'.
Proof.
  unfold entryOf at 1. rewrite withHost_get. by destruct (decide (h' = h)).
Qed.

(** A source's [forEach] seen from one host: only the entries of that host
    touch its record, in order. *)
Lemma entryOf_foldl_withHost {T} (key : T -> string)
    (mutate : T -> Recon.HostEntry -> Recon.HostEntry)
    (xs : list T) (m : list (string * Recon.HostEntry)) (h : string) :
  entryOf (foldl (fun m x => Recon.withHost m (key x) (mutate x)) m xs) h =
    foldl (fun r x => mutate x r) (entryOf m h) (filter (fun x => key x = h) xs).
Proof.
  revert m. induction xs as [|x xs IH]; intros m; simpl; [done|].
  rewrite IH, entryOf_withHost.
  destruct (decide (key x = h)) as [<-|Hne].
  - rewrite filter_cons_True by done. simpl.
    by destruct (decide (key x = key x)).
  - rewrite filter_cons_False by done.
    by destruct (decide (h = key x)) as [->|?].
Qed.

Lemma elem_of_truthyList (prefix : string) (x : option string) (y : string) :
  y ∈ truthyList prefix x <-> exists v, x = Some v /\ v <> "" /\ y = prefix +:+ v.
Proof.
  unfold truthyList, truthy. destruct x as [v|].
  - destruct (decide (v = "")) as [->|Hne].
    + rewrite bool_decide_eq_true_2 by done. simpl. rewrite elem_of_nil.
      split; [done | by intros (v & [= <-] & ? & _)].
    + rewrite bool_decide_eq_false_2 by done. simpl.
      rewrite list_elem_of_singleton. split.
      * intros ->. by exists v.
      * by intros (v' & [= <-] & _ & ->).
  - rewrite elem_of_nil. split; [done | by intros (v & ? & _)].
Qed.

Lemma addIfTruthy_truthyList (s : list string) (prefix : string) (x : option string) :
  Recon.addIfTruthy s prefix x = jsset_add_all s (truthyList prefix x).
Proof.
  unfold Recon.addIfTruthy, truthyList. destruct x as [v|]; [|done].
  by destruct (truthy (Some v)).
Qed.

Lemma viewOf_onSubfinder (x : Recon.SubfinderEntry) (r : Recon.HostEntry) :
  viewOf (Recon.onSubfinder x r) = mergeContribution (viewOf r) (contribSubfinder x).
Proof.
  unfold viewOf, mergeContribution, Recon.onSubfinder. simpl.
  rewrite !addIfTruthy_truthyList, orb_false_r. done.
Qed.

Lemma viewOf_onAmass (n : Recon.AmassNode) (r : Recon.HostEntry) :
  viewOf (Recon.onAmass n r) = mergeContribution (viewOf r) (contribAmass n).
Proof.
  unfold viewOf, mergeContribution, Recon.onAmass. simpl.
  rewrite orb_false_r. done.
Qed.

Lemma viewOf_onHttpx (x : Recon.HttpxEntry) (r : Recon.HostEntry) :
  viewOf (Recon.onHttpx x r) = mergeContribution (viewOf r) (contribHttpx x).
Proof.
  unfold viewOf, mergeContribution, Recon.onHttpx. simpl.
  rewrite !addIfTruthy_truthyList. done.
Qed.

Lemma viewOf_onSecuritytrails (x : Recon.StRecord) (r : Recon.HostEntry) :
  viewOf (Recon.onSecuritytrails x r) =
    mergeContribution (viewOf r) (contribSecuritytrails x).
Proof.
  unfold viewOf, mergeContribution, Recon.onSecuritytrails. simpl.
  rewrite !addIfTruthy_truthyList, orb_false_r. done.
Qed.

Lemma viewOf_foldl {T} (mutate : T -> Recon.HostEntry -> Recon.HostEntry)
    (contrib : T -> Contribution) :
  (forall x r, viewOf (mutate x r) = mergeContribution (viewOf r) (contrib x)) ->
  forall xs r,
    viewOf (foldl (fun r x => mutate x r) r xs) =
      foldl mergeContribution (viewOf r) (contrib <$> xs).
Proof.
  intros Hstep xs. induction xs as [|x xs IH]; intros r; simpl; [done|].
  by rewrite IH, Hstep.
Qed.

Lemma hostMap_foldl_onHost {T} (key : T -> string)
    (mutate : T -> Recon.HostEntry -> Recon.HostEntry) (xs : list T) (acc : Recon.Acc) :
  Recon.hostMap (foldl (Recon.onHost key mutate) acc xs) =
    foldl (fun m x => Recon.withHost m (key x) (mutate x)) (Recon.hostMap acc) xs /\
  Recon.countryByHost (foldl (Recon.onHost key mutate) acc xs)
    = Recon.countryByHost acc /\
  Recon.sourcesMeta (foldl (Recon.onHost key mutate) acc xs) = Recon.sourcesMeta acc.
Proof.
  revert acc. induction xs as [|x xs IH]; intros acc; simpl; [done|].
  destruct (IH (Recon.onHost key mutate acc x)) as (-> & -> & ->). done.
Qed.

Lemma readSource_onHost {T} (name : string) (data : option (list T))
    (key : T -> string) (mutate : T -> Recon.HostEntry -> Recon.HostEntry)
    (acc : Recon.Acc) :
  Recon.hostMap (Recon.readSource name data (Recon.onHost key mutate) acc) =
    foldl (fun m x => Recon.withHost m (key x) (mutate x)) (Recon.hostMap acc)
          (default [] data) /\
  Recon.countryByHost (Recon.readSource name data (Recon.onHost key mutate) acc)
    = Recon.countryByHost acc.
Proof.
  unfold Recon.readSource. destruct data as [data|]; simpl; [|done].
  match goal with |- context [foldl _ ?a data] =>
    destruct (hostMap_foldl_onHost key mutate data a) as (-> & -> & _) end.
  done.
Qed.

(** The country map holds, for each host, the last non-empty country read. *)
Lemma countryByHost_foldl (records : list Recon.StRecord) (acc : Recon.Acc) (h : string) :
  Recon.hostMap (foldl Recon.processSecuritytrails acc records) =
    foldl (fun m r => Recon.withHost m (Recon.st_hostname r) (Recon.onSecuritytrails r))
          (Recon.hostMap acc) records /\
  Recon.countryByHost (foldl Recon.processSecuritytrails acc records) !! h =
    match last (countriesFor h records) with
    | Some c => Some c
    | None => Recon.countryByHost acc !! h
    end.
Proof.
  revert acc. induction records as [|r records IH]; intros acc; simpl; [done|].
  destruct (IH (Recon.processSecuritytrails acc r)) as [-> ->]. split; [done|].
  unfold countriesFor, Recon.processSecuritytrails. simpl.
  fold (countriesFor h records). unfold truthy_or_none.
  destruct (decide (Recon.st_hostname r = h)) as [<-|Hne].
  - destruct (Recon.st_country r) as [c|] eqn:Hc; simpl; [|done].
    destruct (negb (bool_decide (c = ""))); simpl; [|done].
    rewrite last_cons. destruct (last (countriesFor _ records)); [done|].
    by rewrite lookup_insert_eq.
  - simpl. destruct (last (countriesFor h records)); [done|].
    destruct (Recon.st_country r) as [c|]; [|done]. simpl.
    destruct (negb (bool_decide (c = ""))); [|done].
    by rewrite lookup_insert_ne.
Qed.

Lemma readSource_securitytrails (data : option (list Recon.StRecord))
    (acc : Recon.Acc) (h : string) :
  Recon.hostMap (Recon.readSource "securitytrails" data Recon.processSecuritytrails acc) =
    foldl (fun m r => Recon.withHost m (Recon.st_hostname r) (Recon.onSecuritytrails r))
          (Recon.hostMap acc) (default [] data) /\
  Recon.countryByHost
    (Recon.readSource "securitytrails" data Recon.processSecuritytrails acc) !! h =
    match last (countriesFor h (default [] data)) with
    | Some c => Some c
    | None => Recon.countryByHost acc !! h
    end.
Proof.
  unfold Recon.readSource. destruct data as [data|]; simpl; [|done].
  match goal with |- context [foldl _ ?a data] =>
    destruct (countryByHost_foldl data a h) as [-> ->] end.
  done.
Qed.

Lemma accumulate_hostMap (inputs : Recon.ReconInputs) :
  Recon.hostMap (Recon.accumulate inputs) =
    foldl (fun m r => Recon.withHost m (Recon.st_hostname r) (Recon.onSecuritytrails r))
      (foldl (fun m x => Recon.withHost m (Recon.hx_host x) (Recon.onHttpx x))
         (foldl (fun m x => Recon.withHost m (Recon.am_name x) (Recon.onAmass x))
            (foldl (fun m x => Recon.withHost m (Recon.sf_host x) (Recon.onSubfinder x))
               [] (subfinderData inputs))
            (amassData inputs))
         (httpxData inputs))
      (securitytrailsData inputs).
Proof.
  unfold Recon.accumulate.
  rewrite (proj1 (readSource_securitytrails _ _ "")).
  rewrite (proj1 (readSource_onHost _ _ _ _ _)).
  rewrite (proj1 (readSource_onHost _ _ _ _ _)).
  rewrite (proj1 (readSource_onHost _ _ _ _ _)).
  done.
Qed.

Lemma accumulate_country (inputs : Recon.ReconInputs) (h : string) :
  Recon.countryByHost (Recon.accumulate inputs) !! h =
    last (countriesFor h (securitytrailsData inputs)).
Proof.
  unfold Recon.accumulate.
  rewrite (proj2 (readSource_securitytrails _ _ h)).
  rewrite (proj2 (readSource_onHost _ _ _ _ _)).
  rewrite (proj2 (readSource_onHost _ _ _ _ _)).
  rewrite (proj2 (readSource_onHost _ _ _ _ _)). simpl.
  rewrite lookup_empty. unfold securitytrailsData.
  by destruct (last _).
Qed.

Lemma viewOf_accumulate (inputs : Recon.ReconInputs) (h : string) :
  viewOf (entryOf (Recon.hostMap (Recon.accumulate inputs)) h) =
    foldl mergeContribution (viewOf (Recon.emptyHost h)) (contributionsFor h inputs).
Proof.
  rewrite accumulate_hostMap. unfold contributionsFor.
  rewrite !foldl_app.
  rewrite entryOf_foldl_withHost, (viewOf_foldl _ _ viewOf_onSecuritytrails).
  rewrite entryOf_foldl_withHost, (viewOf_foldl _ _ viewOf_onHttpx).
  rewrite entryOf_foldl_withHost, (viewOf_foldl _ _ viewOf_onAmass).
  rewrite entryOf_foldl_withHost, (viewOf_foldl _ _ viewOf_onSubfinder).
  done.
Qed.

Lemma foldl_mergeContribution (cs : list Contribution) (v : MergeView) :
  v_host (foldl mergeContribution v cs) = v_host v /\
  v_ips (foldl mergeContribution v cs) = jsset_add_all (v_ips v) (cs ≫= c_ips) /\
  v_tech (foldl mergeContribution v cs) = jsset_add_all (v_tech v) (cs ≫= c_tech) /\
  v_sources (foldl mergeContribution v cs)
    = jsset_add_all (v_sources v) (cs ≫= c_sources) /\
  v_titles (foldl mergeContribution v cs)
    = jsset_add_all (v_titles v) (cs ≫= c_titles) /\
  v_webservers (foldl mergeContribution v cs)
    = jsset_add_all (v_webservers v) (cs ≫= c_webservers) /\
  v_liveness (foldl mergeContribution v cs) = v_liveness v || existsb c_alive cs.
Proof.
  revert v. induction cs as [|c cs IH]; intros v.
  - simpl. by rewrite orb_false_r.
  - rewrite !bind_cons, !jsset_add_all_app. cbn [foldl existsb].
    destruct (IH (mergeContribution v c)) as (-> & -> & -> & -> & -> & -> & ->).
    simpl. by rewrite orb_assoc.
Qed.

(** Membership in what the sources report about [h], source by source. *)
Lemma elem_of_contributions (proj : Contribution -> list string) (t h : string)
    (inputs : Recon.ReconInputs) :
  t ∈ contributionsFor h inputs ≫= proj <->
  (exists x, x ∈ subfinderData inputs /\ Recon.sf_host x = h /\
             t ∈ proj (contribSubfinder x)) \/
  (exists n, n ∈ amassData inputs /\ Recon.am_name n = h /\
             t ∈ proj (contribAmass n)) \/
  (exists x, x ∈ httpxData inputs /\ Recon.hx_host x = h /\
             t ∈ proj (contribHttpx x)) \/
  (exists r, r ∈ securitytrailsData inputs /\ Recon.st_hostname r = h /\
             t ∈ proj (contribSecuritytrails r)).
Proof.
  unfold contributionsFor. rewrite !bind_app, !elem_of_app.
  assert (Hsrc : forall {T} (contrib : T -> Contribution) (key : T -> string)
                        (l : list T),
             t ∈ (contrib <$> filter (fun x => key x = h) l) ≫= proj <->
             exists x, x ∈ l /\ key x = h /\ t ∈ proj (contrib x)).
  { intros T contrib key l. rewrite list_elem_of_bind. split.
    - intros (c & Ht & (x & -> & [Hk Hx]%list_elem_of_filter)%list_elem_of_fmap).
      by exists x.
    - intros (x & Hx & Hk & Ht). exists (contrib x). split; [done|].
      apply list_elem_of_fmap. exists x. split; [done|].
      by apply list_elem_of_filter. }
  rewrite !Hsrc. done.
Qed.

Lemma number_lt_spec (x : number) (k : Q) : number_lt x k = true <-> isBelow x k.
Proof.
  destruct x as [q| | |]; simpl; try done.
  rewrite negb_true_iff. split.
  - intros Hle. apply Qnot_le_lt. intros H%Qle_bool_iff. congruence.
  - intros Hlt. destruct (Qle_bool k q) eqn:E; [|done].
    apply Qle_bool_iff in E. by apply Qlt_not_le in Hlt.
Qed.

Lemma existsb_alive_contributions (h : string) (inputs : Recon.ReconInputs) :
  existsb c_alive (contributionsFor h inputs) = true <->
  exists x, x ∈ httpxData inputs /\ Recon.hx_host x = h /\
            isBelow (Recon.hx_status_code x) 500.
Proof.
  unfold contributionsFor. rewrite !existsb_app, !orb_true_iff.
  assert (Hnone : forall {T} (contrib : T -> Contribution) (l : list T),
             (forall x, c_alive (contrib x) = false) ->
             existsb c_alive (contrib <$> l) = false).
  { intros T contrib l Hf. induction l as [|x l IH]; csimpl; [done|].
    by rewrite Hf, IH. }
  rewrite (Hnone _ contribSubfinder), (Hnone _ contribAmass),
    (Hnone _ contribSecuritytrails) by done.
  rewrite existsb_exists. split.
  - intros [?|[?|[(c & Hc & Halive)|?]]]; try done.
    apply list_elem_of_In, list_elem_of_fmap in Hc
      as (x & -> & [Hk Hx]%list_elem_of_filter).
    exists x. simpl in Halive. by apply number_lt_spec in Halive.
  - intros (x & Hx & Hk & Hlt). right; right; left.
    exists (contribHttpx x). split.
    + apply list_elem_of_In, list_elem_of_fmap. exists x. split; [done|].
      by apply list_elem_of_filter.
    + simpl. by apply number_lt_spec.
Qed.

Lemma countriesFor_nonempty (h : string) (records : list Recon.StRecord) (c : string) :
  c ∈ countriesFor h records ->
  c <> "" /\
  exists r, r ∈ records /\ Recon.st_hostname r = h /\ Recon.st_country r = Some c.
Proof.
  unfold countriesFor. intros (r & Hr & Hc)%list_elem_of_omap.
  destruct (decide (Recon.st_hostname r = h)) as [Hh|]; [|done].
  apply truthy_or_none_Some in Hc as [Hc Hne]. split; [done|]. by exists r.
Qed.

Lemma truthy_or_none_last_country (h : string) (records : list Recon.StRecord) :
  truthy_or_none (last (countriesFor h records)) = last (countriesFor h records).
Proof.
  destruct (last (countriesFor h records)) as [c|] eqn:Hlast; [|done].
  apply last_Some_elem_of, countriesFor_nonempty in Hlast as [Hne _].
  unfold truthy_or_none, truthy. by rewrite bool_decide_eq_false_2.
Qed.

(** Every host of the map gets its record, built from its accumulator. *)
Lemma normalizeRecon_emitted (clock : nat -> string) (inputs : Recon.ReconInputs)
    (rs : list Recon.ReconResult) (h : string) (e : Recon.HostEntry) :
  Recon.normalizeRecon clock inputs = Some rs ->
  jsmap_get (Recon.hostMap (Recon.accumulate inputs)) h = Some e ->
  exists i r, rs !! i = Some r /\
    Recon.emit inputs (Recon.accumulate inputs) (clock 0) (clock (S i)) e = Some r.
Proof.
  unfold Recon.normalizeRecon. intros Hrs%mapM_Some_1 Hget.
  apply jsmap_get_elem_of, list_elem_of_lookup in Hget as [i Hi].
  eapply Forall2_lookup_l in Hrs as (r & Hr & Hemit);
    [|by rewrite list_lookup_imap, Hi].
  by exists i, r.
Qed.

Lemma emit_fields (inputs : Recon.ReconInputs) (acc : Recon.Acc) (now stamp : string)
    (e : Recon.HostEntry) (r : Recon.ReconResult) :
  Recon.emit inputs acc now stamp e = Some r ->
  Recon.subdomain r = Some (Recon.host e) /\
  Recon.ip r = head (Recon.ips e) /\
  Recon.rr_tech r = Recon.tech e /\
  Recon.isAlive r = Recon.liveness e /\
  Recon.fingerprints r =
    {| Recon.fp_titles := Recon.titles e;
       Recon.fp_webservers := Recon.webservers e;
       Recon.fp_country :=
         truthy_or_none (Recon.countryByHost acc !! Recon.host e) |} /\
  Recon.contributors <$> Recon.rr_sources r = [Recon.sources e].
Proof.
  unfold Recon.emit. destruct (forallb _ _); [|done]. by intros [= <-].
Qed.

(** C3, as the specification states it, fails: the record of [foo.bar]
    carries every title and web server reported, not the first one only, and
    its country is the last one reported ("DE"), which has replaced the
    first ("US"). *)
Lemma normalizeRecon_country_last_wins :
  (fun rs : list Recon.ReconResult => Recon.fingerprints <$> rs)
    <$> Recon.normalizeRecon (fun _ => "2026-01-01T00:00:00.000Z") conflictingReports
  = Some [{| Recon.fp_titles := ["Welcome"; "Login"];
             Recon.fp_webservers := ["nginx"; "apache"];
             Recon.fp_country := Some "DE" |}] /\
  head (countriesFor "foo.bar" (securitytrailsData conflictingReports)) = Some "US" /\
  Some "DE" <> Some "US".
Proof. split; [by vm_compute|]. split; [by vm_compute | done]. Qed.

(** C3 (amended): the accumulator of a host unions, as duplicate-free sets,
    the IP addresses, technology names and provenance tags the sources report
    for that host, and likewise every non-empty title and web server; its
    liveness is the OR of the httpx observations (status below 500); the
    country is the last non-empty one securitytrails reports for the host.
    The emitted record shows the first address, and the sets, liveness and
    country as accumulated. *)
Theorem normalizeRecon_merge_policy (inputs : Recon.ReconInputs) (h : string)
    (e : Recon.HostEntry) :
  jsmap_get (Recon.hostMap (Recon.accumulate inputs)) h = Some e ->
  Recon.host e = h /\
  (NoDup (Recon.ips e) /\
   forall a, a ∈ Recon.ips e <->
     (exists x, x ∈ subfinderData inputs /\ Recon.sf_host x = h /\
                Recon.sf_ip x = Some a /\ a <> "") \/
     (exists n, n ∈ amassData inputs /\ Recon.am_name n = h /\
                a ∈ Recon.am_addresses n) \/
     (exists x, x ∈ httpxData inputs /\ Recon.hx_host x = h /\
                a ∈ Recon.ensureArray (Recon.hx_a x))) /\
  (NoDup (Recon.tech e) /\
   forall t, t ∈ Recon.tech e <->
     exists x, x ∈ httpxData inputs /\ Recon.hx_host x = h /\
               t ∈ Recon.ensureArray (Recon.hx_tech x)) /\
  (NoDup (Recon.sources e) /\
   forall s, s ∈ Recon.sources e <->
     (exists x src, x ∈ subfinderData inputs /\ Recon.sf_host x = h /\
                    Recon.sf_source x = Some src /\ src <> "" /\
                    s = "subfinder:" +:+ src) \/
     (exists n src, n ∈ amassData inputs /\ Recon.am_name n = h /\
                    src ∈ Recon.am_sources n /\ s = "amass:" +:+ src) \/
     (exists r org, r ∈ securitytrailsData inputs /\ Recon.st_hostname r = h /\
                    Recon.st_organization r = Some org /\ org <> "" /\
                    s = "securitytrails:" +:+ org)) /\
  (Recon.liveness e = true <->
     exists x, x ∈ httpxData inputs /\ Recon.hx_host x = h /\
               isBelow (Recon.hx_status_code x) 500) /\
  (NoDup (Recon.titles e) /\
   forall t, t ∈ Recon.titles e <->
     exists x, x ∈ httpxData inputs /\ Recon.hx_host x = h /\
               Recon.hx_title x = Some t /\ t <> "") /\
  (NoDup (Recon.webservers e) /\
   forall w, w ∈ Recon.webservers e <->
     exists x, x ∈ httpxData inputs /\ Recon.hx_host x = h /\
               Recon.hx_webserver x = Some w /\ w <> "") /\
  Recon.countryByHost (Recon.accumulate inputs) !! h
    = last (countriesFor h (securitytrailsData inputs)) /\
  (forall clock rs,
     Recon.normalizeRecon clock inputs = Some rs ->
     exists r, r ∈ rs /\
       Recon.subdomain r = Some h /\
       Recon.ip r = head (Recon.ips e) /\
       Recon.rr_tech r = Recon.tech e /\
       Recon.isAlive r = Recon.liveness e /\
       Recon.fingerprints r =
         {| Recon.fp_titles := Recon.titles e;
            Recon.fp_webservers := Recon.webservers e;
            Recon.fp_country := last (countriesFor h (securitytrailsData inputs)) |} /\
       Recon.contributors <$> Recon.rr_sources r = [Recon.sources e]).
Proof.
  intros Hget.
  assert (He : e = entryOf (Recon.hostMap (Recon.accumulate inputs)) h)
    by (unfold entryOf; by rewrite Hget).
  pose proof (viewOf_accumulate inputs h) as Hview. rewrite <- He in Hview.
  destruct (foldl_mergeContribution (contributionsFor h inputs)
              (viewOf (Recon.emptyHost h)))
    as (Hhost & Hips & Htech & Hsrc & Htitles & Hweb & Hlive).
  rewrite <- Hview in Hhost, Hips, Htech, Hsrc, Htitles, Hweb, Hlive.
  simpl in Hhost, Hips, Htech, Hsrc, Htitles, Hweb, Hlive.
  assert (Hmem : forall (proj : Contribution -> list string) t,
             t ∈ jsset_add_all [] (contributionsFor h inputs ≫= proj) <->
             t ∈ contributionsFor h inputs ≫= proj).
  { intros proj t. rewrite elem_of_jsset_add_all, elem_of_nil. tauto. }
  split; [done|]. split; [|split; [|split; [|split; [|split; [|split; [|split]]]]]].
  - rewrite Hips. split; [apply NoDup_jsset_add_all, NoDup_nil_2|].
    intros a. rewrite Hmem, elem_of_contributions. simpl.
    setoid_rewrite elem_of_truthyList. setoid_rewrite elem_of_nil.
    split.
    + intros [(x & Hx & Hk & v & Hv & Hne & ->)|[?|[?|(? & ? & ? & [])]]]; auto.
      left. by exists x.
    + intros [(x & Hx & Hk & Hv & Hne)|[?|?]]; auto.
      left. exists x. repeat split; try done. by exists a.
  - rewrite Htech. split; [apply NoDup_jsset_add_all, NoDup_nil_2|].
    intros t. rewrite Hmem, elem_of_contributions. simpl.
    setoid_rewrite elem_of_nil.
    split.
    + intros [(? & ? & ? & [])|[(? & ? & ? & [])|[?|(? & ? & ? & [])]]]; auto.
    + intros ?; auto.
  - rewrite Hsrc. split; [apply NoDup_jsset_add_all, NoDup_nil_2|].
    intros s. rewrite Hmem, elem_of_contributions. simpl.
    setoid_rewrite elem_of_truthyList. setoid_rewrite elem_of_nil.
    setoid_rewrite list_elem_of_fmap.
    split.
    + intros [(x & Hx & Hk & v & Hv & Hne & ->)
             |[(n & Hn & Hk & src & -> & Hsrc')
             |[(? & ? & ? & [])|(r & Hr & Hk & v & Hv & Hne & ->)]]].
      * left. by exists x, v.
      * right; left. by exists n, src.
      * right; right. by exists r, v.
    + intros [(x & src & Hx & Hk & Hv & Hne & ->)
             |[(n & src & Hn & Hk & Hsrc' & ->)
             |(r & org & Hr & Hk & Hv & Hne & ->)]].
      * left. exists x. repeat split; try done. by exists src.
      * right; left. exists n. repeat split; try done. by exists src.
      * right; right; right. exists r. repeat split; try done. by exists org.
  - rewrite Hlive. simpl. apply existsb_alive_contributions.
  - rewrite Htitles. split; [apply NoDup_jsset_add_all, NoDup_nil_2|].
    intros t. rewrite Hmem, elem_of_contributions. simpl.
    setoid_rewrite elem_of_truthyList. setoid_rewrite elem_of_nil.
    split.
    + intros [(? & ? & ? & [])|[(? & ? & ? & [])
             |[(x & Hx & Hk & v & Hv & Hne & ->)|(? & ? & ? & [])]]].
      by exists x.
    + intros (x & Hx & Hk & Hv & Hne). right; right; left.
      exists x. repeat split; try done. by exists t.
  - rewrite Hweb. split; [apply NoDup_jsset_add_all, NoDup_nil_2|].
    intros w. rewrite Hmem, elem_of_contributions. simpl.
    setoid_rewrite elem_of_truthyList. setoid_rewrite elem_of_nil.
    split.
    + intros [(? & ? & ? & [])|[(? & ? & ? & [])
             |[(x & Hx & Hk & v & Hv & Hne & ->)|(? & ? & ? & [])]]].
      by exists x.
    + intros (x & Hx & Hk & Hv & Hne). right; right; left.
      exists x. repeat split; try done. by exists w.
  - apply accumulate_country.
  - intros clock rs Hrs.
    destruct (normalizeRecon_emitted _ _ _ _ _ Hrs Hget) as (i & r & Hi & Hemit).
    exists r. split; [by eapply list_elem_of_lookup_2|].
    apply emit_fields in Hemit as (Hsub & Hip & Ht & Ha & Hfp & Hc).
    rewrite Hhost in Hsub, Hfp.
    rewrite accumulate_country, truthy_or_none_last_country in Hfp.
    done.
Qed.

(** The merge example of the specification satisfies the hypothesis of C3:
    [foo.bar] is in the host map, alive, with the address 1.2.3.4 and the
    technology nginx. *)
Lemma normalizeRecon_merge_policy_witness :
  jsmap_get (Recon.hostMap (Recon.accumulate mergeExample)) "foo.bar"
    = Some mergedFooBar /\
  (forall clock rs,
     Recon.normalizeRecon clock mergeExample = Some rs ->
     exists r, r ∈ rs /\
       Recon.subdomain r = Some "foo.bar" /\
       Recon.ip r = Some "1.2.3.4" /\
       Recon.rr_tech r = ["nginx"] /\
       Recon.isAlive r = true).
Proof.
  assert (Hget : jsmap_get (Recon.hostMap (Recon.accumulate mergeExample)) "foo.bar"
                 = Some mergedFooBar) by (by vm_compute).
  split; [exact Hget|]. intros clock rs Hrs.
  destruct (normalizeRecon_merge_policy mergeExample "foo.bar" mergedFooBar Hget)
    as (_ & _ & _ & _ & _ & _ & _ & _ & Hout).
  destruct (Hout clock rs Hrs) as (r & Hr & Hsub & Hip & Htech & Halive & _).
  exists r. done.
Defined.

(** *** One record per host, in order of first encounter *)

Lemma jsmap_set_keys `{EqDecision K} {V} (m : list (K * V)) (k : K) (v : V) :
  (jsmap_set m k v).*1 = jsset_add (m.*1) k.
Proof.
  unfold jsset_add. induction m as [|[k0 v0] m IH]; csimpl.
  - destruct (decide (k ∈ [])) as [Hin|_]; [by apply elem_of_nil in Hin | done].
  - destruct (decide (k = k0)) as [->|Hne]; csimpl.
    + destruct (decide (k0 ∈ k0 :: m.*1)) as [_|Hnin]; [done|].
      exfalso. apply Hnin. by left.
    + rewrite IH.
      destruct (decide (k ∈ m.*1)) as [Hin|Hnin];
        destruct (decide (k ∈ k0 :: m.*1)) as [Hin'|Hnin']; try done.
      * exfalso. apply Hnin'. by right.
      * apply elem_of_cons in Hin' as [?|?]; done.
Qed.

Lemma jsset_add_idemp `{EqDecision A} (s : list A) (x : A) :
  jsset_add (jsset_add s x) x = jsset_add s x.
Proof.
  unfold jsset_add at 1. destruct (decide (x ∈ jsset_add s x)) as [_|Hnin]; [done|].
  exfalso. apply Hnin, elem_of_jsset_add. by right.
Qed.

Lemma withHost_keys (m : list (string * Recon.HostEntry)) (h : string)
    (mutate : Recon.HostEntry -> Recon.HostEntry) :
  (Recon.withHost m h mutate).*1 = jsset_add (m.*1) h.
Proof.
  unfold Recon.withHost, Recon.upsertHost.
  destruct (jsmap_get m h); rewrite !jsmap_set_keys; [done|].
  apply jsset_add_idemp.
Qed.

Lemma foldl_withHost_keys {T} (key : T -> string)
    (mutate : T -> Recon.HostEntry -> Recon.HostEntry) (xs : list T)
    (m : list (string * Recon.HostEntry)) :
  (foldl (fun m x => Recon.withHost m (key x) (mutate x)) m xs).*1 =
    jsset_add_all (m.*1) (key <$> xs).
Proof.
  unfold jsset_add_all. revert m.
  induction xs as [|x xs IH]; intros m; csimpl; [done|].
  by rewrite IH, withHost_keys.
Qed.

Lemma accumulate_keys (inputs : Recon.ReconInputs) :
  (Recon.hostMap (Recon.accumulate inputs)).*1 =
    jsset_add_all [] (reportedHosts inputs).
Proof.
  rewrite accumulate_hostMap, !foldl_withHost_keys. unfold reportedHosts.
  by rewrite !jsset_add_all_app.
Qed.

Lemma jsmap_set_hosts (m : list (string * Recon.HostEntry)) (h : string)
    (r : Recon.HostEntry) :
  Recon.host r = h ->
  Forall (fun kv => Recon.host kv.2 = kv.1) m ->
  Forall (fun kv => Recon.host kv.2 = kv.1) (jsmap_set m h r).
Proof.
  intros Hr. induction m as [|[k0 v0] m IH]; simpl; intros Hm.
  - by constructor.
  - apply Forall_cons in Hm as [H0 Hm].
    destruct (decide (h = k0)); constructor; auto.
Qed.

Lemma jsmap_get_hosts (m : list (string * Recon.HostEntry)) (h : string)
    (r : Recon.HostEntry) :
  Forall (fun kv => Recon.host kv.2 = kv.1) m ->
  jsmap_get m h = Some r -> Recon.host r = h.
Proof.
  intros Hm Hget%jsmap_get_elem_of.
  by apply (proj1 (Forall_forall _ _) Hm (h, r)).
Qed.

Lemma withHost_hosts (m : list (string * Recon.HostEntry)) (h : string)
    (mutate : Recon.HostEntry -> Recon.HostEntry) :
  (forall r, Recon.host (mutate r) = Recon.host r) ->
  Forall (fun kv => Recon.host kv.2 = kv.1) m ->
  Forall (fun kv => Recon.host kv.2 = kv.1) (Recon.withHost m h mutate).
Proof.
  intros Hmut Hm. unfold Recon.withHost, Recon.upsertHost.
  destruct (jsmap_get m h) as [r|] eqn:Hget.
  - apply jsmap_set_hosts; [|done]. rewrite Hmut. by eapply jsmap_get_hosts.
  - apply jsmap_set_hosts; [by rewrite Hmut|]. by apply jsmap_set_hosts.
Qed.

Lemma foldl_withHost_hosts {T} (key : T -> string)
    (mutate : T -> Recon.HostEntry -> Recon.HostEntry) (xs : list T)
    (m : list (string * Recon.HostEntry)) :
  (forall x r, Recon.host (mutate x r) = Recon.host r) ->
  Forall (fun kv => Recon.host kv.2 = kv.1) m ->
  Forall (fun kv => Recon.host kv.2 = kv.1)
    (foldl (fun m x => Recon.withHost m (key x) (mutate x)) m xs).
Proof.
  intros Hmut. revert m. induction xs as [|x xs IH]; intros m Hm; simpl; [done|].
  apply IH, withHost_hosts; [apply Hmut | done].
Qed.

Lemma accumulate_hosts (inputs : Recon.ReconInputs) :
  Forall (fun kv => Recon.host kv.2 = kv.1) (Recon.hostMap (Recon.accumulate inputs)).
Proof.
  rewrite accumulate_hostMap.
  repeat (apply foldl_withHost_hosts; [done|]). constructor.
Qed.

Lemma normalizeRecon_subdomains (clock : nat -> string)
    (inputs : Recon.ReconInputs) (rs : list Recon.ReconResult) :
  Recon.normalizeRecon clock inputs = Some rs ->
  Recon.subdomain <$> rs = Some <$> (Recon.hostMap (Recon.accumulate inputs)).*1.
Proof.
  unfold Recon.normalizeRecon. cbv zeta. intros Hrs%mapM_Some_1.
  pose proof (Forall2_length _ _ _ Hrs) as Hlen. rewrite length_imap in Hlen.
  apply list_eq. intros i. rewrite !list_lookup_fmap.
  destruct (Recon.hostMap (Recon.accumulate inputs) !! i) as [[k e]|] eqn:Hi.
  - destruct (Forall2_lookup_l _ _ _ i _ Hrs
                ltac:(by rewrite list_lookup_imap, Hi)) as (r & -> & Hemit).
    apply emit_fields in Hemit as (Hsub & _). simpl. rewrite Hsub.
    pose proof (accumulate_hosts inputs) as Hhosts.
    do 2 f_equal. apply (proj1 (Forall_lookup _ _) Hhosts i (k, e) Hi).
  - apply lookup_ge_None in Hi. rewrite lookup_ge_None_2 by lia. done.
Qed.

(** The records [normalizeRecon] returns are one per distinct host string
    the sources report, in the order in which the hosts were first met. *)
Theorem normalizeRecon_one_record_per_host (clock : nat -> string)
    (inputs : Recon.ReconInputs) (rs : list Recon.ReconResult) :
  Recon.normalizeRecon clock inputs = Some rs ->
  Recon.subdomain <$> rs = Some <$> jsset_add_all [] (reportedHosts inputs) /\
  NoDup (Recon.subdomain <$> rs) /\
  (forall h, Some h ∈ Recon.subdomain <$> rs <-> h ∈ reportedHosts inputs).
Proof.
  intros Hrs%normalizeRecon_subdomains. rewrite accumulate_keys in Hrs.
  rewrite Hrs. split; [done|]. split.
  - apply (NoDup_fmap_2 Some), NoDup_jsset_add_all, NoDup_nil_2.
  - intros h. rewrite (list_elem_of_fmap_inj Some), elem_of_jsset_add_all, elem_of_nil.
    tauto.
Qed.

(** The merge example yields one record, for [foo.bar]. *)
Lemma normalizeRecon_one_record_per_host_witness :
  (exists rs,
     Recon.normalizeRecon (fun _ => "2026-01-01T00:00:00.000Z") mergeExample
       = Some rs) /\
  (forall rs,
     Recon.normalizeRecon (fun _ => "2026-01-01T00:00:00.000Z") mergeExample
       = Some rs ->
     Recon.subdomain <$> rs = [Some "foo.bar"]).
Proof.
  split.
  - eexists. vm_compute. reflexivity.
  - intros rs Hrs.
    exact (proj1 (normalizeRecon_one_record_per_host _ mergeExample rs Hrs)).
Defined.

(** ** C9: normalization does not depend on when it runs *)

Lemma emit_sameRecord (inputs : Recon.ReconInputs) (acc : Recon.Acc)
    (now1 stamp1 now2 stamp2 : string) (e : Recon.HostEntry) :
  option_Forall2 sameRecord
    (Recon.emit inputs acc now1 stamp1 e) (Recon.emit inputs acc now2 stamp2 e).
Proof.
  unfold Recon.emit. destruct (forallb _ _); constructor. repeat split.
Qed.

Lemma mapM_imap_Forall2 {A B} (R : B -> B -> Prop) (f g : nat -> A -> option B)
    (l : list A) :
  (forall i x, option_Forall2 R (f i x) (g i x)) ->
  option_Forall2 (Forall2 R) (mapM id (imap f l)) (mapM id (imap g l)).
Proof.
  revert f g. induction l as [|x l IH]; intros f g Hfg; csimpl.
  - by repeat constructor.
  - destruct (Hfg 0 x) as [y1 y2 Hy|]; csimpl; [|constructor].
    assert (Hrest : forall i x', option_Forall2 R ((f ∘ S) i x') ((g ∘ S) i x'))
      by (intros i x'; apply Hfg).
    pose proof (IH (f ∘ S) (g ∘ S) Hrest) as Hk.
    destruct (mapM id (imap (f ∘ S) l)) as [k1|],
             (mapM id (imap (g ∘ S) l)) as [k2|];
      inversion Hk; subst; csimpl; constructor.
    by constructor.
Qed.

(** C9: two runs of [normalizeRecon] on the same inputs, whatever the clock
    reads, either both throw or both return the same hosts in the same
    order, with the same target, IP, ports, technologies, liveness,
    fingerprints, provenance and tags; only the timestamps [lastChecked],
    [createdAt] and [updatedAt], which are clock readings, may differ. *)
Theorem normalizeRecon_idempotent (clock1 clock2 : nat -> string)
    (inputs : Recon.ReconInputs) :
  (forall rs1,
     Recon.normalizeRecon clock1 inputs = Some rs1 ->
     exists rs2, Recon.normalizeRecon clock2 inputs = Some rs2 /\
                 Forall2 sameRecord rs1 rs2) /\
  (Recon.normalizeRecon clock1 inputs = None ->
   Recon.normalizeRecon clock2 inputs = None) /\
  (forall rs, Recon.normalizeRecon clock1 inputs = Some rs ->
     Forall (fun r => Recon.lastChecked r = clock1 0) rs).
Proof.
  assert (H12 : option_Forall2 (Forall2 sameRecord)
                  (Recon.normalizeRecon clock1 inputs)
                  (Recon.normalizeRecon clock2 inputs)).
  { unfold Recon.normalizeRecon. apply mapM_imap_Forall2.
    intros i kv. apply emit_sameRecord. }
  split; [|split].
  - intros rs1 Hrs1. rewrite Hrs1 in H12. inversion H12 as [? rs2 Hrs|]; subst.
    by exists rs2.
  - intros Hnone. rewrite Hnone in H12. by inversion H12.
  - unfold Recon.normalizeRecon. intros rs Hrs%mapM_Some_1.
    apply Forall_lookup_2. intros i r Hr.
    eapply Forall2_lookup_r in Hrs as (o & Ho & Hemit); [|exact Hr].
    apply list_lookup_imap_Some in Ho as (kv & _ & ->).
    unfold id, Recon.emit in Hemit.
    destruct (forallb _ _); [|done]. by injection Hemit as <-.
Qed.

(** ** Ports and provenance of the canonical host records *)

Lemma jsmap_keys_foldl_set {T V} `{EqDecision K} (key : T -> K) (val : T -> V)
    (xs : list T) (m : list (K * V)) :
  (foldl (fun m x => jsmap_set m (key x) (val x)) m xs).*1 =
    jsset_add_all (m.*1) (key <$> xs).
Proof.
  unfold jsset_add_all. revert m. induction xs as [|x xs IH]; intros m; csimpl; [done|].
  by rewrite IH, jsmap_set_keys.
Qed.

Lemma jsmap_elem_of_get `{EqDecision K} {V} (m : list (K * V)) (k : K) (v : V) :
  NoDup (m.*1) -> (k, v) ∈ m -> jsmap_get m k = Some v.
Proof.
  induction m as [|[k0 v0] m IH]; csimpl; intros Hnd Hin.
  - by apply elem_of_nil in Hin.
  - apply NoDup_cons in Hnd as [Hk0 Hnd].
    apply elem_of_cons in Hin as [[= -> ->]|Hin].
    + by destruct (decide (k0 = k0)).
    + destruct (decide (k = k0)) as [->|Hne]; [|by apply IH].
      exfalso. apply Hk0. apply list_elem_of_fmap. by exists (k0, v).
Qed.

Lemma jsmap_get_is_Some `{EqDecision K} {V} (m : list (K * V)) (k : K) :
  k ∈ m.*1 -> is_Some (jsmap_get m k).
Proof.
  induction m as [|[k0 v0] m IH]; csimpl; intros Hin.
  - by apply elem_of_nil in Hin.
  - destruct (decide (k = k0)) as [->|Hne]; [by eexists|].
    apply IH. by apply elem_of_cons in Hin as [?|?].
Qed.

(** A map with distinct keys is its key list paired with the lookups. *)
Lemma jsmap_by_keys `{EqDecision K} {V} (m : list (K * V)) (f : K -> V) :
  NoDup (m.*1) ->
  (forall k, k ∈ m.*1 -> jsmap_get m k = Some (f k)) ->
  m = (fun k => (k, f k)) <$> m.*1.
Proof.
  induction m as [|[k0 v0] m IH]; csimpl; intros Hnd Hget; [done|].
  apply NoDup_cons in Hnd as [Hk0 Hnd].
  pose proof (Hget k0 ltac:(by left)) as H0.
  destruct (decide (k0 = k0)); [|done]. injection H0 as ->. f_equal.
  apply IH; [done|]. intros k Hk. specialize (Hget k ltac:(by right)).
  destruct (decide (k = k0)) as [->|]; done.
Qed.

(** The port map under a source's mutation. *)
Lemma ports_onSubfinder (x : Recon.SubfinderEntry) (r : Recon.HostEntry) :
  Recon.ports (Recon.onSubfinder x r) = Recon.ports r.
Proof. done. Qed.

Lemma ports_onAmass (x : Recon.AmassNode) (r : Recon.HostEntry) :
  Recon.ports (Recon.onAmass x r) = Recon.ports r.
Proof. done. Qed.

Lemma ports_onHttpx (x : Recon.HttpxEntry) (r : Recon.HostEntry) :
  Recon.ports (Recon.onHttpx x r) = portStep (Recon.ports r) (FromHttpx x).
Proof.
  unfold Recon.onHttpx, portStep, mergeOffer. simpl. f_equal.
  destruct (jsmap_get (Recon.ports r) (Recon.hx_port x)) as [[[p|] [s|]]|]; done.
Qed.

Lemma onStPort_portStep (ports : list (number * Recon.PortInfo)) (p : Recon.StPort) :
  Recon.onStPort ports p = portStep ports (FromSecuritytrails p).
Proof.
  unfold Recon.onStPort, portStep, mergeOffer. simpl. unfold truthy_or_none. f_equal.
  destruct (truthy (Recon.sp_protocol p)), (truthy (Recon.sp_service p));
    destruct (jsmap_get ports (Recon.sp_port p)) as [[[?|] [?|]]|]; done.
Qed.

Lemma ports_onSecuritytrails (x : Recon.StRecord) (r : Recon.HostEntry) :
  Recon.ports (Recon.onSecuritytrails x r)
    = foldl portStep (Recon.ports r) (FromSecuritytrails <$> Recon.st_ports x).
Proof.
  unfold Recon.onSecuritytrails. simpl. generalize (Recon.ports r).
  induction (Recon.st_ports x) as [|p ps IH]; intros m; csimpl; [done|].
  by rewrite IH, onStPort_portStep.
Qed.

Lemma ports_foldl {T} (mutate : T -> Recon.HostEntry -> Recon.HostEntry)
    (reports : T -> list PortReport) :
  (forall x r, Recon.ports (mutate x r) = foldl portStep (Recon.ports r) (reports x)) ->
  forall xs r,
    Recon.ports (foldl (fun r x => mutate x r) r xs) =
      foldl portStep (Recon.ports r) (xs ≫= reports).
Proof.
  intros Hstep xs. induction xs as [|x xs IH]; intros r; csimpl; [done|].
  by rewrite IH, Hstep, foldl_app.
Qed.

Lemma ports_accumulate (inputs : Recon.ReconInputs) (h : string) :
  Recon.ports (entryOf (Recon.hostMap (Recon.accumulate inputs)) h) =
    foldl portStep [] (portReportsFor h inputs).
Proof.
  rewrite accumulate_hostMap. unfold portReportsFor. rewrite foldl_app.
  rewrite entryOf_foldl_withHost, (ports_foldl _ _ ports_onSecuritytrails).
  rewrite entryOf_foldl_withHost,
    (ports_foldl _ (fun x => [FromHttpx x])) by (intros; apply ports_onHttpx).
  rewrite entryOf_foldl_withHost,
    (ports_foldl _ (fun _ => [])) by (intros; apply ports_onAmass).
  rewrite entryOf_foldl_withHost,
    (ports_foldl _ (fun _ => [])) by (intros; apply ports_onSubfinder).
  assert (Hnil : forall {T} (l : list T), l ≫= (fun _ => @nil PortReport) = [])
    by (intros T l; induction l; csimpl; done).
  assert (Hone : forall l : list Recon.HttpxEntry,
             l ≫= (fun x => [FromHttpx x]) = FromHttpx <$> l)
    by (intros l; induction l as [|x l IH]; csimpl; [done | by rewrite IH]).
  by rewrite !Hnil, Hone.
Qed.

Lemma portStep_keys (rs : list PortReport) (m : list (number * Recon.PortInfo)) :
  (foldl portStep m rs).*1 = jsset_add_all (m.*1) (reportedPort <$> rs).
Proof.
  unfold jsset_add_all. revert m. induction rs as [|r rs IH]; intros m; csimpl; [done|].
  rewrite IH. unfold portStep. by rewrite jsmap_set_keys.
Qed.

Lemma foldl_mergeOffer (rs : list PortReport) (info : Recon.PortInfo) :
  foldl mergeOffer info rs =
    {| Recon.protocol := match Recon.protocol info with
                         | Some x => Some x
                         | None => head (omap offeredProtocol rs)
                         end;
       Recon.service := match Recon.service info with
                        | Some x => Some x
                        | None => head (omap offeredService rs)
                        end |}.
Proof.
  revert info. induction rs as [|r rs IH]; intros [pr sv]; csimpl.
  - by destruct pr, sv.
  - rewrite IH. unfold mergeOffer. simpl. f_equal.
    + destruct pr; [done|]. by destruct (offeredProtocol r).
    + destruct sv; [done|]. by destruct (offeredService r).
Qed.

Lemma portStep_get (rs : list PortReport) (m : list (number * Recon.PortInfo)) (n : number) :
  jsmap_get (foldl portStep m rs) n =
    match filter (fun r => reportedPort r = n) rs with
    | [] => jsmap_get m n
    | rs' => Some (foldl mergeOffer
                     (default {| Recon.protocol := None; Recon.service := None |}
                              (jsmap_get m n)) rs')
    end.
Proof.
  revert m. induction rs as [|r rs IH]; intros m; simpl; [done|].
  rewrite IH. unfold portStep. rewrite jsmap_get_set.
  destruct (decide (reportedPort r = n)) as [<-|Hne].
  - rewrite filter_cons_True by done.
    destruct (decide (reportedPort r = reportedPort r)); [|done]. simpl.
    by destruct (filter _ rs).
  - rewrite filter_cons_False by done.
    by destruct (decide (n = reportedPort r)) as [->|?].
Qed.

Lemma merged_ports (reports : list PortReport) :
  foldl portStep [] reports =
    (fun n => (n, {| Recon.protocol := firstOffer offeredProtocol n reports;
                     Recon.service := firstOffer offeredService n reports |}))
      <$> reportedPorts reports.
Proof.
  assert (Hk : (foldl portStep [] reports).*1 = reportedPorts reports)
    by (by rewrite portStep_keys).
  rewrite <- Hk. apply jsmap_by_keys.
  - rewrite portStep_keys. apply NoDup_jsset_add_all, NoDup_nil_2.
  - intros n Hn. rewrite portStep_keys in Hn.
    apply elem_of_jsset_add_all in Hn as [Hn|Hn]; [by apply elem_of_nil in Hn|].
    apply list_elem_of_fmap in Hn as (r & -> & Hr).
    rewrite portStep_get. unfold firstOffer.
    destruct (filter _ reports) as [|r' rs'] eqn:Hf.
    + exfalso. by apply (filter_nil_not_elem_of _ _ r Hf).
    + by rewrite foldl_mergeOffer.
Qed.

Lemma emit_ports (inputs : Recon.ReconInputs) (acc : Recon.Acc) (now stamp : string)
    (e : Recon.HostEntry) :
  let ports := (fun pd : number * Recon.PortInfo =>
                  {| Recon.port := pd.1;
                     Recon.port_protocol := default "tcp" (Recon.protocol pd.2);
                     Recon.port_service := Recon.service pd.2 |}) <$> Recon.ports e in
  (is_Some (Recon.emit inputs acc now stamp e) <-> forallb Recon.validPort ports = true) /\
  (forall r, Recon.emit inputs acc now stamp e = Some r -> Recon.rr_ports r = ports).
Proof.
  unfold Recon.emit. simpl. destruct (forallb _ _).
  - split; [split; [done | by eexists]|]. by intros r [= <-].
  - split; [split; [by intros [? ?] | done]|]. done.
Qed.

Lemma emitted_ports (inputs : Recon.ReconInputs) (h : string) (e : Recon.HostEntry) :
  jsmap_get (Recon.hostMap (Recon.accumulate inputs)) h = Some e ->
  (fun pd : number * Recon.PortInfo =>
     {| Recon.port := pd.1;
        Recon.port_protocol := default "tcp" (Recon.protocol pd.2);
        Recon.port_service := Recon.service pd.2 |}) <$> Recon.ports e
  = mergedPort (portReportsFor h inputs) <$> reportedPorts (portReportsFor h inputs).
Proof.
  intros Hget.
  assert (He : e = entryOf (Recon.hostMap (Recon.accumulate inputs)) h)
    by (unfold entryOf; by rewrite Hget).
  rewrite He, ports_accumulate, merged_ports, <- list_fmap_compose. done.
Qed.


Lemma firstOffer_httpx (offer : PortReport -> option string) (n : number)
    (probes : list Recon.HttpxEntry) (rest : list PortReport) (x : Recon.HttpxEntry) :
  (forall x', is_Some (offer (FromHttpx x'))) ->
  head (filter (fun x => Recon.hx_port x = n) probes) = Some x ->
  firstOffer offer n ((FromHttpx <$> probes) ++ rest) = offer (FromHttpx x).
Proof.
  intros Hsome. unfold firstOffer.
  induction probes as [|x0 probes IH]; csimpl; [done|].
  destruct (decide (Recon.hx_port x0 = n)) as [Hn|Hn].
  - rewrite !filter_cons_True by done. simpl. intros [= ->]. csimpl.
    by destruct (Hsome x) as [v ->].
  - rewrite !filter_cons_False by done. apply IH.
Qed.

Lemma elem_of_portReportsFor (h : string) (inputs : Recon.ReconInputs) (r : PortReport) :
  r ∈ portReportsFor h inputs <->
  (exists x, x ∈ httpxData inputs /\ Recon.hx_host x = h /\ r = FromHttpx x) \/
  (exists rec p, rec ∈ securitytrailsData inputs /\ Recon.st_hostname rec = h /\
                 p ∈ Recon.st_ports rec /\ r = FromSecuritytrails p).
Proof.
  unfold portReportsFor. rewrite elem_of_app, list_elem_of_fmap, list_elem_of_bind.
  split.
  - intros [(x & -> & [Hh Hx]%list_elem_of_filter)
           |(rec & (p & -> & Hp)%list_elem_of_fmap & [Hh Hrec]%list_elem_of_filter)].
    + left. by exists x.
    + right. by exists rec, p.
  - intros [(x & Hx & Hh & ->)|(rec & p & Hrec & Hh & Hp & ->)].
    + left. exists x. split; [done|]. by apply list_elem_of_filter.
    + right. exists rec. split.
      * apply list_elem_of_fmap. by exists p.
      * by apply list_elem_of_filter.
Qed.

Lemma elem_of_reportedPorts (reports : list PortReport) (n : number) :
  n ∈ reportedPorts reports <-> exists r, r ∈ reports /\ reportedPort r = n.
Proof.
  unfold reportedPorts. rewrite elem_of_jsset_add_all, elem_of_nil, list_elem_of_fmap.
  split.
  - intros [[]|(r & -> & Hr)]. by exists r.
  - intros (r & Hr & <-). right. by exists r.
Qed.

Lemma firstOffer_Some (offer : PortReport -> option string) (n : number)
    (reports : list PortReport) (v : string) :
  firstOffer offer n reports = Some v ->
  exists r, r ∈ reports /\ reportedPort r = n /\ offer r = Some v.
Proof.
  unfold firstOffer. intros Hhead.
  apply head_Some_elem_of, list_elem_of_omap in Hhead as (r & Hr & Hv).
  apply list_elem_of_filter in Hr as [Hn Hr]. by exists r.
Qed.

(** The ports of a host.  Its port map holds one entry per port number
    reported for the host by httpx or securitytrails, in order of first
    report, and the first protocol and the first service proposed for a port
    are kept: a later report never replaces them.  A port probed by httpx is
    therefore always [tcp] with the scheme of its first probe as service,
    whatever securitytrails lists for it afterwards; a port for which no
    protocol was proposed is emitted as [tcp]. *)
Theorem normalizeRecon_port_first_report_wins (inputs : Recon.ReconInputs) (h : string)
    (e : Recon.HostEntry) :
  jsmap_get (Recon.hostMap (Recon.accumulate inputs)) h = Some e ->
  Recon.ports e =
    (fun n => (n, {| Recon.protocol :=
                       firstOffer offeredProtocol n (portReportsFor h inputs);
                     Recon.service :=
                       firstOffer offeredService n (portReportsFor h inputs) |}))
      <$> reportedPorts (portReportsFor h inputs) /\
  (forall n x,
     head (filter (fun x => Recon.hx_port x = n)
             (filter (fun x => Recon.hx_host x = h) (httpxData inputs))) = Some x ->
     mergedPort (portReportsFor h inputs) n =
       {| Recon.port := n; Recon.port_protocol := "tcp";
          Recon.port_service := Some (Recon.hx_scheme x) |}) /\
  (forall clock rs,
     Recon.normalizeRecon clock inputs = Some rs ->
     exists r, r ∈ rs /\ Recon.subdomain r = Some h /\
       Recon.rr_ports r
         = mergedPort (portReportsFor h inputs) <$> reportedPorts (portReportsFor h inputs)).
Proof.
  intros Hget.
  assert (He : e = entryOf (Recon.hostMap (Recon.accumulate inputs)) h)
    by (unfold entryOf; by rewrite Hget).
  split; [by rewrite He, ports_accumulate, merged_ports|]. split.
  - intros n x Hx. unfold mergedPort, portReportsFor.
    rewrite (firstOffer_httpx offeredProtocol n _ _ x) by (done || by eexists).
    rewrite (firstOffer_httpx offeredService n _ _ x) by (done || by eexists).
    done.
  - intros clock rs Hrs.
    destruct (normalizeRecon_emitted _ _ _ _ _ Hrs Hget) as (i & r & Hi & Hemit).
    exists r. split; [by eapply list_elem_of_lookup_2|].
    pose proof (emit_fields _ _ _ _ _ _ Hemit) as (Hsub & _).
    pose proof (emit_ports inputs (Recon.accumulate inputs) (clock 0) (clock (S i)) e)
      as [_ Hports].
    rewrite (Hports r Hemit), (emitted_ports inputs h e Hget).
    split; [|done]. rewrite Hsub. f_equal.
    eapply jsmap_get_hosts; [apply accumulate_hosts | done].
Qed.

(** httpx probes port 53 of [foo.bar] and securitytrails lists the same
    port as [udp]: the record keeps [tcp] and the scheme of the probe. *)
Lemma normalizeRecon_port_first_report_wins_witness :
  jsmap_get (Recon.hostMap (Recon.accumulate
     (probesAndRecords [probeOn "foo.bar" (num 53)] [listedPort "foo.bar" (num 53) "udp"])))
     "foo.bar" = Some
       {| Recon.host := "foo.bar"; Recon.ips := [];
          Recon.ports := [(num 53, {| Recon.protocol := Some "tcp";
                                    Recon.service := Some "https" |})];
          Recon.tech := []; Recon.sources := []; Recon.titles := [];
          Recon.webservers := []; Recon.liveness := true |} /\
  (forall clock rs,
     Recon.normalizeRecon clock
       (probesAndRecords [probeOn "foo.bar" (num 53)] [listedPort "foo.bar" (num 53) "udp"]) = Some rs ->
     exists r, r ∈ rs /\ Recon.subdomain r = Some "foo.bar" /\
       Recon.rr_ports r = [{| Recon.port := num 53; Recon.port_protocol := "tcp";
                              Recon.port_service := Some "https" |}]).
Proof.
  assert (Hget : jsmap_get (Recon.hostMap (Recon.accumulate
     (probesAndRecords [probeOn "foo.bar" (num 53)] [listedPort "foo.bar" (num 53) "udp"])))
     "foo.bar" = Some
       {| Recon.host := "foo.bar"; Recon.ips := [];
          Recon.ports := [(num 53, {| Recon.protocol := Some "tcp";
                                    Recon.service := Some "https" |})];
          Recon.tech := []; Recon.sources := []; Recon.titles := [];
          Recon.webservers := []; Recon.liveness := true |}) by (by vm_compute).
  split; [exact Hget|]. intros clock rs Hrs.
  destruct (normalizeRecon_port_first_report_wins _ _ _ Hget) as (_ & _ & Hout).
  destruct (Hout clock rs Hrs) as (r & Hr & Hsub & Hports).
  exists r. split; [done|]. split; [done|]. rewrite Hports. by vm_compute.
Defined.

Lemma integerBetween_spec (lo hi : Z) (x : number) :
  integerBetween lo hi x = true <->
  exists k : Z, x = num (inject_Z k) /\ (lo <= k <= hi)%Z.
Proof.
  split.
  - destruct x as [q| | |]; [|done..]. unfold integerBetween.
    intros H. apply andb_true_iff in H as [H Hhi]. apply andb_true_iff in H as [Hden Hlo].
    apply Pos.eqb_eq in Hden. apply Z.leb_le in Hlo, Hhi.
    exists (Qnum q). split; [|done]. unfold num. f_equal. apply Qc_is_canon.
    simpl. rewrite Qred_correct. destruct q as [[a b] Hq]. simpl in *. by subst b.
  - intros (k & -> & Hk). unfold num, integerBetween, Q2Qc, this.
    rewrite inject_Z_Qred. simpl.
    rewrite !andb_true_iff, !Z.leb_le. repeat split; lia.
Qed.

Lemma validPort_spec (p : Recon.Port) :
  Recon.validPort p = true <->
  portInRange (Recon.port p) /\ knownProtocol (Recon.port_protocol p).
Proof.
  unfold Recon.validPort, portInRange, knownProtocol.
  rewrite andb_true_iff, orb_true_iff, !bool_decide_eq_true, integerBetween_spec. done.
Qed.

Lemma hostMap_NoDup (inputs : Recon.ReconInputs) :
  NoDup (Recon.hostMap (Recon.accumulate inputs)).*1.
Proof. rewrite accumulate_keys. apply NoDup_jsset_add_all, NoDup_nil_2. Qed.

(** Schema validation of the merged ports.  The schemas of httpx and
    securitytrails take any number for a port; the schema of the records
    wants an integer in 1..65535.  [normalizeRecon] returns when every
    reported port number is such an integer and every non-empty protocol
    label of securitytrails is [tcp] or [udp].  Conversely, when it returns,
    every port number reported by httpx or securitytrails for any host is
    an integer in that range and every emitted port carries [tcp] or [udp]:
    a single port outside the range, or one that is not an integer, such as
    80.5, makes the whole call throw, for all hosts. *)
Theorem normalizeRecon_throws_on_invalid_port (clock : nat -> string)
    (inputs : Recon.ReconInputs) :
  ((forall x, x ∈ httpxData inputs -> portInRange (Recon.hx_port x)) ->
   (forall rec p, rec ∈ securitytrailsData inputs -> p ∈ Recon.st_ports rec ->
      portInRange (Recon.sp_port p) /\
      forall proto, Recon.sp_protocol p = Some proto ->
                    proto = "" \/ knownProtocol proto) ->
   is_Some (Recon.normalizeRecon clock inputs)) /\
  (forall rs,
     Recon.normalizeRecon clock inputs = Some rs ->
     (forall x, x ∈ httpxData inputs -> portInRange (Recon.hx_port x)) /\
     (forall rec p, rec ∈ securitytrailsData inputs -> p ∈ Recon.st_ports rec ->
        portInRange (Recon.sp_port p)) /\
     (forall r p, r ∈ rs -> p ∈ Recon.rr_ports r ->
        portInRange (Recon.port p) /\ knownProtocol (Recon.port_protocol p))) /\
  Recon.normalizeRecon clock
    (probesAndRecords [probeOn "foo.bar" (num 80); probeOn "foo.baz" (num (161 # 2))] [])
    = None /\
  Recon.normalizeRecon clock
    (probesAndRecords [probeOn "foo.bar" (num 80); probeOn "foo.baz" (num 65536)] [])
    = None /\
  is_Some (Recon.normalizeRecon clock
             (probesAndRecords [probeOn "foo.bar" (num 80); probeOn "foo.baz" (num 65535)]
                [])).
Proof.
  split; [|split; [|split; [by vm_compute|split; [by vm_compute|by eexists]]]].
  - intros Hhx Hst. unfold Recon.normalizeRecon. cbv zeta.
    apply mapM_is_Some, Forall_lookup. intros i o Ho.
    apply list_lookup_imap_Some in Ho as ([h e] & Hi & ->). simpl. unfold id.
    assert (Hget : jsmap_get (Recon.hostMap (Recon.accumulate inputs)) h = Some e).
    { apply jsmap_elem_of_get; [apply hostMap_NoDup|].
      by eapply list_elem_of_lookup_2. }
    apply (emit_ports inputs (Recon.accumulate inputs) (clock 0) (clock (S i)) e).
    rewrite (emitted_ports inputs h e Hget).
    apply Is_true_true, forallb_True, Forall_fmap, Forall_forall. intros n Hn. simpl.
    apply Is_true_true, validPort_spec. unfold mergedPort. simpl.
    apply elem_of_reportedPorts in Hn as (r & Hr & <-). split.
    + apply elem_of_portReportsFor in Hr
        as [(x & Hx & _ & ->)|(rec & p & Hrec & _ & Hp & ->)]; simpl.
      * by apply Hhx.
      * by apply (Hst rec p).
    + destruct (firstOffer offeredProtocol (reportedPort r) (portReportsFor h inputs))
        as [v|] eqn:Hv; simpl; [|by left].
      apply firstOffer_Some in Hv as (r' & Hr' & _ & Hv).
      apply elem_of_portReportsFor in Hr'
        as [(x & Hx & _ & ->)|(rec & p & Hrec & _ & Hp & ->)]; simpl in Hv.
      * injection Hv as <-. by left.
      * apply truthy_or_none_Some in Hv as [Hv Hne].
        destruct (Hst rec p Hrec Hp) as [_ Hproto].
        by destruct (Hproto v Hv).
  - intros rs Hrs.
    assert (Hreport : forall h r, h ∈ reportedHosts inputs -> r ∈ portReportsFor h inputs ->
              portInRange (reportedPort r)).
    { intros h r Hh Hr.
      assert (Hk : h ∈ (Recon.hostMap (Recon.accumulate inputs)).*1).
      { rewrite accumulate_keys. apply elem_of_jsset_add_all. by right. }
      apply jsmap_get_is_Some in Hk as [e Hget].
      destruct (normalizeRecon_emitted _ _ _ _ _ Hrs Hget) as (i & r' & Hi & Hemit).
      pose proof (emit_ports inputs (Recon.accumulate inputs) (clock 0) (clock (S i)) e)
        as [Hvalid _].
      assert (Hall : forallb Recon.validPort
                (mergedPort (portReportsFor h inputs)
                   <$> reportedPorts (portReportsFor h inputs)) = true).
      { rewrite <- (emitted_ports inputs h e Hget). apply Hvalid. by eexists. }
      apply Is_true_true, forallb_True in Hall.
      rewrite Forall_fmap, Forall_forall in Hall.
      specialize (Hall (reportedPort r)
                    ltac:(apply elem_of_reportedPorts; by exists r)).
      simpl in Hall. apply Is_true_true, validPort_spec in Hall as [Hall _]. done. }
    split; [|split].
    + intros x Hx.
      apply (Hreport (Recon.hx_host x) (FromHttpx x)).
      * unfold reportedHosts. rewrite !elem_of_app. right; right; left.
        apply list_elem_of_fmap. by exists x.
      * apply elem_of_portReportsFor. left. by exists x.
    + intros rec p Hrec Hp.
      apply (Hreport (Recon.st_hostname rec) (FromSecuritytrails p)).
      * unfold reportedHosts. rewrite !elem_of_app. right; right; right.
        apply list_elem_of_fmap. by exists rec.
      * apply elem_of_portReportsFor. right. by exists rec, p.
    + intros r p Hr Hp. unfold Recon.normalizeRecon in Hrs.
      apply mapM_Some_1 in Hrs. apply list_elem_of_lookup in Hr as [i Hi].
      eapply Forall2_lookup_r in Hrs as (o & Ho & Hemit); [|exact Hi].
      apply list_lookup_imap_Some in Ho as (kv & _ & ->). unfold id in Hemit.
      pose proof (emit_ports inputs (Recon.accumulate inputs) (clock 0) (clock (S i)) kv.2)
        as [Hvalid Hports].
      rewrite <- (Hports r Hemit) in Hvalid.
      assert (Hall : forallb Recon.validPort (Recon.rr_ports r) = true)
        by (apply Hvalid; by eexists).
      apply Is_true_true, forallb_True in Hall. rewrite Forall_forall in Hall.
      by apply validPort_spec, Is_true_true, Hall.
Qed.

Lemma sourcesMeta_readSource_onHost {T} (name : string) (data : option (list T))
    (key : T -> string) (mutate : T -> Recon.HostEntry -> Recon.HostEntry)
    (acc : Recon.Acc) :
  Recon.sourcesMeta (Recon.readSource name data (Recon.onHost key mutate) acc) =
    Recon.sourcesMeta acc ++ (if data is Some _ then [name] else []).
Proof.
  unfold Recon.readSource. destruct data as [data|]; simpl; [|by rewrite app_nil_r].
  match goal with |- context [foldl _ ?a data] =>
    destruct (hostMap_foldl_onHost key mutate data a) as (_ & _ & ->) end.
  done.
Qed.

Lemma sourcesMeta_processSecuritytrails (records : list Recon.StRecord) (acc : Recon.Acc) :
  Recon.sourcesMeta (foldl Recon.processSecuritytrails acc records)
    = Recon.sourcesMeta acc.
Proof.
  revert acc. induction records as [|r records IH]; intros acc; simpl; [done|].
  by rewrite IH.
Qed.

Lemma accumulate_sourcesMeta (inputs : Recon.ReconInputs) :
  Recon.sourcesMeta (Recon.accumulate inputs) = pipelineOf inputs.
Proof.
  unfold Recon.accumulate, pipelineOf.
  unfold Recon.readSource at 1.
  destruct (Recon.securitytrails inputs) as [records|]; simpl.
  - rewrite sourcesMeta_processSecuritytrails. simpl.
    rewrite !sourcesMeta_readSource_onHost. simpl.
    by destruct (Recon.subfinder inputs), (Recon.amass inputs), (Recon.httpx inputs).
  - rewrite !sourcesMeta_readSource_onHost. simpl.
    by destruct (Recon.subfinder inputs), (Recon.amass inputs), (Recon.httpx inputs).
Qed.

(** Provenance and timestamps of the records.  Every record carries one
    source entry, of the tool [recon-normalize], with the job identifier as
    run identifier and, as pipeline, the names of the sources that were
    present and valid, in processing order, whether or not they reported the
    host; it carries the target identifier and no tags.  [lastChecked] is
    the reading taken when the call started, the same for all records, and
    [createdAt] and [updatedAt] are one and the same later reading, taken
    when the record was stamped. *)
Theorem normalizeRecon_provenance (clock : nat -> string) (inputs : Recon.ReconInputs)
    (rs : list Recon.ReconResult) :
  Recon.normalizeRecon clock inputs = Some rs ->
  forall i r, rs !! i = Some r ->
    (exists contributors,
       Recon.rr_sources r =
         [{| Recon.tool := "recon-normalize";
             Recon.runId := Recon.jobId inputs;
             Recon.contributors := contributors;
             Recon.pipeline := pipelineOf inputs |}]) /\
    Recon.rr_targetId r = Recon.targetId inputs /\
    Recon.lastChecked r = clock 0 /\
    Recon.createdAt r = clock (S i) /\
    Recon.updatedAt r = clock (S i) /\
    Recon.tags r = [].
Proof.
  unfold Recon.normalizeRecon. intros Hrs%mapM_Some_1 i r Hr.
  eapply Forall2_lookup_r in Hrs as (o & Ho & Hemit); [|exact Hr].
  apply list_lookup_imap_Some in Ho as (kv & _ & ->).
  unfold id, Recon.emit in Hemit.
  destruct (forallb _ _); [|done]. injection Hemit as <-. simpl.
  rewrite accumulate_sourcesMeta. split; [by eexists | done].
Qed.

(** The merge example, with a clock that counts its readings. *)
Lemma normalizeRecon_provenance_witness :
  (exists rs,
     Recon.normalizeRecon (fun k => pretty k) mergeExample = Some rs) /\
  (forall rs r,
     Recon.normalizeRecon (fun k => pretty k) mergeExample = Some rs ->
     rs !! 0 = Some r ->
     Recon.pipeline <$> Recon.rr_sources r = [["subfinder"; "httpx"]] /\
     Recon.lastChecked r = "0" /\ Recon.createdAt r = "1").
Proof.
  split.
  - eexists. vm_compute. reflexivity.
  - intros rs r Hrs Hr.
    destruct (normalizeRecon_provenance _ mergeExample rs Hrs 0 r Hr)
      as ((c & ->) & _ & Hlast & Hcreated & _).
    split; [done|]. split; [by rewrite Hlast | by rewrite Hcreated].
Defined.

(** ** The CVE index built from an NVD feed *)

Lemma jsmap_get_foldl_set {T V} `{EqDecision K} (key : T -> K) (val : T -> V)
    (xs : list T) (m : list (K * V)) (k : K) :
  jsmap_get (foldl (fun m x => jsmap_set m (key x) (val x)) m xs) k =
    match last (filter (fun x => key x = k) xs) with
    | Some x => Some (val x)
    | None => jsmap_get m k
    end.
Proof.
  revert m. induction xs as [|x xs IH]; intros m; simpl; [done|].
  rewrite IH, jsmap_get_set.
  destruct (decide (key x = k)) as [<-|Hne].
  - rewrite filter_cons_True by done. rewrite last_cons.
    destruct (last (filter _ xs)); [done|].
    by destruct (decide (key x = key x)).
  - rewrite filter_cons_False by done.
    destruct (last (filter _ xs)); [done|].
    by destruct (decide (k = key x)) as [->|?].
Qed.

Lemma buildCveIndex_get (feed : option CveMatcher.NvdFeed) (id : string) :
  jsmap_get (CveMatcher.buildCveIndex feed) id
    = CveMatcher.itemDetail <$> last (itemsWithId id feed).
Proof.
  unfold CveMatcher.buildCveIndex, itemsWithId, feedItems.
  destruct feed as [feed|]; simpl; [|done].
  rewrite jsmap_get_foldl_set. by destruct (last _).
Qed.

Lemma itemsWithId_nil (feed : option CveMatcher.NvdFeed) (id : string) :
  itemsWithId id feed = [] <->
  forall item, item ∈ feedItems feed -> CveMatcher.item_ID item <> id.
Proof.
  unfold itemsWithId. split.
  - intros Hnil item Hin Hid. by apply (filter_nil_not_elem_of _ _ item Hnil).
  - intros Hnone.
    destruct (filter _ (feedItems feed)) as [|item l] eqn:Hf; [done|].
    assert (Hin : item ∈ filter (fun item => CveMatcher.item_ID item = id)
                           (feedItems feed))
      by (rewrite Hf; by left).
    apply list_elem_of_filter in Hin as [Hid Hin]. by destruct (Hnone item Hin).
Qed.

Lemma buildCveIndex_keys (feed : option CveMatcher.NvdFeed) :
  (CveMatcher.buildCveIndex feed).*1
    = jsset_add_all [] (CveMatcher.item_ID <$> feedItems feed).
Proof.
  unfold CveMatcher.buildCveIndex, feedItems. destruct feed as [feed|]; simpl; [|done].
  by rewrite jsmap_keys_foldl_set.
Qed.

Lemma buildCveIndex_elem (feed : option CveMatcher.NvdFeed) (id : string)
    (d : CveMatcher.CveDetail) :
  (id, d) ∈ CveMatcher.buildCveIndex feed <->
  exists item, last (itemsWithId id feed) = Some item /\ d = CveMatcher.itemDetail item.
Proof.
  split.
  - intros Hin. apply jsmap_elem_of_get in Hin.
    + rewrite buildCveIndex_get in Hin.
      apply fmap_Some in Hin as (item & Hl & ->). by exists item.
    + rewrite buildCveIndex_keys. apply NoDup_jsset_add_all, NoDup_nil_2.
  - intros (item & Hl & ->). apply jsmap_get_elem_of.
    by rewrite buildCveIndex_get, Hl.
Qed.

Lemma elem_of_itemCpes (item : CveMatcher.CveItem) (cpe : string) :
  cpe ∈ CveMatcher.itemCpes item <->
  exists m, vulnerableMatch item m /\ CveMatcher.cpe23Uri m = cpe.
Proof.
  unfold CveMatcher.itemCpes, vulnerableMatch. rewrite list_elem_of_bind. split.
  - intros (node & Hcpe & Hnode).
    apply list_elem_of_bind in Hcpe as (m & Hcpe & Hm).
    destruct (bool_decide (CveMatcher.vulnerable m = Some true)) eqn:Hv;
      [|by apply elem_of_nil in Hcpe].
    apply bool_decide_eq_true in Hv. apply list_elem_of_singleton in Hcpe as ->.
    destruct (CveMatcher.configurations item) as [cfg|] eqn:Hcfg;
      [|by apply elem_of_nil in Hnode].
    simpl in Hnode.
    destruct (CveMatcher.nodes cfg) as [ns|] eqn:Hns; [|by apply elem_of_nil in Hnode].
    destruct (CveMatcher.cpe_match node) as [ms|] eqn:Hms; [|by apply elem_of_nil in Hm].
    exists m. split; [|done]. by exists cfg, ns, node, ms.
  - intros (m & (cfg & ns & node & ms & Hcfg & Hns & Hnode & Hms & Hm & Hv) & <-).
    exists node. split.
    + apply list_elem_of_bind. exists m. rewrite Hms. split; [|done].
      rewrite bool_decide_eq_true_2 by done. by apply list_elem_of_singleton.
    + rewrite Hcfg. simpl. by rewrite Hns.
Qed.

(** Looking an identifier up in the index built from a feed answers with
    the detail of the last feed item that carries the identifier: a later
    item replaces an earlier one.  The lookup fails exactly when no item
    carries the identifier, in particular for every identifier when the
    feed did not validate. *)
Theorem buildCveIndex_last_item_wins (feed : option CveMatcher.NvdFeed) (id : string) :
  jsmap_get (CveMatcher.buildCveIndex feed) id
    = CveMatcher.itemDetail <$> last (itemsWithId id feed) /\
  (jsmap_get (CveMatcher.buildCveIndex feed) id = None <->
   forall item, item ∈ feedItems feed -> CveMatcher.item_ID item <> id) /\
  jsmap_get (CveMatcher.buildCveIndex None) id = None.
Proof.
  split; [apply buildCveIndex_get|]. split; [|done].
  rewrite buildCveIndex_get, fmap_None, last_None. apply itemsWithId_nil.
Qed.

(** The index holds one entry per distinct identifier of the feed, in the
    order in which the identifiers first appear; every entry is stored under
    the identifier it carries and comes from an item of the feed. *)
Theorem buildCveIndex_one_entry_per_id (feed : option CveMatcher.NvdFeed) :
  (CveMatcher.buildCveIndex feed).*1
    = jsset_add_all [] (CveMatcher.item_ID <$> feedItems feed) /\
  NoDup (CveMatcher.buildCveIndex feed).*1 /\
  (forall id d,
     (id, d) ∈ CveMatcher.buildCveIndex feed ->
     CveMatcher.detail_id d = id /\
     exists item, item ∈ feedItems feed /\ d = CveMatcher.itemDetail item) /\
  (forall item,
     item ∈ feedItems feed ->
     CveMatcher.item_ID item ∈ (CveMatcher.buildCveIndex feed).*1).
Proof.
  rewrite buildCveIndex_keys. split; [done|].
  split; [apply NoDup_jsset_add_all, NoDup_nil_2|]. split.
  - intros id d (item & Hl & ->)%buildCveIndex_elem.
    apply last_Some_elem_of, list_elem_of_filter in Hl as [Hid Hin].
    split; [done|]. by exists item.
  - intros item Hin. apply elem_of_jsset_add_all. right.
    apply list_elem_of_fmap. by exists item.
Qed.

(** Suggestions drawn from an index built from a feed: a fingerprint is
    paired with a CVE exactly when the last feed item of that identifier
    lists a match that is flagged vulnerable and whose product token is a
    case-insensitive substring of the fingerprint name.  A match that is not
    flagged, or that belongs to a replaced item, never yields a suggestion. *)
Theorem suggest_from_vulnerable_matches (feed : option CveMatcher.NvdFeed)
    (tech : list CveMatcher.TechFingerprint) (fp : CveMatcher.TechFingerprint)
    (d : CveMatcher.CveDetail) :
  (fp, d) ∈ CveMatcher.suggestCvesFromTech tech (CveMatcher.buildCveIndex feed) <->
  fp ∈ tech /\
  exists item m prod,
    last (itemsWithId (CveMatcher.item_ID item) feed) = Some item /\
    d = CveMatcher.itemDetail item /\
    vulnerableMatch item m /\
    productToken (CveMatcher.cpe23Uri m) = Some prod /\
    containsIgnoringCase (CveMatcher.name fp) prod.
Proof.
  rewrite suggestCvesFromTech_elem.
  setoid_rewrite <- includes_toLowerCase. split.
  - intros (Hfp & id & cpe & prod & Hd & Hcpe & Hprod & Hinc). split; [done|].
    apply buildCveIndex_elem in Hd as (item & Hl & ->).
    apply elem_of_itemCpes in Hcpe as (m & Hm & <-).
    exists item, m, prod.
    assert (Hid : CveMatcher.item_ID item = id).
    { by apply last_Some_elem_of, list_elem_of_filter in Hl as [? _]. }
    rewrite Hid. done.
  - intros (Hfp & item & m & prod & Hl & -> & Hm & Hprod & Hinc). split; [done|].
    exists (CveMatcher.item_ID item), (CveMatcher.cpe23Uri m), prod.
    split; [apply buildCveIndex_elem; by exists item|].
    split; [apply elem_of_itemCpes; by exists m|]. done.
Qed.

(** Enrichment against an index built from a feed.  A feed that did not
    validate leaves every finding as it is; so does a feed none of whose
    items carries the identifier of the reference.  Otherwise the last item
    with the identifier decides: when it has a CVSS v3 base score, the
    reference gets that score, the item's vector string when it is not empty
    (the reference's own vector otherwise), and keeps its version or gets
    "3.x". *)
Theorem enrich_from_feed (feed : option CveMatcher.NvdFeed) :
  (forall vulns,
     CveMatcher.enrichVulnerabilitiesWithNvd vulns (CveMatcher.buildCveIndex None)
       = vulns) /\
  (forall entry,
     (forall item, item ∈ feedItems feed -> CveMatcher.item_ID item <> cve_id entry) ->
     CveMatcher.enrichEntry (CveMatcher.buildCveIndex feed) entry = entry) /\
  (forall entry item,
     last (itemsWithId (cve_id entry) feed) = Some item ->
     CveMatcher.enrichEntry (CveMatcher.buildCveIndex feed) entry
       = CveMatcher.enrichEntry [(cve_id entry, CveMatcher.itemDetail item)] entry) /\
  (forall entry item m s,
     last (itemsWithId (cve_id entry) feed) = Some item ->
     (CveMatcher.impact item ≫= CveMatcher.baseMetricV3) ≫= CveMatcher.cvssV3 = Some m ->
     CveMatcher.v3_baseScore m = Some s ->
     CveMatcher.enrichEntry (CveMatcher.buildCveIndex feed) entry =
       {| cve_id := cve_id entry;
          cvss := Some
            {| baseScore := s;
               vector := match truthy_or_none (CveMatcher.vectorString m) with
                         | Some v => Some v
                         | None => cvss entry ≫= vector
                         end;
               version := Some (default "3.x" (cvss entry ≫= version)) |} |}).
Proof.
  split; [|split; [|split]].
  - intros vulns. unfold CveMatcher.enrichVulnerabilitiesWithNvd.
    induction vulns as [|f vulns IH]; [done|].
    rewrite fmap_cons, IH. f_equal. by apply enrichFinding_unindexed.
  - intros entry Hnone. apply enrichEntry_unindexed.
    rewrite buildCveIndex_get, fmap_None, last_None. by apply itemsWithId_nil.
  - intros entry item Hl. unfold CveMatcher.enrichEntry.
    rewrite buildCveIndex_get, Hl. simpl.
    by destruct (decide (cve_id entry = cve_id entry)).
  - intros entry item m s Hl Hm Hs. unfold CveMatcher.enrichEntry.
    rewrite buildCveIndex_get, Hl. simpl.
    rewrite Hm. simpl. by rewrite Hs.
Qed.

(** ** Findings of the two parsers *)

Lemma keepFirst_ext (seen seen' : gset string) (l : list Vulnerability) :
  (forall f, f ∈ l -> Parse.findingKey f ∈ seen <-> Parse.findingKey f ∈ seen') ->
  keepFirst seen l = keepFirst seen' l.
Proof.
  revert seen seen'. induction l as [|f l IH]; intros seen seen' Hext; simpl; [done|].
  pose proof (Hext f ltac:(by left)) as Hf.
  destruct (decide (Parse.findingKey f ∈ seen)) as [Hin|Hnin];
    destruct (decide (Parse.findingKey f ∈ seen')) as [Hin'|Hnin']; try tauto.
  - apply IH. intros g Hg. apply Hext. by right.
  - f_equal. apply IH. intros g Hg. rewrite !elem_of_union.
    pose proof (Hext g ltac:(by right)). tauto.
Qed.

Lemma keepFirst_app_disjoint (seen : gset string) (l1 l2 : list Vulnerability) :
  (forall f g, f ∈ l1 -> g ∈ l2 -> Parse.findingKey f <> Parse.findingKey g) ->
  keepFirst seen (l1 ++ l2) = keepFirst seen l1 ++ keepFirst seen l2.
Proof.
  revert seen. induction l1 as [|f l1 IH]; intros seen Hdis; simpl; [done|].
  assert (Hdis' : forall f' g, f' ∈ l1 -> g ∈ l2 ->
             Parse.findingKey f' <> Parse.findingKey g)
    by (intros f' g Hf' Hg; apply Hdis; [by right | done]).
  destruct (decide (Parse.findingKey f ∈ seen)) as [Hin|Hnin]; [by apply IH|].
  rewrite IH by done. simpl. f_equal. f_equal.
  apply keepFirst_ext. intros g Hg. rewrite elem_of_union, elem_of_singleton.
  pose proof (Hdis f g ltac:(by left) Hg). split; [|tauto].
  intros [Heq|?]; [congruence | done].
Qed.

Lemma append_inj_l (a x y : string) : a +:+ x = a +:+ y -> x = y.
Proof.
  induction a as [|c a IH]; [done|]. rewrite !append_cons. intros [= H]. by apply IH.
Qed.

(** Findings of one host that come from different sources have different
    keys, when the source names hold no colon. *)
Lemma findingKey_sources (f g : Vulnerability) :
  reconId f = reconId g -> source f <> source g ->
  includes (source f) ":" = false -> includes (source g) ":" = false ->
  Parse.findingKey f <> Parse.findingKey g.
Proof.
  unfold Parse.findingKey. intros -> Hsrc Hf Hg Heq.
  apply append_inj_l, append_inj_l in Heq.
  by apply colon_field_inj in Heq as [? _].
Qed.

(** Merging the findings of the two parsers for one recon record removes
    duplicates within each parser's list only: a nuclei finding and an nmap
    finding never share a key, so neither list can hide a finding of the
    other, and the merged list is the nuclei findings, deduplicated,
    followed by the nmap findings, deduplicated. *)
Theorem mergeFindings_across_parsers (digits : Qc -> string)
    (clock1 clock2 : nat -> string)
    (nuclei : Parse.ParseOptions (list Parse.NucleiFinding))
    (nmap : Parse.ParseOptions Parse.NmapHost) :
  Parse.opt_reconId nuclei = Parse.opt_reconId nmap ->
  Parse.mergeFindings
    [Parse.parseNucleiResults clock1 nuclei; Parse.parseNmapVulnerabilities digits clock2 nmap]
  = Parse.mergeFindings [Parse.parseNucleiResults clock1 nuclei] ++
    Parse.mergeFindings [Parse.parseNmapVulnerabilities digits clock2 nmap].
Proof.
  intros Hrecon. rewrite !mergeFindings_keepFirst. simpl. rewrite !app_nil_r.
  apply keepFirst_app_disjoint.
  intros f g (i & nf & ->)%parseNucleiResults_elem
             (now & host & port & entry & ->)%parseNmapVulnerabilities_elem.
  by apply findingKey_sources.
Qed.

(** One nuclei finding and one nmap finding of the same recon record. *)
Lemma mergeFindings_across_parsers_witness :
  Parse.opt_reconId nucleiReport = Parse.opt_reconId nmapCveReport /\
  title <$> Parse.mergeFindings
    [Parse.parseNucleiResults (fun _ => "t") nucleiReport;
     Parse.parseNmapVulnerabilities (fun _ => "") (fun _ => "t") nmapCveReport]
  = ["Example RCE"; "CVE-2021-41773 on port 443"].
Proof.
  split; [done|].
  rewrite (mergeFindings_across_parsers _ _ _ nucleiReport nmapCveReport eq_refl).
  by vm_compute.
Defined.

(** Both parsers produce one finding per entry of a valid payload, in
    order, and none for a payload that does not validate: one per nuclei
    record, and one per [vulners] entry of every port of an nmap report (a
    port without a [vulners] script gives none).  An nmap finding carries
    the reported identifier as its one CVE reference, and its severity is
    derived from the very score that reference carries. *)
Theorem parsers_one_finding_per_entry (digits : Qc -> string) (clock : nat -> string) :
  (forall options data,
     Parse.opt_raw options = Some data ->
     length (Parse.parseNucleiResults clock options) = length data) /\
  (forall options data,
     Parse.opt_raw options = Some data ->
     length (Parse.parseNmapVulnerabilities digits clock options) =
       sum_list ((fun port => length (default [] (Parse.np_vulners port)))
                   <$> Parse.nh_ports data)) /\
  (forall options,
     Parse.opt_raw options = None -> Parse.parseNucleiResults clock options = []) /\
  (forall options,
     Parse.opt_raw options = None -> Parse.parseNmapVulnerabilities digits clock options = []) /\
  (forall options v,
     v ∈ Parse.parseNmapVulnerabilities digits clock options ->
     exists ref,
       cves v = [ref] /\
       severity v = Parse.severityFromCvss (baseScore <$> cvss ref)).
Proof.
  split; [|split; [|split; [|split]]].
  - intros options data Hraw. unfold Parse.parseNucleiResults.
    by rewrite Hraw, length_imap.
  - intros options data Hraw. unfold Parse.parseNmapVulnerabilities.
    rewrite Hraw, length_imap.
    induction (Parse.nh_ports data) as [|port ports IH]; csimpl; [done|].
    by rewrite length_app, length_fmap, IH.
  - intros options Hraw. unfold Parse.parseNucleiResults. by rewrite Hraw.
  - intros options Hraw. unfold Parse.parseNmapVulnerabilities. by rewrite Hraw.
  - intros options v (now & host & port & entry & ->)%parseNmapVulnerabilities_elem.
    exists (Parse.cveRecord (Parse.nv_id entry) (Parse.nv_cvss entry)).
    split; [done|].
    assert (Hsev : severity (Parse.nmapFinding digits now (Parse.opt_reconId options)
                     (Parse.opt_jobId options) host port entry)
                   = Parse.severityFromCvss
                       (baseScore <$> cvss (Parse.cveRecord (Parse.nv_id entry)
                                              (Parse.nv_cvss entry))))
      by (simpl; by destruct (Parse.nv_cvss entry)).
    done.
Qed.

(** ** The command lines: file names, tool output, result lines *)

Lemma replaceChars_length (class : ascii -> bool) (by_ : ascii) (value : string) :
  String.length (ReconCli.replaceChars class by_ value) = String.length value.
Proof. induction value as [|c value IH]; simpl; [done | by rewrite IH]. Qed.

Lemma replaceChars_get (class : ascii -> bool) (by_ : ascii) (value : string) (i : nat) :
  String.get i (ReconCli.replaceChars class by_ value)
    = (fun c => if class c then by_ else c) <$> String.get i value.
Proof.
  revert i. induction value as [|c value IH]; intros [|i]; simpl; try done.
Qed.

Lemma sanitizeFilename_replaceChars (value : string) :
  ReconCli.sanitizeFilename value =
    ReconCli.replaceChars
      (fun c => ReconCli.reservedChar c || ReconCli.separatorChar c) "_" value.
Proof.
  unfold ReconCli.sanitizeFilename.
  induction value as [|c value IH]; simpl; [done|]. rewrite IH. f_equal.
  destruct (ReconCli.reservedChar c); simpl; [done|].
  by destruct (ReconCli.separatorChar c).
Qed.

(** [sanitizeFilename] replaces each of the characters star, question mark,
    double quote, angle brackets, bar, slash and backslash by an underscore
    and leaves every other character, and the length, as they are: the
    result holds none of these characters, so a file name built from it has
    no path separator, and sanitizing twice changes nothing more. *)
Theorem sanitizeFilename_safe (value : string) :
  String.length (ReconCli.sanitizeFilename value) = String.length value /\
  (forall i,
     String.get i (ReconCli.sanitizeFilename value) =
       (fun c => if ReconCli.reservedChar c || ReconCli.separatorChar c
                 then "_"%char else c) <$> String.get i value) /\
  (forall i c,
     String.get i (ReconCli.sanitizeFilename value) = Some c ->
     c ∉ ["*"; "?"; "034"; "<"; ">"; "|"; "/"; "092"]%char) /\
  ReconCli.sanitizeFilename (ReconCli.sanitizeFilename value)
    = ReconCli.sanitizeFilename value.
Proof.
  rewrite !sanitizeFilename_replaceChars.
  split; [apply replaceChars_length|]. split; [apply replaceChars_get|]. split.
  - intros i c. rewrite replaceChars_get.
    destruct (String.get i value) as [c0|]; [|done]. simpl. intros [= <-].
    destruct (ReconCli.reservedChar c0) eqn:Hr; simpl.
    { intros Hin. repeat (apply elem_of_cons in Hin as [?|Hin]; [done|]). by apply elem_of_nil in Hin. }
    destruct (ReconCli.separatorChar c0) eqn:Hs; simpl.
    { intros Hin. repeat (apply elem_of_cons in Hin as [?|Hin]; [done|]). by apply elem_of_nil in Hin. }
    unfold ReconCli.reservedChar in Hr. unfold ReconCli.separatorChar in Hs.
    apply bool_decide_eq_false in Hr, Hs.
    intros Hin.
    repeat (apply elem_of_cons in Hin as [->|Hin]); try (by apply elem_of_nil in Hin);
      first [ by (apply Hr; rewrite !elem_of_cons; auto 10)
            | by (apply Hs; rewrite !elem_of_cons; auto 10) ].
  - induction value as [|c value IH]; simpl; [done|]. rewrite IH. f_equal.
    destruct (ReconCli.reservedChar c) eqn:Hr; simpl; [done|].
    destruct (ReconCli.separatorChar c) eqn:Hs; simpl; [done|].
    by rewrite Hr, Hs.
Qed.

Lemma split_no_sep (sep : ascii) (s : string) :
  sep ∉ list_ascii_of_string s -> split sep s = [s].
Proof.
  induction s as [|c s IH]; simpl; [done|]. intros Hnin.
  destruct (decide (c = sep)) as [->|Hne]; [destruct Hnin; by left|].
  rewrite IH; [done|]. intros Hin. apply Hnin. by right.
Qed.

Lemma split_elem_no_sep (sep : ascii) (s p : string) :
  p ∈ split sep s -> sep ∉ list_ascii_of_string p.
Proof.
  revert p. induction s as [|c s IH]; intros p; simpl.
  - intros ->%list_elem_of_singleton. simpl. apply not_elem_of_nil.
  - destruct (decide (c = sep)) as [->|Hne].
    + intros [->|Hp]%elem_of_cons; [apply not_elem_of_nil | by apply IH].
    + destruct (split sep s) as [|q qs] eqn:Hs.
      * intros ->%list_elem_of_singleton. simpl.
        intros [?|Hin]%elem_of_cons; [done | by apply elem_of_nil in Hin].
      * intros [->|Hp]%elem_of_cons.
        -- simpl. intros [?|Hin]%elem_of_cons; [done|].
           apply (IH q); [by left | done].
        -- apply IH. by right.
Qed.

Lemma nonBlank_app (a b : string) :
  ReconCli.nonBlank (a +:+ b) = ReconCli.nonBlank a || ReconCli.nonBlank b.
Proof.
  unfold ReconCli.nonBlank. induction a as [|c a IH]; [done|].
  rewrite append_cons. simpl. by rewrite IH, orb_assoc.
Qed.

Lemma list_ascii_app (a b : string) :
  list_ascii_of_string (a +:+ b) = list_ascii_of_string a ++ list_ascii_of_string b.
Proof. induction a as [|c a IH]; [done|]. rewrite append_cons. simpl. by rewrite IH. Qed.

Lemma chunkLines_one_line (s : string) :
  ReconCli.nonBlank s = true -> "010"%char ∉ list_ascii_of_string s ->
  ReconCli.chunkLines s = [s].
Proof.
  intros Hnb Hnl. unfold ReconCli.chunkLines. rewrite split_no_sep by done.
  by rewrite filter_cons_True.
Qed.

(** What [runSubfinder] and [runAmass] collect from the tool's output: the
    non-blank lines of each chunk, chunk by chunk.  No entry holds a line
    feed; but the handler does not join chunks, so a line that the stream
    cuts in two is collected as two entries, where the same text arriving in
    one chunk is one entry. *)
Theorem collectLines_per_chunk :
  (forall chunks line,
     line ∈ ReconCli.collectLines chunks <->
     exists data, data ∈ chunks /\ line ∈ split "010" data /\
                  ReconCli.nonBlank line = true) /\
  (forall chunks line,
     line ∈ ReconCli.collectLines chunks -> "010"%char ∉ list_ascii_of_string line) /\
  (forall a b,
     ReconCli.nonBlank a = true -> ReconCli.nonBlank b = true ->
     "010"%char ∉ list_ascii_of_string a -> "010"%char ∉ list_ascii_of_string b ->
     ReconCli.collectLines [a +:+ b] = [a +:+ b] /\
     ReconCli.collectLines [a; b] = [a; b]).
Proof.
  assert (Hmem : forall chunks line,
     line ∈ ReconCli.collectLines chunks <->
     exists data, data ∈ chunks /\ line ∈ split "010" data /\
                  ReconCli.nonBlank line = true).
  { intros chunks line. unfold ReconCli.collectLines, ReconCli.chunkLines.
    rewrite list_elem_of_bind. split.
    - intros (data & [Hnb Hline]%list_elem_of_filter & Hdata). by exists data.
    - intros (data & Hdata & Hline & Hnb). exists data. split; [|done].
      by apply list_elem_of_filter. }
  split; [done|]. split.
  - intros chunks line (data & _ & Hline & _)%Hmem. by eapply split_elem_no_sep.
  - intros a b Ha Hb Hna Hnb. unfold ReconCli.collectLines. csimpl.
    rewrite !chunkLines_one_line; try done;
      first [ by rewrite list_ascii_app, not_elem_of_app
            | by rewrite nonBlank_app, Ha ].
Qed.

(** The attack phase and the Finding Normalizer read a severity label the
    same way when, lower-cased, it is one of the five canonical levels; on
    any other label, and on a missing one, the attack phase answers [info]
    where the Finding Normalizer answers [medium].  The confidence of an
    attack result is [confirmed] exactly for a CVSS score of at least 7 and
    [suspected] otherwise, never [needs-review]. *)
Theorem attackSeverity_defaults_to_info :
  (forall raw sev,
     toLowerCase raw = severityName sev ->
     Attacks.attackSeverity (Some raw) = sev /\
     Parse.normalizeSeverity (Some raw) = sev) /\
  (forall raw,
     (forall sev, toLowerCase raw <> severityName sev) ->
     Attacks.attackSeverity (Some raw) = info /\
     Parse.normalizeSeverity (Some raw) = medium) /\
  (Attacks.attackSeverity None = info /\ Parse.normalizeSeverity None = medium) /\
  (forall score,
     Attacks.attackConfidence score <> needs_review /\
     (Attacks.attackConfidence score = confirmed <->
      exists s, score = Some s /\ number_ge s 7 = true)).
Proof.
  split; [|split; [|split; [done|]]].
  - intros raw sev Hraw. unfold Attacks.attackSeverity, Parse.normalizeSeverity.
    simpl. rewrite Hraw. by destruct sev.
  - intros raw Hraw. unfold Attacks.attackSeverity, Parse.normalizeSeverity. simpl.
    destruct (decide (toLowerCase raw = "critical")) as [H|_];
      [by destruct (Hraw critical)|].
    destruct (decide (toLowerCase raw = "high")) as [H|_];
      [by destruct (Hraw high)|].
    destruct (decide (toLowerCase raw = "medium")) as [H|_];
      [by destruct (Hraw medium)|].
    destruct (decide (toLowerCase raw = "low")) as [H|_];
      [by destruct (Hraw low)|].
    destruct (decide (toLowerCase raw = "info")) as [H|_];
      [by destruct (Hraw info)|].
    done.
  - intros score. unfold Attacks.attackConfidence. destruct score as [s|].
    + destruct (number_ge s 7) eqn:H7.
      * split; [done|]. split; [by exists s | done].
      * split; [by destruct (number_ge s 4)|].
        split; [by destruct (number_ge s 4)|]. intros (s' & [= <-] & H). congruence.
    + split; [done|]. split; [done | by intros (s & ? & _)].
Qed.

(** ** The worker pool *)

Import Scheduler.

Section PoolProperties.
Context {Item : Type}.
Variable operation : Item -> option Z.
Variable items : list Item.
Variable maxConcurrent : Z.

Lemma sum_list_insert (f : @worker Item -> nat) (l : list worker) (i : nat)
    (w w' : worker) :
  l !! i = Some w ->
  sum_list (f <$> <[i := w']> l) + f w = sum_list (f <$> l) + f w'.
Proof.
  revert i. induction l as [|x l IH]; intros [|i] Hi; try done.
  - simplify_eq/=. lia.
  - specialize (IH i Hi). csimpl in *. lia.
Qed.

Lemma initial_inv :
  pool_inv items maxConcurrent (initial items maxConcurrent) /\
  potential items (initial items maxConcurrent) = 2 * length items.
Proof.
  unfold pool_inv, potential, initial. simpl.
  assert (Hn : Z.to_nat (Z.min maxConcurrent (Z.of_nat (length items)))
                 <= length items) by lia.
  generalize dependent (Z.to_nat (Z.min maxConcurrent (Z.of_nat (length items)))).
  intros n Hn.
  rewrite length_fmap, length_take.
  assert (Hp : forall l : list Item,
             sum_list (pending <$> (Sleeping <$> l)) = length l)
    by (induction l; csimpl; lia).
  assert (Hw : forall l : list Item,
             sum_list (weight <$> (Sleeping <$> l)) = 2 * length l)
    by (induction l; csimpl; lia).
  rewrite Hp, Hw, length_take. repeat split; lia.
Qed.

(** Every callback preserves the invariant and uses up one unit of the
    potential. *)
Lemma step_inv (s s' : state) (e : event) :
  step operation items s e = Some s' ->
  pool_inv items maxConcurrent s ->
  pool_inv items maxConcurrent s' /\ potential items s = S (potential items s').
Proof.
  unfold pool_inv, potential.
  intros Hstep (Hlen & Hci & Hdone). destruct e as [i|i|i]; simpl in Hstep.
  - destruct (workers s !! i) as [[item|item|v]|] eqn:Hi; try done.
    destruct (forallb _ _); [|done]. injection Hstep as <-. simpl.
    rewrite length_insert.
    pose proof (sum_list_insert pending _ _ _ (Running item) Hi).
    pose proof (sum_list_insert weight _ _ _ (Running item) Hi).
    simpl in *. repeat split; lia.
  - destruct (workers s !! i) as [[item|item|v]|] eqn:Hi; try done.
    injection Hstep as <-. unfold settle.
    destruct (operation item) as [r|]; simpl; rewrite length_insert.
    + pose proof (sum_list_insert pending _ _ _ (Settled r) Hi).
      pose proof (sum_list_insert weight _ _ _ (Settled r) Hi).
      simpl in *. repeat split; lia.
    + pose proof (sum_list_insert pending _ _ _ (Settled 0) Hi).
      pose proof (sum_list_insert weight _ _ _ (Settled 0) Hi).
      simpl in *. repeat split; lia.
  - destruct (workers s !! i) as [[item|item|v]|] eqn:Hi; try done.
    destruct (items !! currentIndex s) as [item|] eqn:Hitem; [|done].
    injection Hstep as <-. simpl. rewrite length_insert.
    apply lookup_lt_Some in Hitem.
    pose proof (sum_list_insert pending _ _ _ (Running item) Hi).
    pose proof (sum_list_insert weight _ _ _ (Running item) Hi).
    simpl in *. repeat split; lia.
Qed.

Lemma exec_inv (evs : list event) (s s' : state) :
  exec operation items s evs = Some s' ->
  pool_inv items maxConcurrent s ->
  pool_inv items maxConcurrent s' /\
  potential items s = length evs + potential items s'.
Proof.
  revert s. induction evs as [|e evs IH]; intros s Hexec Hinv; simpl in *.
  - injection Hexec as <-. done.
  - destruct (step operation items s e) as [s1|] eqn:Hstep; [|done].
    simpl in Hexec.
    destruct (step_inv _ _ _ Hstep Hinv) as [Hinv1 Hpot].
    destruct (IH _ Hexec Hinv1) as [Hinv' Hpot']. split; [done | lia].
Qed.

Lemma reachable_inv (evs : list event) (s : state) :
  exec operation items (initial items maxConcurrent) evs = Some s ->
  pool_inv items maxConcurrent s /\
  length evs + potential items s = 2 * length items.
Proof.
  intros Hexec. destruct initial_inv as [Hinv Hpot].
  destruct (exec_inv _ _ _ Hexec Hinv) as [Hinv' Hpot']. split; [done | lia].
Qed.

Lemma all_settled_weight (l : list (@worker Item)) :
  forallb is_settled l = true <-> sum_list (weight <$> l) = 0.
Proof. induction l as [|[item|item|v] l IH]; csimpl; try done. Qed.

Lemma all_settled_pending (l : list (@worker Item)) :
  forallb is_settled l = true -> sum_list (pending <$> l) = 0.
Proof. induction l as [|[item|item|v] l IH]; csimpl; try done. Qed.

Lemma finalResult_potential (s : state) :
  currentIndex s <= length items ->
  is_Some (finalResult items s) <-> potential items s = 0.
Proof.
  intros Hci. unfold finalResult, potential.
  destruct (decide (currentIndex s < length items)) as [Hlt|Hge].
  - split; [by intros [? ?] | lia].
  - destruct (forallb is_settled (workers s)) eqn:Hall.
    + apply all_settled_weight in Hall. split; [lia | by eexists].
    + split; [by intros [? ?]|]. intros Hsum.
      assert (Hz : sum_list (weight <$> workers s) = 0) by lia.
      apply all_settled_weight in Hz. congruence.
Qed.

(** An array of workers holds a first sleeper, or a running job, or only
    settled workers. *)
Lemma workers_cases (l : list (@worker Item)) :
  (exists i item, l !! i = Some (Sleeping item) /\
      forallb (fun w => negb (is_sleeping w)) (take i l) = true) \/
  (exists i item, l !! i = Some (Running item)) \/
  forallb is_settled l = true.
Proof.
  induction l as [|w l IH].
  - by right; right.
  - destruct w as [item|item|v].
    + left. by exists 0, item.
    + destruct IH as [(i & it & Hi & Hbefore)|[(i & it & Hi)|Hall]].
      * left. by exists (S i), it.
      * right; left. by exists 0, item.
      * right; left. by exists 0, item.
    + destruct IH as [(i & it & Hi & Hbefore)|[(i & it & Hi)|Hall]].
      * left. by exists (S i), it.
      * right; left. by exists (S i), it.
      * by right; right.
Qed.

(** Some callback can always run next, unless the pool has returned. *)
Lemma step_progress (s : state) :
  (1 <= maxConcurrent)%Z ->
  pool_inv items maxConcurrent s ->
  finalResult items s = None ->
  exists e s', step operation items s e = Some s'.
Proof.
  intros HC (Hlen & Hci & _) Hfinal.
  destruct (workers_cases (workers s))
    as [(i & it & Hi & Hbefore)|[(i & it & Hi)|Hall]].
  - exists (Timer i). simpl. rewrite Hi, Hbefore. by eexists.
  - exists (Settle i). simpl. rewrite Hi. by eexists.
  - unfold finalResult in Hfinal. rewrite Hall in Hfinal.
    destruct (decide (currentIndex s < length items)) as [Hlt|]; [|done].
    destruct (lookup_lt_is_Some_2 items _ Hlt) as [item Hitem].
    destruct (workers s) as [|w l] eqn:Hw; [simpl in Hlen; lia|].
    destruct w as [?|?|v]; try done.
    exists (Race 0). simpl. rewrite Hw. simpl. rewrite Hitem. by eexists.
Qed.

Lemma inFlight_running (s : @state Item) :
  inFlight s = sum_list (running <$> workers s).
Proof.
  unfold inFlight. induction (workers s) as [|w l IH]; [done|].
  destruct w as [item|item|v].
  - rewrite filter_cons_False by done. by csimpl.
  - rewrite filter_cons_True by done. csimpl. by rewrite IH.
  - rewrite filter_cons_False by done. by csimpl.
Qed.

(** A callback that starts a job puts one more job in flight, and the
    handlers of a settling job take one out and count it as completed. *)
Lemma step_traffic (s s' : state) (e : event) :
  step operation items s e = Some s' ->
  length (option_list (startedBy items s e)) + inFlight s =
    inFlight s' + (if isSettle e then 1 else 0) /\
  completed s' = completed s + (if isSettle e then 1 else 0) /\
  length (option_list (startedBy items s e)) = (if isSettle e then 0 else 1).
Proof.
  rewrite !inFlight_running. intros Hstep. destruct e as [i|i|i]; simpl in *.
  - destruct (workers s !! i) as [[item|item|v]|] eqn:Hi; try done.
    destruct (forallb _ _); [|done]. injection Hstep as <-. simpl.
    pose proof (sum_list_insert running _ _ _ (Running item) Hi) as H.
    change (running (Running item)) with 1 in H.
    change (running (Sleeping item)) with 0 in H. lia.
  - destruct (workers s !! i) as [[item|item|v]|] eqn:Hi; try done.
    injection Hstep as <-. unfold settle.
    destruct (operation item) as [r|]; simpl.
    + pose proof (sum_list_insert running _ _ _ (Settled r) Hi) as H.
      change (running (Running item)) with 1 in H.
      change (running (Settled r)) with 0 in H. lia.
    + pose proof (sum_list_insert running _ _ _ (Settled 0) Hi) as H.
      change (running (Running item)) with 1 in H.
      change (running (Settled 0)) with 0 in H. lia.
  - destruct (workers s !! i) as [[item|item|v]|] eqn:Hi; try done.
    destruct (items !! currentIndex s) as [item|] eqn:Hitem; [|done].
    injection Hstep as <-. simpl.
    pose proof (sum_list_insert running _ _ _ (Running item) Hi) as H.
    change (running (Running item)) with 1 in H.
    change (running (Settled v)) with 0 in H. lia.
Qed.

Lemma exec_traffic (evs : list event) (s s' : state) :
  exec operation items s evs = Some s' ->
  length (jobsStarted operation items anyEvent s evs) + inFlight s =
    callbacks isSettle evs + inFlight s' /\
  completed s' = completed s + callbacks isSettle evs /\
  length (jobsStarted operation items anyEvent s evs) + callbacks isSettle evs
    = length evs.
Proof.
  unfold callbacks.
  revert s. induction evs as [|e evs IH]; intros s Hexec; simpl in *.
  - injection Hexec as <-. done.
  - destruct (step operation items s e) as [s1|] eqn:Hstep; [|done].
    simpl in Hexec. destruct (IH _ Hexec) as (IH1 & IH2 & IH3).
    destruct (step_traffic _ _ _ Hstep) as (H1 & H2 & H3).
    rewrite length_app. change (anyEvent e) with true. cbv iota.
    destruct (isSettle e) eqn:He.
    + rewrite filter_cons_True by done. simpl length. lia.
    + rewrite filter_cons_False by (by rewrite He). lia.
Qed.

Lemma initial_inFlight : inFlight (initial items maxConcurrent) = 0.
Proof.
  rewrite inFlight_running. unfold initial. simpl.
  induction (take _ items) as [|x l IH]; csimpl; done.
Qed.

(** Jobs in flight.  At every moment of a run, the jobs that have been
    started and have not settled yet are exactly the ones the [workers]
    array holds as running: the loop never replaces a worker whose job is
    still running.  There are at most [maxConcurrent] of them.  The
    [completed] counter is the number of jobs that have settled, and the
    array keeps the [min(maxConcurrent, N)] entries of the initial batch. *)
Theorem inFlight_bounded (evs : list event) (s : state) :
  (0 <= maxConcurrent)%Z ->
  exec operation items (initial items maxConcurrent) evs = Some s ->
  let started :=
    length (jobsStarted operation items anyEvent (initial items maxConcurrent) evs) in
  let settled := callbacks isSettle evs in
  started = settled + inFlight s /\
  (Z.of_nat (started - settled) <= maxConcurrent)%Z /\
  completed s = settled /\
  length (workers s) = Z.to_nat (Z.min maxConcurrent (Z.of_nat (length items))).
Proof.
  intros HC Hexec started settled.
  destruct (reachable_inv _ _ Hexec) as [(Hlen & _) _].
  destruct (exec_traffic _ _ _ Hexec) as (Hflow & Hdone & _).
  rewrite initial_inFlight in Hflow. fold started settled in Hflow.
  assert (Hle : inFlight s <= length (workers s)).
  { unfold inFlight. apply length_filter. }
  unfold initial in Hdone. simpl in Hdone. repeat split; lia.
Qed.

Lemma batch_inv_initial :
  batch_inv items maxConcurrent (initial items maxConcurrent) 0 0.
Proof.
  unfold batch_inv, initial, batchSize. simpl.
  set (n := Z.to_nat (Z.min maxConcurrent (Z.of_nat (length items)))).
  assert (Hn : n <= length items) by lia.
  rewrite length_fmap, length_take.
  split; [lia|]. split; [lia|]. split; [done|]. split; [lia|]. split; [lia|].
  intros i [_ Hi].
  destruct (lookup_lt_is_Some_2 items i ltac:(lia)) as [item Hitem].
  exists item. split; [done|].
  by rewrite list_lookup_fmap, lookup_take_lt, Hitem by done.
Qed.

(** What a callback does to the batch: a timer starts the job of the first
    worker that still sleeps, which is the next item of the batch; the loop
    starts the job of the next item after those handed out. *)
Lemma step_batch (s s' : state) (e : event) (k m : nat) :
  step operation items s e = Some s' ->
  batch_inv items maxConcurrent s k m ->
  batch_inv items maxConcurrent s'
    (k + (if isTimer e then 1 else 0)) (m + (if isRace e then 1 else 0)) /\
  (isTimer e = true -> startedBy items s e = items !! k /\ is_Some (items !! k)) /\
  (isRace e = true ->
   startedBy items s e = items !! (batchSize items maxConcurrent + m) /\
   is_Some (items !! (batchSize items maxConcurrent + m))).
Proof.
  intros Hstep (Hlen & Hk & Hn & Hci & Hawake & Hasleep).
  destruct e as [i|i|i]; simpl in Hstep; simpl isTimer; simpl isRace; cbv iota.
  - destruct (workers s !! i) as [[item|item|v]|] eqn:Hi; try done.
    destruct (forallb _ _) eqn:Hbefore; [|done]. injection Hstep as <-.
    assert (Hik : i = k).
    { apply lookup_lt_Some in Hi as Hlt.
      destruct (decide (i < k)) as [Hlt'|Hge].
      - by specialize (Hawake i _ Hlt' Hi).
      - destruct (decide (i = k)) as [|Hne]; [done|]. exfalso.
        destruct (Hasleep k ltac:(lia)) as (it & _ & Hkw).
        apply Is_true_true, forallb_True in Hbefore.
        rewrite Forall_lookup in Hbefore.
        specialize (Hbefore k (Sleeping it)).
        rewrite lookup_take_lt in Hbefore by lia. by specialize (Hbefore Hkw). }
    subst i. apply lookup_lt_Some in Hi as Hlt.
    destruct (Hasleep k ltac:(lia)) as (it & Hit & Hkw).
    rewrite Hi in Hkw. injection Hkw as <-.
    split; [|split; [|done]].
    + unfold batch_inv. simpl. rewrite length_insert.
      split; [done|]. split; [lia|]. split; [done|]. split; [lia|]. split.
      * intros j w Hj Hw. destruct (decide (j = k)) as [->|Hne].
        -- rewrite list_lookup_insert_eq in Hw by done. by injection Hw as <-.
        -- rewrite list_lookup_insert_ne in Hw by done.
           apply (Hawake j); [lia | done].
      * intros j Hj. destruct (Hasleep j ltac:(lia)) as (it' & Hit' & Hjw).
        exists it'. split; [done|]. rewrite list_lookup_insert_ne by lia. done.
    + intros _. simpl. rewrite Hi, Hit. split; [done | by eexists].
  - destruct (workers s !! i) as [[item|item|v]|] eqn:Hi; try done.
    injection Hstep as <-.
    assert (Hik : i < k).
    { apply lookup_lt_Some in Hi as Hlt.
      destruct (decide (i < k)) as [|Hge]; [done|]. exfalso.
      destruct (Hasleep i ltac:(lia)) as (it & _ & Hkw). congruence. }
    split; [|done].
    unfold batch_inv, settle.
    destruct (operation item) as [r|]; simpl; rewrite length_insert.
    + split; [done|]. split; [lia|]. split; [done|]. split; [lia|]. split.
      * intros j w Hj Hw. destruct (decide (j = i)) as [->|Hne].
        -- apply lookup_lt_Some in Hi.
           rewrite list_lookup_insert_eq in Hw by done. by injection Hw as <-.
        -- rewrite list_lookup_insert_ne in Hw by done. apply (Hawake j); [lia|done].
      * intros j Hj. destruct (Hasleep j ltac:(lia)) as (it' & Hit' & Hjw).
        exists it'. split; [done|]. rewrite list_lookup_insert_ne by lia. done.
    + split; [done|]. split; [lia|]. split; [done|]. split; [lia|]. split.
      * intros j w Hj Hw. destruct (decide (j = i)) as [->|Hne].
        -- apply lookup_lt_Some in Hi.
           rewrite list_lookup_insert_eq in Hw by done. by injection Hw as <-.
        -- rewrite list_lookup_insert_ne in Hw by done. apply (Hawake j); [lia|done].
      * intros j Hj. destruct (Hasleep j ltac:(lia)) as (it' & Hit' & Hjw).
        exists it'. split; [done|]. rewrite list_lookup_insert_ne by lia. done.
  - destruct (workers s !! i) as [[item|item|v]|] eqn:Hi; try done.
    destruct (items !! currentIndex s) as [item|] eqn:Hitem; [|done].
    injection Hstep as <-.
    assert (Hik : i < k).
    { apply lookup_lt_Some in Hi as Hlt.
      destruct (decide (i < k)) as [|Hge]; [done|]. exfalso.
      destruct (Hasleep i ltac:(lia)) as (it & _ & Hkw). congruence. }
    split; [|split; [done|]].
    + unfold batch_inv. simpl. rewrite length_insert.
      split; [done|]. split; [lia|]. split; [done|]. split; [lia|]. split.
      * intros j w Hj Hw. destruct (decide (j = i)) as [->|Hne].
        -- apply lookup_lt_Some in Hi.
           rewrite list_lookup_insert_eq in Hw by done. by injection Hw as <-.
        -- rewrite list_lookup_insert_ne in Hw by done. apply (Hawake j); [lia|done].
      * intros j Hj. destruct (Hasleep j ltac:(lia)) as (it' & Hit' & Hjw).
        exists it'. split; [done|]. rewrite list_lookup_insert_ne by lia. done.
    + intros _. simpl. rewrite <- Hci, Hitem. split; [done | by eexists].
Qed.

Lemma take_S_drop {A} (l : list A) (k t : nat) (x : A) :
  l !! k = Some x -> take (S t) (drop k l) = x :: take t (drop (S k) l).
Proof. intros Hx. by rewrite (drop_S _ _ _ Hx). Qed.

Lemma exec_batch (evs : list event) (s s' : state) (k m : nat) :
  exec operation items s evs = Some s' ->
  batch_inv items maxConcurrent s k m ->
  batch_inv items maxConcurrent s' (k + callbacks isTimer evs) (m + callbacks isRace evs) /\
  jobsStarted operation items isTimer s evs = take (callbacks isTimer evs) (drop k items) /\
  jobsStarted operation items isRace s evs =
    take (callbacks isRace evs) (drop (batchSize items maxConcurrent + m) items).
Proof.
  unfold callbacks.
  revert s k m. induction evs as [|e evs IH]; intros s k m Hexec Hinv; simpl in *.
  - injection Hexec as <-. by rewrite !Nat.add_0_r.
  - destruct (step operation items s e) as [s1|] eqn:Hstep; [|done].
    simpl in Hexec.
    destruct (step_batch _ _ _ _ _ Hstep Hinv) as (Hinv1 & Htimer & Hrace).
    destruct (IH _ _ _ Hexec Hinv1) as (Hinv' & IHt & IHr).
    rewrite IHt, IHr.
    destruct e as [i|i|i]; simpl isTimer in *; simpl isRace in *; cbv iota in *.
    + rewrite (filter_cons_True (fun e => isTimer e = true)),
        (filter_cons_False (fun e => isRace e = true)) by done.
      destruct (Htimer eq_refl) as [-> [item Hitem]]. rewrite Hitem.
      simpl length. rewrite (take_S_drop _ _ _ _ Hitem).
      rewrite Nat.add_0_r in *. replace (k + 1) with (S k) in * by lia.
      replace (k + S (length (filter (fun e => isTimer e = true) evs)))
        with (S k + length (filter (fun e => isTimer e = true) evs)) by lia.
      split; [exact Hinv'|]. split; reflexivity.
    + rewrite !filter_cons_False by done. by rewrite !Nat.add_0_r in *.
    + rewrite (filter_cons_True (fun e => isRace e = true)),
        (filter_cons_False (fun e => isTimer e = true)) by done.
      destruct (Hrace eq_refl) as [-> [item Hitem]]. rewrite Hitem.
      simpl length. rewrite (take_S_drop _ _ _ _ Hitem).
      rewrite Nat.add_0_r in *.
      replace (batchSize items maxConcurrent + (m + 1))
        with (S (batchSize items maxConcurrent + m)) in * by lia.
      replace (m + S (length (filter (fun e => isRace e = true) evs)))
        with (m + 1 + length (filter (fun e => isRace e = true) evs)) by lia.
      split; [exact Hinv'|]. split; reflexivity.
Qed.

(** Items are handed out in input order, one per freed slot.  The initial
    batch is the first [min(maxConcurrent, N)] items, one worker each, and
    the timers start their jobs in input order.  The loop then hands out
    the remaining items in input order, one each time it runs: at every
    moment of a run the jobs the loop has started are those of the items
    that follow the batch, in order, and [currentIndex] is the number of
    items handed out so far.  The loop can run for any worker that has
    settled as long as items remain, whatever the other workers are doing,
    and it puts the next item in that worker's slot and touches no other. *)
Theorem dispatch_in_input_order (evs : list event) (s : state) :
  exec operation items (initial items maxConcurrent) evs = Some s ->
  let n := Z.to_nat (Z.min maxConcurrent (Z.of_nat (length items))) in
  workers (initial items maxConcurrent) = Sleeping <$> take n items /\
  jobsStarted operation items isTimer (initial items maxConcurrent) evs
    = take (callbacks isTimer evs) items /\
  callbacks isTimer evs <= n /\
  jobsStarted operation items isRace (initial items maxConcurrent) evs
    = take (callbacks isRace evs) (drop n items) /\
  currentIndex s = n + callbacks isRace evs /\
  (forall i v,
     workers s !! i = Some (Settled v) ->
     currentIndex s < length items ->
     exists item s',
       items !! currentIndex s = Some item /\
       step operation items s (Race i) = Some s' /\
       workers s' !! i = Some (Running item) /\
       (forall j, j <> i -> workers s' !! j = workers s !! j) /\
       currentIndex s' = S (currentIndex s)).
Proof.
  intros Hexec n.
  destruct (exec_batch _ _ _ _ _ Hexec batch_inv_initial)
    as ((_ & Hk & _ & Hci & _) & Htimers & Hraces).
  simpl in *. fold n in Hk, Hci. unfold batchSize in Hraces. fold n in Hraces.
  split; [done|]. split; [done|]. split; [done|]. split; [by rewrite Nat.add_0_r in Hraces|].
  split; [done|].
  intros i v Hi Hlt.
  destruct (lookup_lt_is_Some_2 items _ Hlt) as [item Hitem].
  exists item. eexists. simpl. rewrite Hi, Hitem.
  apply lookup_lt_Some in Hi as Hlen.
  repeat split; simpl.
  - by apply list_lookup_insert_eq.
  - intros j Hj. by apply list_lookup_insert_ne.
Qed.

Lemma slots_insert (ws : list (@worker Item)) (i : nat) (w w' : worker) (item : Item) :
  Forall2 (runs_item operation) ws items ->
  ws !! i = Some w -> runs_item operation w item ->
  (forall item', runs_item operation w item' -> runs_item operation w' item') ->
  Forall2 (runs_item operation) (<[i := w']> ws) items.
Proof.
  intros Hall Hi Hw Hw'.
  destruct (Forall2_lookup_l _ _ _ _ _ Hall Hi) as (item' & Hitem & Hrel).
  rewrite <- (list_insert_id items i item') by done.
  apply Forall2_insert; [done | by apply Hw'].
Qed.

Lemma step_slots (s s' : state) (e : event) :
  step operation items s e = Some s' ->
  Forall2 (runs_item operation) (workers s) items ->
  currentIndex s = length items ->
  Forall2 (runs_item operation) (workers s') items /\
  currentIndex s' = length items.
Proof.
  intros Hstep Hall Hci. destruct e as [i|i|i]; simpl in Hstep.
  - destruct (workers s !! i) as [[item|item|v]|] eqn:Hi; try done.
    destruct (forallb _ _); [|done]. injection Hstep as <-. simpl.
    split; [|done]. eapply slots_insert; [done | exact Hi | by left |].
    intros item' [[= ->]|[?|?]]; try done. right; by left.
  - destruct (workers s !! i) as [[item|item|v]|] eqn:Hi; try done.
    injection Hstep as <-. unfold settle.
    destruct (operation item) as [r|] eqn:Hop; simpl; (split; [|done]).
    + eapply slots_insert; [done | exact Hi | by right; left |].
      intros item' [?|[[= ->]|?]]; try done. right; right. by rewrite Hop.
    + eapply slots_insert; [done | exact Hi | by right; left |].
      intros item' [?|[[= ->]|?]]; try done. right; right. by rewrite Hop.
  - destruct (workers s !! i) as [[item|item|v]|] eqn:Hi; try done.
    rewrite Hci, lookup_ge_None_2 in Hstep by lia. done.
Qed.

Lemma settled_slots_sum (ws : list (@worker Item)) (l : list Item) (a : Z) :
  Forall2 (runs_item operation) ws l ->
  forallb is_settled ws = true ->
  foldl (fun sum w => sum + match w with Settled v => v | _ => 0 end)%Z a ws
    = (a + totalOfAll operation l)%Z.
Proof.
  unfold totalOfAll. intros Hall. revert a.
  induction Hall as [|w item ws l Hw Hall IH]; intros a Hset; csimpl.
  - lia.
  - destruct w as [?|?|v]; try done. simpl in Hset.
    rewrite IH by done. destruct Hw as [?|[?|[= ->]]]; try done. lia.
Qed.

(** With a worker for every item nothing is replaced, and the pool returns
    the sum of all per-item results; an empty batch returns 0 at once. *)
Theorem aggregate_without_replacement :
  (Z.of_nat (length items) <= maxConcurrent)%Z ->
  (forall evs s v,
     exec operation items (initial items maxConcurrent) evs = Some s ->
     finalResult items s = Some v ->
     v = totalOfAll operation items) /\
  (items = [] -> finalResult items (initial items maxConcurrent) = Some 0%Z).
Proof.
  intros HC. split.
  - assert (Hinit : Forall2 (runs_item operation)
                      (workers (initial items maxConcurrent)) items /\
                    currentIndex (initial items maxConcurrent) = length items).
    { unfold initial. simpl.
      replace (Z.to_nat (Z.min maxConcurrent (Z.of_nat (length items))))
        with (length items) by lia.
      rewrite firstn_all. split; [|done].
      apply Forall2_fmap_l, Forall_Forall2_diag, Forall_forall.
      intros item _. by left. }
    intros evs. generalize dependent (initial items maxConcurrent).
    induction evs as [|e evs IH]; intros s0 [Hall Hci] s v Hexec Hv;
      simpl in Hexec.
    + injection Hexec as <-. unfold finalResult in Hv.
      destruct (decide (currentIndex s0 < length items)); [done|].
      destruct (forallb is_settled (workers s0)) eqn:Hset; [|done].
      injection Hv as <-. by rewrite (settled_slots_sum _ _ _ Hall Hset).
    + destruct (step operation items s0 e) as [s1|] eqn:Hstep; [|done].
      eapply IH; [|exact Hexec|exact Hv]. by eapply step_slots.
  - intros Hnil. subst items. unfold finalResult, initial. simpl.
    by rewrite take_nil.
Qed.

(** C2: a job that throws is caught at its own worker: the worker settles
    with the value 0, the [completed] counter is incremented, no other
    entry of [workers] and no other counter changes.  Whatever the jobs do,
    some callback can run until the pool returns, every run has at most
    [2 * N] callbacks and one of that length has returned; and when the
    pool returns, all [N] items have been handed out and all of them have
    settled, replacements included. *)
Theorem scheduler_isolates_failures :
  (1 <= maxConcurrent)%Z ->
  (forall s i item,
     workers s !! i = Some (Running item) -> operation item = None ->
     exists s',
       step operation items s (Settle i) = Some s' /\
       workers s' !! i = Some (Settled 0) /\
       (forall j, j <> i -> workers s' !! j = workers s !! j) /\
       completed s' = S (completed s) /\
       currentIndex s' = currentIndex s /\
       successful s' = successful s) /\
  (forall evs s,
     exec operation items (initial items maxConcurrent) evs = Some s ->
     (forall v, finalResult items s = Some v ->
        currentIndex s = length items /\ completed s = length items /\
        forallb is_settled (workers s) = true) /\
     (finalResult items s = None ->
        exists e s', step operation items s e = Some s') /\
     length evs <= 2 * length items /\
     (length evs = 2 * length items -> is_Some (finalResult items s))).
Proof.
  intros HC. split.
  - intros s i item Hi Hop. eexists. simpl. rewrite Hi. split; [reflexivity|].
    unfold settle. rewrite Hop. simpl.
    apply lookup_lt_Some in Hi as Hlt.
    repeat split; try done.
    + by apply list_lookup_insert_eq.
    + intros j Hj. by apply list_lookup_insert_ne.
  - intros evs s Hexec.
    destruct (reachable_inv _ _ Hexec) as [Hinv Hpot].
    pose proof Hinv as (Hlen & Hci & Hdone).
    split; [|split; [|split]].
    + intros v Hv. unfold finalResult in Hv.
      destruct (decide (currentIndex s < length items)); [done|].
      destruct (forallb is_settled (workers s)) eqn:Hall; [|done].
      apply all_settled_pending in Hall. repeat split; lia.
    + by apply step_progress.
    + lia.
    + intros Hfull. apply finalResult_potential; [done | lia].
Qed.
End PoolProperties.

(** The hypothesis of C2 holds of a pool of two workers, here on a batch
    whose second job throws. *)
Lemma scheduler_isolates_failures_witness :
  (1 <= 2)%Z /\
  (forall evs s,
     exec flakyJob threeTargets (initial threeTargets 2) evs = Some s ->
     forall v, finalResult threeTargets s = Some v -> completed s = 3) /\
  (completed <$>
     exec flakyJob threeTargets (initial threeTargets 2)
       [Timer 0; Timer 1; Settle 1; Race 1; Settle 0; Settle 1]) = Some 3.
Proof.
  split; [done|]. split; [|by vm_compute].
  intros evs s Hexec v Hv.
  destruct (scheduler_isolates_failures flakyJob threeTargets 2 ltac:(lia))
    as [_ H].
  destruct (H evs s Hexec) as [H1 _]. by destruct (H1 v Hv) as (_ & ? & _).
Defined.

(** A pool of two workers on three targets, after the first replacement:
    three jobs have been started and one has settled, so two are in flight,
    and the hypotheses of [inFlight_bounded] hold. *)
Lemma inFlight_bounded_witness :
  (0 <= 2)%Z /\
  exec flakyJob threeTargets (initial threeTargets 2)
    [Timer 0; Timer 1; Settle 1; Race 1]
    = Some {| workers := [Running "t1"; Running "t3"];
              currentIndex := 3; completed := 1; successful := 0 |} /\
  jobsStarted flakyJob threeTargets anyEvent (initial threeTargets 2)
    [Timer 0; Timer 1; Settle 1; Race 1] = ["t1"; "t2"; "t3"] /\
  (Z.of_nat
     (length (jobsStarted flakyJob threeTargets anyEvent (initial threeTargets 2)
                [Timer 0; Timer 1; Settle 1; Race 1]) -
      callbacks isSettle [Timer 0; Timer 1; Settle 1; Race 1]) <= 2)%Z.
Proof.
  assert (Hexec : exec flakyJob threeTargets (initial threeTargets 2)
                    [Timer 0; Timer 1; Settle 1; Race 1]
                  = Some {| workers := [Running "t1"; Running "t3"];
                            currentIndex := 3; completed := 1; successful := 0 |})
    by (by vm_compute).
  split; [done|]. split; [exact Hexec|]. split; [by vm_compute|].
  exact (proj1 (proj2 (inFlight_bounded flakyJob threeTargets 2 _ _ ltac:(lia) Hexec))).
Defined.

(** The same run: the first job settles and is replaced before the timer
    of the second worker fires, so the job of the third target starts
    before that of the second; the loop has handed out the one item that
    follows the batch. *)
Lemma dispatch_in_input_order_witness :
  exec flakyJob threeTargets (initial threeTargets 2)
    [Timer 0; Settle 0; Race 0; Timer 1]
    = Some {| workers := [Running "t3"; Running "t2"];
              currentIndex := 3; completed := 1; successful := 4 |} /\
  jobsStarted flakyJob threeTargets anyEvent (initial threeTargets 2)
    [Timer 0; Settle 0; Race 0; Timer 1] = ["t1"; "t3"; "t2"] /\
  jobsStarted flakyJob threeTargets isTimer (initial threeTargets 2)
    [Timer 0; Settle 0; Race 0; Timer 1] = ["t1"; "t2"] /\
  jobsStarted flakyJob threeTargets isRace (initial threeTargets 2)
    [Timer 0; Settle 0; Race 0; Timer 1] = ["t3"].
Proof.
  assert (Hexec : exec flakyJob threeTargets (initial threeTargets 2)
                    [Timer 0; Settle 0; Race 0; Timer 1]
                  = Some {| workers := [Running "t3"; Running "t2"];
                            currentIndex := 3; completed := 1; successful := 4 |})
    by (by vm_compute).
  split; [exact Hexec|]. split; [by vm_compute|].
  destruct (dispatch_in_input_order flakyJob threeTargets 2 _ _ Hexec)
    as (_ & Htimers & _ & Hraces & _).
  split; [by rewrite Htimers | by rewrite Hraces].
Defined.

(** A pool of three workers on three targets has a worker per item. *)
Lemma aggregate_without_replacement_witness :
  (Z.of_nat (length threeTargets) <= 3)%Z /\
  (forall evs s v,
     exec flakyJob threeTargets (initial threeTargets 3) evs = Some s ->
     finalResult threeTargets s = Some v -> v = 10%Z).
Proof.
  split; [by vm_compute|]. intros evs s v Hexec Hv.
  exact (proj1 (aggregate_without_replacement flakyJob threeTargets 3
                  ltac:(by vm_compute)) evs s v Hexec Hv).
Defined.

(** ** C1: the returned aggregate *)

Lemma twoHosts_step (s s' : state) (e : event) :
  s ∈ twoHostsTrace ->
  step twoHostsJob twoHosts s e = Some s' ->
  s' ∈ twoHostsTrace.
Proof.
  intros Hs Hstep. unfold twoHostsTrace in Hs.
  repeat (apply elem_of_cons in Hs as [->|Hs]); [..|by apply elem_of_nil in Hs];
    destruct e as [[|i]|[|i]|[|i]]; vm_compute in Hstep; try discriminate Hstep;
    injection Hstep as <-; unfold twoHostsTrace;
    rewrite !elem_of_cons; auto 10.
Qed.

Lemma twoHosts_exec (evs : list event) (s s' : state) :
  s ∈ twoHostsTrace ->
  exec twoHostsJob twoHosts s evs = Some s' ->
  s' ∈ twoHostsTrace.
Proof.
  revert s. induction evs as [|e evs IH]; intros s Hs Hexec; simpl in Hexec.
  - by injection Hexec as <-.
  - destruct (step twoHostsJob twoHosts s e) as [s1|] eqn:Hstep; [|done].
    eapply IH; [|exact Hexec]. by eapply twoHosts_step.
Qed.

(** C1 on the failing input: two hosts whose jobs find 5 and 7 results, one
    worker.  Every run of the pool that returns, returns 7; the natural run
    does return; the sum of all per-item results, which the progress
    counter [successful] holds at that point, is 12. *)
Theorem runParallelAttacks_drops_replaced_results :
  (forall evs s v,
     exec twoHostsJob twoHosts (initial twoHosts 1) evs = Some s ->
     finalResult twoHosts s = Some v -> v = 7%Z) /\
  (exec twoHostsJob twoHosts (initial twoHosts 1)
     [Timer 0; Settle 0; Race 0; Settle 0] ≫= finalResult twoHosts)
    = Some 7%Z /\
  (successful <$>
     exec twoHostsJob twoHosts (initial twoHosts 1)
       [Timer 0; Settle 0; Race 0; Settle 0]) = Some 12%Z /\
  totalOfAll twoHostsJob twoHosts = 12%Z.
Proof.
  split; [|by vm_compute].
  intros evs s v Hexec Hv.
  assert (Hs : s ∈ twoHostsTrace).
  { eapply twoHosts_exec; [|exact Hexec]. apply elem_of_cons. by left. }
  unfold twoHostsTrace in Hs.
  repeat (apply elem_of_cons in Hs as [->|Hs]); [..|by apply elem_of_nil in Hs];
    vm_compute in Hv; congruence.
Qed.

(** ** Limits of the worker pool *)

Section PoolLimits.
Context {Item : Type}.
Variable operation : Item -> option Z.
Variable items : list Item.

(** A pool that is given a limit of zero or less and at least one item
    starts no worker, and then waits for ever: [Promise.race] of no promise
    never resolves, so no callback can run and the pool never returns. *)
Theorem pool_without_workers_hangs (maxConcurrent : Z) :
  (maxConcurrent <= 0)%Z -> items <> [] ->
  workers (initial items maxConcurrent) = [] /\
  finalResult items (initial items maxConcurrent) = None /\
  (forall e, step operation items (initial items maxConcurrent) e = None) /\
  (forall evs s,
     exec operation items (initial items maxConcurrent) evs = Some s ->
     evs = [] /\ finalResult items s = None).
Proof.
  intros HC Hitems.
  assert (Hn : Z.to_nat (Z.min maxConcurrent (Z.of_nat (length items))) = 0) by lia.
  assert (Hinit : initial items maxConcurrent =
            {| workers := []; currentIndex := 0; completed := 0; successful := 0 |}).
  { unfold initial. rewrite Hn. done. }
  assert (Hfinal : finalResult items (initial items maxConcurrent) = None).
  { rewrite Hinit. unfold finalResult. simpl.
    destruct (decide (0 < length items)) as [|Hge]; [done|].
    destruct items; [done | simpl in Hge; lia]. }
  assert (Hstep : forall e, step operation items (initial items maxConcurrent) e = None).
  { intros e. rewrite Hinit. by destruct e. }
  split; [by rewrite Hinit|]. split; [done|]. split; [done|].
  intros [|e evs] s Hexec; simpl in Hexec.
  - injection Hexec as <-. done.
  - by rewrite Hstep in Hexec.
Qed.

(** The limits [main] computes from the number of CPU cores lie between 3
    and 15 for reconnaissance and between 5 and 20 for attacks, the former
    never above the latter, whatever the number of cores.  A pool run with
    such a limit keeps at most that many jobs in flight, runs at most two
    callbacks per item, and can always run a callback until it returns. *)
Theorem main_concurrency_limits (cpuCores : Z) :
  (3 <= ReconCli.maxConcurrent cpuCores <= 15)%Z /\
  (5 <= Attacks.maxConcurrent cpuCores <= 20)%Z /\
  (ReconCli.maxConcurrent cpuCores <= Attacks.maxConcurrent cpuCores)%Z /\
  (forall limit evs s,
     limit = ReconCli.maxConcurrent cpuCores \/ limit = Attacks.maxConcurrent cpuCores ->
     exec operation items (initial items limit) evs = Some s ->
     (Z.of_nat (inFlight s) <= limit)%Z /\
     length evs <= 2 * length items /\
     (finalResult items s = None ->
      exists e s', step operation items s e = Some s')).
Proof.
  unfold ReconCli.maxConcurrent, Attacks.maxConcurrent.
  split; [lia|]. split; [lia|]. split; [lia|].
  intros limit evs s Hlimit Hexec.
  destruct (reachable_inv operation items limit evs s Hexec) as [Hinv Hpot].
  split; [|split].
  - destruct Hinv as (Hlen & _). unfold inFlight.
    pose proof (length_filter (fun w => is_running w = true) (workers s)). lia.
  - lia.
  - intros Hfinal. apply (step_progress operation items limit); [lia | done | done].
Qed.

End PoolLimits.

(** Three targets and a limit of zero. *)
Lemma pool_without_workers_hangs_witness :
  (0 <= 0)%Z /\ threeTargets <> [] /\
  (forall evs s,
     exec flakyJob threeTargets (initial threeTargets 0) evs = Some s ->
     evs = [] /\ finalResult threeTargets s = None).
Proof.
  split; [lia|]. split; [done|].
  exact (proj2 (proj2 (proj2
    (pool_without_workers_hangs flakyJob threeTargets 0 ltac:(lia) ltac:(done))))).
Defined.

(** ** The jobs: which hosts are attacked and scanned, and what is counted *)

Lemma eligible_spec (target : option Attacks.TargetDoc) :
  Attacks.eligible target = true <->
  exists doc prefix rest,
    target = Some doc /\ prefix ∈ bountyPrefixes /\
    Attacks.td_program doc = Some (prefix +:+ rest).
Proof.
  unfold Attacks.eligible, Attacks.startsWith, bountyPrefixes.
  destruct target as [doc|]; [|split; [done | by intros (? & ? & ? & ? & _)]].
  destruct (Attacks.td_program doc) as [program|] eqn:Hprogram;
    [|split; [done | intros (? & ? & ? & [= <-] & _ & ?); congruence]].
  rewrite andb_true_iff, !orb_true_iff, !prefix_spec. split.
  - intros [_ [[[rest ->]|[rest ->]]|[rest ->]]]; eexists doc, _, rest;
      (split; [done|]); (split; [|done]); rewrite !elem_of_cons; auto.
  - intros (doc' & prefix & rest & [= <-] & Hprefix & Hp).
    rewrite Hprogram in Hp. injection Hp as ->. split.
    + repeat (apply elem_of_cons in Hprefix as [->|Hprefix]); try done.
      by apply elem_of_nil in Hprefix.
    + repeat (apply elem_of_cons in Hprefix as [->|Hprefix]);
        [left; left | left; right | right | by apply elem_of_nil in Hprefix];
        by exists rest.
Qed.

Section JobHeadProperties.
Context {ObjectId : Type}.
Variable newObjectId : string -> option ObjectId.
Variable dirOk : bool.
Variable reconOf : ObjectId -> option (option (Attacks.ReconDoc ObjectId)).
Variable targetOf : ObjectId -> option (option Attacks.TargetDoc).
Variable reconId : string.

(** What the head of a job has read when it does not fail. *)
Lemma lookup_Some (recon : option (Attacks.ReconDoc ObjectId))
    (target : option Attacks.TargetDoc) :
  Attacks.lookup newObjectId dirOk reconOf targetOf reconId = Some (recon, target) <->
  headReads newObjectId dirOk reconOf targetOf reconId recon target.
Proof.
  unfold headReads. split.
  - unfold Attacks.lookup. destruct dirOk; [|done].
    destruct (newObjectId reconId) as [id|]; [|done]. simpl.
    destruct (reconOf id) as [[doc|]|] eqn:Hrecon; simpl; [| |done].
    + destruct (Attacks.objectIdOf newObjectId (Attacks.rd_targetId doc)) as [tid|]
        eqn:Htid; simpl; [|done].
      destruct (targetOf tid) as [t|] eqn:Ht; simpl; [|done].
      intros [= <- <-]. split; [done|]. exists id. split; [done|].
      split; [done|]. by exists tid.
    + intros [= <- <-]. split; [done|]. by exists id.
  - intros (-> & id & Hid & Hrecon & Hdoc). unfold Attacks.lookup.
    rewrite Hid. simpl. rewrite Hrecon. simpl. destruct recon as [doc|].
    + destruct Hdoc as (tid & -> & Ht). simpl. by rewrite Ht.
    + by rewrite Hdoc.
Qed.

(** When the head of a job fails. *)
Lemma lookup_None :
  Attacks.lookup newObjectId dirOk reconOf targetOf reconId = None <->
  headFails newObjectId dirOk reconOf targetOf reconId.
Proof.
  unfold headFails. split.
  - unfold Attacks.lookup. destruct dirOk; [|by left].
    destruct (newObjectId reconId) as [id|]; [|by right; left]. simpl.
    intros Hnone. right; right. exists id. split; [done|].
    destruct (reconOf id) as [[doc|]|] eqn:Hrecon; simpl in Hnone; [|done|by left].
    right. exists doc. split; [done|].
    destruct (Attacks.objectIdOf newObjectId (Attacks.rd_targetId doc)) as [tid|]
      eqn:Htid; simpl in Hnone; [|by left].
    right. exists tid. split; [done|]. by destruct (targetOf tid).
  - unfold Attacks.lookup.
    intros [->|[->|(id & -> & [Hrecon|(doc & Hrecon & [Htid|(tid & Htid & Ht)])])]];
      [done | by destruct dirOk | ..];
      destruct dirOk; try done; simpl; rewrite Hrecon; simpl; try done;
      rewrite Htid; simpl; try done. by rewrite Ht.
Qed.

End JobHeadProperties.

Section AttackJobProperties.
Context {AttackResult ObjectId : Type}.
Variable rawDirOf : string -> string.
Variable newObjectId : string -> option ObjectId.
Variable clock : nat -> string.
Variable dirOk : bool.
Variable reconOf : ObjectId -> option (option (Attacks.ReconDoc ObjectId)).
Variable targetOf : ObjectId -> option (option Attacks.TargetDoc).
Variable found : Attacks.Phase -> list AttackResult.
Variable jobId reconId : string.

(** A job whose head fails. *)
Lemma runAttackJob_rejected (insertOk : bool) :
  Attacks.lookup newObjectId dirOk reconOf targetOf reconId = None ->
  Attacks.runAttackJob rawDirOf newObjectId clock dirOk reconOf targetOf found insertOk
    jobId reconId = (Attacks.Rejected, [Attacks.EnsureDir (rawDirOf jobId)]).
Proof. intros Hhead. unfold Attacks.runAttackJob. by rewrite Hhead. Qed.

(** The effects of a job on an eligible target. *)
Lemma runAttackJob_eligible (insertOk : bool) (recon : option (Attacks.ReconDoc ObjectId))
    (target : option Attacks.TargetDoc) :
  Attacks.lookup newObjectId dirOk reconOf targetOf reconId = Some (recon, target) ->
  Attacks.eligible target = true ->
  Attacks.runAttackJob rawDirOf newObjectId clock dirOk reconOf targetOf found insertOk
    jobId reconId =
    (Attacks.Resolved (Z.of_nat (length (Attacks.phases ≫= found))),
     Attacks.EnsureDir (rawDirOf jobId) ::
     ((fun phase => Attacks.SpawnNuclei phase
                      ("http://" +:+ Attacks.reconHost recon)
                      (rawDirOf jobId) reconId jobId) <$> Attacks.phases) ++
     match Attacks.phases ≫= found with
     | [] => []
     | _ :: _ =>
         Attacks.InsertMany (Attacks.enrichAttacks clock (Attacks.phases ≫= found)) ::
         (if insertOk
          then (fun attack => Attacks.Notify attack (Attacks.reconHost recon))
                 <$> Attacks.enrichAttacks clock (Attacks.phases ≫= found)
          else [])
     end).
Proof.
  intros Hhead Hel. unfold Attacks.runAttackJob. rewrite Hhead, Hel. simpl negb. cbv iota.
  destruct (Attacks.phases ≫= found) as [|a l] eqn:Hall; [|done].
  by rewrite app_nil_r.
Qed.

Lemma runAttackJob_skipped (insertOk : bool) (recon : option (Attacks.ReconDoc ObjectId))
    (target : option Attacks.TargetDoc) :
  Attacks.lookup newObjectId dirOk reconOf targetOf reconId = Some (recon, target) ->
  Attacks.eligible target = false ->
  Attacks.runAttackJob rawDirOf newObjectId clock dirOk reconOf targetOf found insertOk
    jobId reconId = (Attacks.Resolved 0, [Attacks.EnsureDir (rawDirOf jobId)]).
Proof. intros Hhead Hel. unfold Attacks.runAttackJob. by rewrite Hhead, Hel. Qed.

Lemma omap_cons_None {A B} (f : A -> option B) (x : A) (l : list A) :
  f x = None -> omap f (x :: l) = omap f l.
Proof. intros Hx. csimpl. by rewrite Hx. Qed.

Lemma omap_spawned (t d r j : string) (l : list Attacks.Phase) :
  omap spawnedPhase
    ((fun phase => @Attacks.SpawnNuclei AttackResult phase t d r j) <$> l) = l.
Proof. induction l as [|p l IH]; csimpl; [done | by rewrite IH]. Qed.

Lemma omap_notify {B} (f : @Attacks.Effect AttackResult -> option B) (host : string)
    (docs : list (@Attacks.StoredAttack AttackResult)) :
  (forall doc, f (Attacks.Notify doc host) = None) ->
  omap f ((fun doc => Attacks.Notify doc host) <$> docs) = [].
Proof. intros Hf. induction docs as [|d docs IH]; csimpl; [done | by rewrite Hf]. Qed.

Lemma bind_spawned {B} (f : @Attacks.Effect AttackResult -> list B) (t d r j : string)
    (l : list Attacks.Phase) :
  (forall phase, f (Attacks.SpawnNuclei phase t d r j) = []) ->
  ((fun phase => Attacks.SpawnNuclei phase t d r j) <$> l) ≫= f = [].
Proof. intros Hf. induction l as [|p l IH]; csimpl; [done | by rewrite Hf]. Qed.

Lemma omap_spawned_none {B} (f : @Attacks.Effect AttackResult -> option B)
    (t d r j : string) (l : list Attacks.Phase) :
  (forall phase, f (Attacks.SpawnNuclei phase t d r j) = None) ->
  omap f ((fun phase => Attacks.SpawnNuclei phase t d r j) <$> l) = [].
Proof. intros Hf. induction l as [|p l IH]; csimpl; [done | by rewrite Hf]. Qed.

Lemma bind_notify {B} (f : @Attacks.Effect AttackResult -> list B) (host : string)
    (docs : list (@Attacks.StoredAttack AttackResult)) :
  (forall doc, f (Attacks.Notify doc host) = []) ->
  ((fun doc => Attacks.Notify doc host) <$> docs) ≫= f = [].
Proof. intros Hf. induction docs as [|d docs IH]; csimpl; [done | by rewrite Hf]. Qed.

Lemma omap_announced (host : string)
    (docs : list (@Attacks.StoredAttack AttackResult)) :
  omap announcedAttack ((fun doc => Attacks.Notify doc host) <$> docs)
    = (fun doc => (doc, host)) <$> docs.
Proof. induction docs as [|d docs IH]; csimpl; [done | by rewrite IH]. Qed.

(** [runAttackJob] attacks the hosts of bug bounty programs only, and
    rejects before it attacks anything.  The job is rejected exactly when
    its head fails: the output directory cannot be made, [reconId] is not
    the text of an identifier, a [findOne] rejects, or the recon document
    names its target by a string that is not the text of an identifier; a
    rejected job has done nothing but try to make its directory.  When the
    head has read the recon document and its target, the guard lets the job
    pass exactly when the target exists and its program starts with
    [bugcrowd:], [hackerone:] or [intigriti:].  A job that does not pass
    resolves with 0 and does nothing else: no nuclei process, nothing
    stored, nobody notified.  A job that passes starts the six phases, once
    each and in order, and every nuclei process a job starts is aimed at
    [http://] followed by the host of the recon record. *)
Theorem runAttackJob_only_bounty_targets (insertOk : bool) :
  let run :=
    Attacks.runAttackJob rawDirOf newObjectId clock dirOk reconOf targetOf found insertOk
      jobId reconId in
  (run.1 = Attacks.Rejected <-> headFails newObjectId dirOk reconOf targetOf reconId) /\
  (run.1 = Attacks.Rejected -> run.2 = [Attacks.EnsureDir (rawDirOf jobId)]) /\
  (forall recon target,
     headReads newObjectId dirOk reconOf targetOf reconId recon target ->
     (Attacks.eligible target = true <->
      exists doc prefix rest,
        target = Some doc /\ prefix ∈ bountyPrefixes /\
        Attacks.td_program doc = Some (prefix +:+ rest)) /\
     (Attacks.eligible target = false ->
      run = (Attacks.Resolved 0, [Attacks.EnsureDir (rawDirOf jobId)])) /\
     (Attacks.eligible target = true -> omap spawnedPhase run.2 = Attacks.phases)) /\
  (forall phase t d r j,
     Attacks.SpawnNuclei phase t d r j ∈ run.2 ->
     exists recon target,
       headReads newObjectId dirOk reconOf targetOf reconId recon target /\
       Attacks.eligible target = true /\
       t = "http://" +:+ Attacks.reconHost recon /\
       d = rawDirOf jobId /\ r = reconId /\ j = jobId).
Proof.
  intros run. split; [|split; [|split]].
  - rewrite <- lookup_None. unfold run, Attacks.runAttackJob.
    destruct (Attacks.lookup _ _ _ _ _) as [[recon target]|]; [|done].
    destruct (Attacks.eligible target); cbn [negb]; [|done].
    by destruct (Attacks.phases ≫= found).
  - unfold run, Attacks.runAttackJob.
    destruct (Attacks.lookup _ _ _ _ _) as [[recon target]|]; [|done].
    destruct (Attacks.eligible target); cbn [negb]; [|done].
    by destruct (Attacks.phases ≫= found).
  - intros recon target Hhead%lookup_Some.
    split; [apply eligible_spec|].
    split; [intros Hne; by apply (runAttackJob_skipped _ _ _ Hhead)|].
    intros Hel. unfold run. rewrite (runAttackJob_eligible _ _ _ Hhead Hel). cbn [snd].
    generalize (Attacks.phases ≫= found). generalize Attacks.phases.
    intros ps all. rewrite omap_cons_None, omap_app, omap_spawned by done.
    destruct all as [|a l]; [by rewrite app_nil_r|].
    rewrite omap_cons_None by done. destruct insertOk; [|by rewrite app_nil_r].
    rewrite omap_notify by done. by rewrite app_nil_r.
  - intros phase t d r j Hin. unfold run in Hin.
    destruct (Attacks.lookup newObjectId dirOk reconOf targetOf reconId)
      as [[recon target]|] eqn:Hhead.
    + exists recon, target. split; [by apply lookup_Some|].
      destruct (Attacks.eligible target) eqn:Hel.
      * split; [done|].
        rewrite (runAttackJob_eligible _ _ _ Hhead Hel) in Hin. cbn [snd] in Hin.
        apply elem_of_cons in Hin as [?|Hin]; [done|].
        apply elem_of_app in Hin as [Hin|Hin].
        -- by apply list_elem_of_fmap in Hin as (phase' & [= -> -> -> -> ->] & _).
        -- exfalso. destruct (Attacks.phases ≫= found) as [|a l];
             [by apply elem_of_nil in Hin|].
           apply elem_of_cons in Hin as [?|Hin]; [done|].
           destruct insertOk; [|by apply elem_of_nil in Hin].
           by apply list_elem_of_fmap in Hin as (doc & ? & _).
      * rewrite (runAttackJob_skipped _ _ _ Hhead Hel) in Hin. cbn [snd] in Hin.
        apply elem_of_cons in Hin as [?|Hin]; [done | by apply elem_of_nil in Hin].
    + rewrite (runAttackJob_rejected _ Hhead) in Hin. cbn [snd] in Hin.
      apply elem_of_cons in Hin as [?|Hin]; [done | by apply elem_of_nil in Hin].
Qed.

Lemma enrichAttacks_spec (all : list AttackResult) :
  Attacks.sa_attack <$> Attacks.enrichAttacks clock all = all /\
  Forall (fun doc => Attacks.sa_cves doc = [] /\ Attacks.sa_status doc = status_open /\
                     Attacks.sa_tags doc = ["attack-phase"])
         (Attacks.enrichAttacks clock all).
Proof.
  unfold Attacks.enrichAttacks. split.
  - apply list_eq. intros i. rewrite list_lookup_fmap, list_lookup_imap.
    by destruct (all !! i).
  - apply Forall_lookup. intros i doc Hi.
    apply list_lookup_imap_Some in Hi as (a & _ & ->). done.
Qed.

(** What [runAttackJob] resolves with and stores for an eligible target:
    the number of results of all six phases together; the results
    themselves, in phase order, each as an open document tagged
    [attack-phase] with no CVE reference; one notification per stored
    document when the insertion succeeded and none when it failed.  The
    number is the same whether or not the insertion succeeds: it counts
    the results found, stored or not. *)
Theorem runAttackJob_counts_every_phase (insertOk : bool)
    (recon : option (Attacks.ReconDoc ObjectId)) (target : option Attacks.TargetDoc) :
  let run :=
    Attacks.runAttackJob rawDirOf newObjectId clock dirOk reconOf targetOf found insertOk
      jobId reconId in
  headReads newObjectId dirOk reconOf targetOf reconId recon target ->
  Attacks.eligible target = true ->
  run.1 = Attacks.Resolved
            (Z.of_nat (sum_list ((fun phase => length (found phase)) <$> Attacks.phases))) /\
  Attacks.sa_attack <$> (run.2 ≫= storedAttacks) = Attacks.phases ≫= found /\
  Forall (fun doc => Attacks.sa_cves doc = [] /\ Attacks.sa_status doc = status_open /\
                     Attacks.sa_tags doc = ["attack-phase"])
         (run.2 ≫= storedAttacks) /\
  omap announcedAttack run.2 =
    (if insertOk
     then (fun doc => (doc, Attacks.reconHost recon)) <$> (run.2 ≫= storedAttacks)
     else []) /\
  run.1 =
    (Attacks.runAttackJob rawDirOf newObjectId clock dirOk reconOf targetOf found
       (negb insertOk) jobId reconId).1.
Proof.
  intros run Hhead%lookup_Some Hel. unfold run.
  rewrite !(runAttackJob_eligible _ _ _ Hhead Hel).
  cbn [fst snd]. rewrite bind_cons. cbn [storedAttacks app].
  assert (Hstored :
    (((fun phase => Attacks.SpawnNuclei phase
                      ("http://" +:+ Attacks.reconHost recon)
                      (rawDirOf jobId) reconId jobId) <$> Attacks.phases) ++
     match Attacks.phases ≫= found with
     | [] => []
     | _ :: _ =>
         Attacks.InsertMany (Attacks.enrichAttacks clock (Attacks.phases ≫= found)) ::
         (if insertOk
          then (fun attack => Attacks.Notify attack (Attacks.reconHost recon))
                 <$> Attacks.enrichAttacks clock (Attacks.phases ≫= found)
          else [])
     end) ≫= storedAttacks = Attacks.enrichAttacks clock (Attacks.phases ≫= found)).
  { rewrite bind_app, bind_spawned by done. cbn [app].
    destruct (Attacks.phases ≫= found) as [|a l] eqn:Hall; [done|].
    rewrite bind_cons. cbn [storedAttacks]. destruct insertOk; [|by rewrite app_nil_r].
    rewrite bind_notify by done. by rewrite app_nil_r. }
  rewrite Hstored.
  destruct (enrichAttacks_spec (Attacks.phases ≫= found)) as [Hatt Hall].
  split; [|split; [done|split; [done|split; [|done]]]].
  - do 2 f_equal. generalize Attacks.phases. intros l.
    induction l as [|p l IH]; csimpl; [done|]. by rewrite length_app, IH.
  - rewrite omap_cons_None, omap_app, omap_spawned_none by done. cbn [app].
    destruct (Attacks.phases ≫= found) as [|a l].
    + by destruct insertOk.
    + rewrite omap_cons_None by done. destruct insertOk; [|done].
      by rewrite omap_announced.
Qed.

End AttackJobProperties.

(** Three results from two phases against a HackerOne target, with a
    failing insertion; under a recon identifier that is not the text of an
    identifier the same job is rejected. *)
Lemma runAttackJob_counts_every_phase_witness :
  headReads hexObjectId true oneRecon (oneTarget bountyTarget) reconKey
    (Some (fooBarRecon (Attacks.IdString targetKey))) (Some bountyTarget) /\
  Attacks.eligible (Some bountyTarget) = true /\
  (Attacks.runAttackJob (fun job => "raw/" +:+ job) hexObjectId (fun k => pretty k) true
     oneRecon (oneTarget bountyTarget) twoPhasesFind false "job-1" reconKey).1
    = Attacks.Resolved 3 /\
  Attacks.runAttackJob (fun job => "raw/" +:+ job) hexObjectId (fun k => pretty k) true
    oneRecon (oneTarget bountyTarget) twoPhasesFind false "job-1" "r1"
    = (Attacks.Rejected, [Attacks.EnsureDir "raw/job-1"]).
Proof.
  assert (Hhead : headReads hexObjectId true oneRecon (oneTarget bountyTarget) reconKey
            (Some (fooBarRecon (Attacks.IdString targetKey))) (Some bountyTarget)).
  { split; [done|]. exists reconKey. split; [by vm_compute|]. split; [by vm_compute|].
    exists targetKey. split; by vm_compute. }
  split; [exact Hhead|]. split; [by vm_compute|]. split; [|by vm_compute].
  rewrite (proj1 (runAttackJob_counts_every_phase (fun job => "raw/" +:+ job)
                    hexObjectId (fun k => pretty k) true oneRecon
                    (oneTarget bountyTarget) twoPhasesFind "job-1" reconKey false
                    (Some (fooBarRecon (Attacks.IdString targetKey))) (Some bountyTarget)
                    Hhead ltac:(by vm_compute))).
  by vm_compute.
Defined.

Section VulnJobProperties.
Context {Finding ObjectId : Type}.
Variable rawDirOf : string -> string.
Variable newObjectId : string -> option ObjectId.
Variable clock : nat -> string.
Variable dirOk : bool.
Variable reconOf : ObjectId -> option (option (Attacks.ReconDoc ObjectId)).
Variable targetOf : ObjectId -> option (option Attacks.TargetDoc).
Variable found : list Finding.
Variable jobId reconId : string.

Lemma enrichFindings_spec :
  VulnCli.sf_finding <$> VulnCli.enrichFindings clock jobId reconId found = found /\
  Forall (fun doc => VulnCli.sf_reconId doc = reconId /\ VulnCli.sf_jobId doc = jobId /\
                     VulnCli.sf_status doc = status_open /\ VulnCli.sf_tags doc = [])
         (VulnCli.enrichFindings clock jobId reconId found).
Proof.
  unfold VulnCli.enrichFindings. split.
  - apply list_eq. intros i. rewrite list_lookup_fmap, list_lookup_imap.
    by destruct (found !! i).
  - apply Forall_lookup. intros i doc Hi.
    apply list_lookup_imap_Some in Hi as (a & _ & ->). done.
Qed.

(** [runVulnJob] has the head and the guard of [runAttackJob].  It is
    rejected, having done nothing but try to make its directory, exactly
    when the directory cannot be made, [reconId] is not the text of an
    identifier, a [findOne] rejects, or the recon document names its target
    by a string that is not the text of an identifier.  For a target that
    is not of a bug bounty program it resolves with 0 and starts no
    scanner.  Otherwise it starts nuclei once, against the host of the
    recon record, resolves with the number of findings and stores each of
    them as an open document without tags that carries the recon and job
    identifiers. *)
Theorem runVulnJob_scans_bounty_targets_only (insertOk : bool) :
  let run :=
    VulnCli.runVulnJob rawDirOf newObjectId clock dirOk reconOf targetOf found insertOk
      jobId reconId in
  (run.1 = Attacks.Rejected <-> headFails newObjectId dirOk reconOf targetOf reconId) /\
  (run.1 = Attacks.Rejected -> run.2 = [VulnCli.EnsureDir (rawDirOf jobId)]) /\
  (forall recon target,
     headReads newObjectId dirOk reconOf targetOf reconId recon target ->
     (Attacks.eligible target = false ->
      run = (Attacks.Resolved 0, [VulnCli.EnsureDir (rawDirOf jobId)])) /\
     (Attacks.eligible target = true ->
      run.1 = Attacks.Resolved (Z.of_nat (length found)) /\
      omap scannedHost run.2 = [Attacks.reconHost recon] /\
      VulnCli.sf_finding <$> (run.2 ≫= storedFindings) = found /\
      Forall (fun doc => VulnCli.sf_reconId doc = reconId /\
                         VulnCli.sf_jobId doc = jobId /\
                         VulnCli.sf_status doc = status_open /\
                         VulnCli.sf_tags doc = [])
             (run.2 ≫= storedFindings))) /\
  (forall t d r,
     VulnCli.SpawnNuclei t d r ∈ run.2 ->
     exists recon target,
       headReads newObjectId dirOk reconOf targetOf reconId recon target /\
       Attacks.eligible target = true /\ t = Attacks.reconHost recon).
Proof.
  intros run. split; [|split; [|split]].
  - rewrite <- lookup_None. unfold run, VulnCli.runVulnJob.
    destruct (Attacks.lookup _ _ _ _ _) as [[recon target]|]; [|done].
    destruct (Attacks.eligible target); cbn [negb]; [|done].
    by destruct found.
  - unfold run, VulnCli.runVulnJob.
    destruct (Attacks.lookup _ _ _ _ _) as [[recon target]|]; [|done].
    destruct (Attacks.eligible target); cbn [negb]; [|done].
    by destruct found.
  - intros recon target Hhead%lookup_Some.
    unfold run, VulnCli.runVulnJob. rewrite Hhead.
    destruct (Attacks.eligible target) eqn:Hel; cbn [negb]; [|done].
    split; [done|]. intros _.
    destruct enrichFindings_spec as [Hfind Hall].
    assert (Hnotify : forall host (docs : list (@VulnCli.StoredFinding Finding)),
      omap scannedHost ((fun doc => VulnCli.Notify doc host) <$> docs) = [] /\
      ((fun doc => VulnCli.Notify doc host) <$> docs) ≫= storedFindings = []).
    { intros host docs. induction docs as [|d docs [IH1 IH2]]; csimpl; [done|].
      by rewrite IH1, IH2. }
    destruct found as [|a l] eqn:Hfound; [done|]. rewrite <- Hfound in *.
    cbn [fst snd app].
    rewrite !bind_cons, omap_cons_None by done. csimpl.
    destruct insertOk; csimpl.
    + destruct (Hnotify (Attacks.reconHost recon)
                  (VulnCli.enrichFindings clock jobId reconId found)) as [-> ->].
      by rewrite app_nil_r.
    + by rewrite app_nil_r.
  - intros t d r Hin. unfold run, VulnCli.runVulnJob in Hin.
    destruct (Attacks.lookup _ _ _ _ _) as [[recon target]|] eqn:Hhead.
    + exists recon, target. split; [by apply lookup_Some|].
      destruct (Attacks.eligible target); cbn [negb] in Hin.
      * split; [done|]. destruct found as [|a l] eqn:Hfound.
        -- cbn [snd] in Hin. apply elem_of_cons in Hin as [?|Hin]; [done|].
           apply elem_of_cons in Hin as [[= -> _ _]|Hin]; [done|].
           by apply elem_of_nil in Hin.
        -- cbn [snd app] in Hin. apply elem_of_cons in Hin as [?|Hin]; [done|].
           apply elem_of_cons in Hin as [[= -> _ _]|Hin]; [done|].
           apply elem_of_cons in Hin as [?|Hin]; [done|].
           destruct insertOk; [|by apply elem_of_nil in Hin].
           by apply list_elem_of_fmap in Hin as (doc & ? & _).
      * cbn [snd] in Hin.
        apply elem_of_cons in Hin as [?|Hin]; [done | by apply elem_of_nil in Hin].
    + cbn [snd] in Hin.
      apply elem_of_cons in Hin as [?|Hin]; [done | by apply elem_of_nil in Hin].
Qed.

End VulnJobProperties.

Section ReconJobProperties.
Context {Host Doc : Type}.
Variable rawDirOf : string -> string.
Variable normalizedResults : ReconCli.TargetDoc -> string -> list Host -> option (list Doc).
Variable target : ReconCli.TargetDoc.
Variable jobId : string.

End ReconJobProperties.
